(** * jsTreeViz: level-order tree construction and interval-bisection layout

    A shallow embedding of [BTreeNode.js], [treeUtils.js] and the page script
    ([drawBTree], [recursivelyDrawNodes], [init], [clearCanvas] and the
    listeners of the two buttons and of the window).

    Modelling conventions.
    - JavaScript objects of class [BTreeNode] live in a store and are named by
      references; the builder mutates them through aliases held in its queue.
    - The canvas is the sequence of calls made on its 2D context.
    - JavaScript numbers: array indices are [nat] and tree heights [Z]
      (whole numbers far below 2^53, on which the arithmetic of the source
      is exact); coordinates are binary64 floating-point numbers, with the
      operations of the Standard Library's [SpecFloat] (round to nearest,
      ties to even, infinities and NaN).
    - Strings are sequences of 8-bit characters.
    - Recursion over the object graph takes a [fuel] argument bounding the
      depth of the call stack; running out of it is the failure [None]. *)

From Stdlib Require Import String Ascii List ZArith QArith Qpower Lqa Lia.
From Stdlib Require Import SpecFloat.
From stdpp Require Import base list option strings.

Open Scope string_scope.
Open Scope list_scope.
Open Scope nat_scope.

(** ** Numbers *)

(** A JavaScript number: a binary64 floating-point number ([prec = 53],
    [emax = 1024]). *)
Definition double : Type := spec_float.

(** The double nearest to [k * 2^e]. *)
Definition dyadic (k e : Z) : double := binary_normalize 53 1024 k e false.

(** A whole-number literal, and the whole number a double prints as. *)
Definition ofZ (z : Z) : double := dyadic z 0.

Definition toZ (x : double) : option Z :=
  match x with
  | S754_zero false => Some 0%Z
  | S754_finite s m e =>
      let z := if s then Zneg m else Zpos m in
      if (0 <=? e)%Z then Some (z * 2 ^ e)%Z
      else if (Z.land z (Z.ones (- e)) =? 0)%Z then Some (Z.shiftr z (- e))
           else None
  | _ => None
  end.

Declare Scope double_scope.
Delimit Scope double_scope with D.
Bind Scope double_scope with double.
Number Notation spec_float ofZ toZ : double_scope.
Arguments SFadd (prec emax)%_Z_scope (x y)%_double_scope.
Arguments SFsub (prec emax)%_Z_scope (x y)%_double_scope.
Arguments SFmul (prec emax)%_Z_scope (x y)%_double_scope.
Arguments SFdiv (prec emax)%_Z_scope (x y)%_double_scope.
Notation "x + y" := (SFadd 53 1024 x y) : double_scope.
Notation "x - y" := (SFsub 53 1024 x y) : double_scope.
Notation "x * y" := (SFmul 53 1024 x y) : double_scope.
Notation "x / y" := (SFdiv 53 1024 x y) : double_scope.

(** The literal [0.5]. *)
Definition half : double := S754_finite false 4503599627370496 (-53).

(** [Math.PI], the double nearest to pi. *)
Definition Math_PI : double := S754_finite false 7074237752028440 (-51).

(** [Math.pow(2, h)] for a whole number [h]: the double nearest to [2^h],
    which is [2^h] itself up to [h = 1023] and [Infinity] from 1024 on. *)
Definition Math_pow2 (h : Z) : double := SFldexp 53 1024 1%D h.

(** ** Values *)

(** The values that occur in node fields and in the token array. *)
Inductive jsval : Type :=
| JSUndefined
| JSNull
| JSString (s : string).

#[global] Instance jsval_eq_dec : EqDecision jsval.
Proof. solve_decision. Defined.

(** [s[i]] on a string: the one-character string at index [i], or
    [undefined] past the end. *)
Definition charAt (s : string) (i : nat) : jsval :=
  match String.get i s with
  | Some c => JSString (String c "")
  | None => JSUndefined
  end.

(** [arr[i]] on an array: [undefined] past the end. *)
Definition arrayAt (arr : list jsval) (i : nat) : jsval :=
  match arr !! i with
  | Some v => v
  | None => JSUndefined
  end.

(** [String.prototype.split] with a one-character separator: the pieces
    between separators, in order; an input without separator is one piece. *)
Fixpoint split (sep : ascii) (s : string) : list string :=
  match s with
  | EmptyString => [""]
  | String c rest =>
      if Ascii.eqb c sep then "" :: split sep rest
      else match split sep rest with
           | piece :: pieces => String c piece :: pieces
           | [] => [String c ""]
           end
  end.

(** ** The store *)

(** References are positions in the heap. *)
Abbreviation ref := nat.

(** An object of class [BTreeNode]; [None] in a child slot is [null]. *)
Record BTreeNode : Type := mkBTreeNode {
  value : jsval;
  leftChild : option ref;
  rightChild : option ref
}.

(** Calls and property writes on the canvas' 2D context. *)
Inductive ctx_call : Type :=
| beginPath
| arc (x y r startAngle endAngle : double) (counterclockwise : bool)
| set_fillStyle (style : string)
| fill
| set_lineWidth (w : double)
| set_strokeStyle (style : string)
| stroke
| set_font (px : double) (family : string)
| set_textAlign (align : string)
| fillText (text : jsval) (x y : double)
| moveTo (x y : double)
| bezierCurveTo (cp1x cp1y cp2x cp2y x y : double).

Record canvas : Type := mkCanvas {
  width : double;
  height : double;
  calls : list ctx_call
}.

Record store : Type := mkStore {
  nodes : list BTreeNode;
  canvasEl : canvas;
  innerWidth : double;
  innerHeight : double
}.

Definition with_nodes (st : store) (h : list BTreeNode) : store :=
  mkStore h (canvasEl st) (innerWidth st) (innerHeight st).

Definition with_canvas (st : store) (c : canvas) : store :=
  mkStore (nodes st) c (innerWidth st) (innerHeight st).

(** ** The monad of store-passing computations that may fail *)

Definition M (A : Type) : Type := store → option (A * store).

#[global] Instance M_ret : MRet M := λ A a st, Some (a, st).

#[global] Instance M_bind : MBind M := λ A B f m st,
  match m st with
  | Some (a, st') => f a st'
  | None => None
  end.

Definition mfail {A : Type} : M A := λ _, None.

(** *** Objects *)

(** [new BTreeNode(value)]: a fresh object with both child slots [null]. *)
Definition newBTreeNode (v : jsval) : M ref := λ st,
  Some (length (nodes st), with_nodes st (nodes st ++ [mkBTreeNode v None None])).

Definition readNode (this : ref) : M BTreeNode := λ st,
  match nodes st !! this with
  | Some n => Some (n, st)
  | None => None
  end.

(** Field reads [this.value], [this.leftChild], [this.rightChild]. *)
Definition get_value (this : ref) : M jsval :=
  n ← readNode this; mret (value n).
Definition get_leftChild (this : ref) : M (option ref) :=
  n ← readNode this; mret (leftChild n).
Definition get_rightChild (this : ref) : M (option ref) :=
  n ← readNode this; mret (rightChild n).

Definition setLeftChild (this : ref) (v : option ref) : M unit := λ st,
  match nodes st !! this with
  | Some n =>
      Some (tt, with_nodes st
                  (<[this := mkBTreeNode (value n) v (rightChild n)]> (nodes st)))
  | None => None
  end.

Definition setRightChild (this : ref) (v : option ref) : M unit := λ st,
  match nodes st !! this with
  | Some n =>
      Some (tt, with_nodes st
                  (<[this := mkBTreeNode (value n) (leftChild n) v]> (nodes st)))
  | None => None
  end.

(** [e || 0] where [e] is a number or, for [None], [undefined]. *)
Definition orZero (e : option Z) : Z :=
  match e with
  | Some n => if (n =? 0)%Z then 0%Z else n
  | None => 0%Z
  end.

Fixpoint getBTreeHeight (fuel : nat) (this : ref) : M Z :=
  match fuel with
  | O => mfail
  | S fuel =>
      l ← get_leftChild this;
      l ← match l with
          | Some c => h ← getBTreeHeight fuel c; mret (Some h)
          | None => mret None
          end;
      let leftHeight := orZero l in
      r ← get_rightChild this;
      r ← match r with
          | Some c => h ← getBTreeHeight fuel c; mret (Some h)
          | None => mret None
          end;
      let rightHeight := orZero r in
      mret (Z.max leftHeight rightHeight + 1)%Z
  end.

(** *** Canvas *)

Definition ctx (c : ctx_call) : M unit := λ st,
  Some (tt, with_canvas st
              (mkCanvas (width (canvasEl st)) (height (canvasEl st))
                        (calls (canvasEl st) ++ [c]))).

Definition set_width (w : double) : M unit := λ st,
  Some (tt, with_canvas st
              (mkCanvas w (height (canvasEl st)) (calls (canvasEl st)))).

Definition set_height (h : double) : M unit := λ st,
  Some (tt, with_canvas st
              (mkCanvas (width (canvasEl st)) h (calls (canvasEl st)))).

Definition window_innerWidth : M double := λ st, Some (innerWidth st, st).
Definition window_innerHeight : M double := λ st, Some (innerHeight st, st).

(** ** treeUtils.js *)

Record node_config : Type := mkConfig {
  radius : double;
  nodeWidthSpacing : double;
  nodeHeightSpacing : double;
  fontSize : double
}.

Definition DEFAULT_NODE_CONFIG : node_config :=
  {| radius := 20; nodeWidthSpacing := 50; nodeHeightSpacing := 90;
     fontSize := 15 |}.

Record dimensions : Type := mkDimensions {
  canvasWidth : double;
  canvasHeight : double
}.

Definition getRequiredHeightWidth (fuel : nat) (root : ref) : M dimensions :=
  heightOfTree ← getBTreeHeight fuel root;
  let maxPosLeafNodes := Math_pow2 heightOfTree in
  let canvasHeight := (ofZ heightOfTree * nodeHeightSpacing DEFAULT_NODE_CONFIG)%D in
  let canvasWidth := (maxPosLeafNodes * nodeWidthSpacing DEFAULT_NODE_CONFIG)%D in
  mret {| canvasWidth := canvasWidth; canvasHeight := canvasHeight |}.

Definition drawNode (v : jsval) (x y : double) : M unit :=
  (* draw circle *)
  _ ← ctx beginPath;
  _ ← ctx (arc x y (radius DEFAULT_NODE_CONFIG) 0 (2 * Math_PI)%D false);
  _ ← ctx (set_fillStyle "#000000");
  _ ← ctx fill;
  (* draw circle border *)
  _ ← ctx beginPath;
  _ ← ctx (arc x y (radius DEFAULT_NODE_CONFIG) 0 (2 * Math_PI)%D false);
  _ ← ctx (set_lineWidth 3);
  _ ← ctx (set_strokeStyle "#b994f6");
  _ ← ctx stroke;
  (* write value inside circle *)
  _ ← ctx (set_font (fontSize DEFAULT_NODE_CONFIG) "serif");
  _ ← ctx (set_fillStyle "#ffffff");
  _ ← ctx (set_textAlign "center");
  ctx (fillText v x (y + fontSize DEFAULT_NODE_CONFIG / 3)%D).

Record xCordinates : Type := mkX { xStart : double; xEnd : double }.
Record yCordinates : Type := mkY { yStart : double; yEnd : double }.

Definition connectEdges (xc : xCordinates) (yc : yCordinates) : M unit :=
  let xHalf := ((xStart xc + xEnd xc) / 2)%D in
  let yHalf := ((yStart yc + yEnd yc) / 2)%D in
  let start := (xStart xc, yStart yc) in
  let end_ := (xEnd xc, yEnd yc) in
  let cp1 := (xHalf, yHalf) in
  let cp2 := (xEnd xc, yHalf) in
  (* draw curve *)
  _ ← ctx beginPath;
  _ ← ctx (set_strokeStyle "#ffffff");
  _ ← ctx (set_lineWidth 1);
  _ ← ctx (moveTo (fst start) (snd start));
  _ ← ctx (bezierCurveTo (fst cp1) (snd cp1) (fst cp2) (snd cp2)
                         (fst end_) (snd end_));
  ctx stroke.

(** The loop of [parseInput]: [parsedInput += c] for every [c] that is not
    a space. *)
Fixpoint stripSpaces (parsedInput inputVal : string) : string :=
  match inputVal with
  | EmptyString => parsedInput
  | String c rest =>
      stripSpaces (if Ascii.eqb c " " then parsedInput
                   else (parsedInput ++ String c "")%string) rest
  end.

Definition parseInput (inputVal : string) : list jsval :=
  map (λ e, if String.eqb e "null" then JSNull else JSString e)
      (split "," (stripSpaces "" inputVal)).

(** The block commented [//left child] in the loop of [treeConstructor]. *)
Definition leftChildBlock (newinput : list jsval) (node : ref)
    (queue : list ref) (idx : nat) : M (list ref * nat) :=
  if (idx <? length newinput)%nat then
    queue ← (if decide (arrayAt newinput idx ≠ JSNull) then
               leftNode ← newBTreeNode (arrayAt newinput idx);
               _ ← setLeftChild node (Some leftNode);
               mret (queue ++ [leftNode])%list
             else mret queue);
    mret (queue, (idx + 1)%nat)
  else mret (queue, idx).

(** The block commented [//right child]. *)
Definition rightChildBlock (newinput : list jsval) (node : ref)
    (queue : list ref) (idx : nat) : M (list ref * nat) :=
  if (idx <? length newinput)%nat then
    queue ← (if decide (arrayAt newinput idx ≠ JSNull) then
               rightNode ← newBTreeNode (arrayAt newinput idx);
               _ ← setRightChild node (Some rightNode);
               mret (queue ++ [rightNode])%list
             else mret queue);
    mret (queue, (idx + 1)%nat)
  else mret (queue, idx).

(** The [while] loop of [treeConstructor]; it returns the final queue and
    index.  [fuel] bounds the number of iterations. *)
Fixpoint fillLoop (fuel : nat) (newinput : list jsval) (queue : list ref)
    (idx : nat) : M (list ref * nat) :=
  if (0 <? length queue)%nat && (idx <? length newinput)%nat then
    match fuel with
    | O => mfail
    | S fuel =>
        match queue with
        | [] => mfail
        | node :: queue =>
            '(queue, idx) ← leftChildBlock newinput node queue idx;
            '(queue, idx) ← rightChildBlock newinput node queue idx;
            fillLoop fuel newinput queue idx
        end
    end
  else mret (queue, idx).

Definition treeConstructor (input : string) : M ref :=
  let newinput := parseInput input in
  let queue : list ref := [] in
  let idx := 0%nat in
  root ← newBTreeNode (charAt input idx);
  let idx := (idx + 1)%nat in
  let queue := (queue ++ [root])%list in
  _ ← fillLoop (length newinput) newinput queue idx;
  mret root.

(** ** The page script *)

Fixpoint recursivelyDrawNodes (fuel : nat) (root : ref) (currentLevel : double)
    (horizontalConfig : xCordinates) : M unit :=
  match fuel with
  | O => mfail
  | S fuel =>
      let xStart := xStart horizontalConfig in
      let xEnd := xEnd horizontalConfig in
      let xPos := ((xStart + xEnd) / 2)%D in
      let yPos := (currentLevel * nodeHeightSpacing DEFAULT_NODE_CONFIG)%D in
      v ← get_value root;
      _ ← drawNode v xPos yPos;
      l ← get_leftChild root;
      _ ← match l with
          | Some c =>
              let leftNodeHorizontalConfig := mkX xStart xPos in
              _ ← recursivelyDrawNodes fuel c (currentLevel + 1)%D
                    leftNodeHorizontalConfig;
              connectEdges
                (mkX xPos ((xStart + xPos) / 2)%D)
                (mkY (yPos + radius DEFAULT_NODE_CONFIG)%D
                     ((currentLevel + 1) * nodeHeightSpacing DEFAULT_NODE_CONFIG
                      - radius DEFAULT_NODE_CONFIG)%D)
          | None => mret tt
          end;
      r ← get_rightChild root;
      match r with
      | Some c =>
          let rightNodeHorizontalConfig := mkX xPos xEnd in
          _ ← recursivelyDrawNodes fuel c (currentLevel + 1)%D
                rightNodeHorizontalConfig;
          connectEdges
            (mkX xPos ((xPos + xEnd) / 2)%D)
            (mkY (yPos + radius DEFAULT_NODE_CONFIG)%D
                 ((currentLevel + 1) * nodeHeightSpacing DEFAULT_NODE_CONFIG
                  - radius DEFAULT_NODE_CONFIG)%D)
      | None => mret tt
      end
  end.

Definition drawBTree (fuel : nat) (rootEl : ref) : M unit :=
  maxWidth ← window_innerWidth;
  maxHeight ← window_innerHeight;
  (* initialize canvas dimensions *)
  _ ← set_width maxWidth;
  _ ← set_height maxHeight;
  dims ← getRequiredHeightWidth fuel rootEl;
  let windowCenter := (maxWidth / 2)%D in
  let widthCenter := (canvasWidth dims / 2)%D in
  let xStart := (windowCenter - widthCenter)%D in
  let xEnd := (windowCenter + widthCenter)%D in
  let horizontalConfig := mkX xStart xEnd in
  (* Draw *)
  recursivelyDrawNodes fuel rootEl half horizontalConfig.

(** ** Reading a tree off the store *)

(** The shape reachable from a nullable reference: [Null] for [null],
    [Obj l this v r] for the object [this] with value [v]. *)
Inductive tree : Type :=
| Null
| Obj (l : tree) (this : ref) (v : jsval) (r : tree).

Fixpoint reify (fuel : nat) (h : list BTreeNode) (o : option ref) : option tree :=
  match o with
  | None => Some Null
  | Some a =>
      match fuel with
      | O => None
      | S fuel =>
          n ← h !! a;
          l ← reify fuel h (leftChild n);
          r ← reify fuel h (rightChild n);
          Some (Obj l a (value n) r)
      end
  end.

(** ** Specification-level notions *)

(** The mapping applied by [parseInput] to each piece. *)
Definition toToken (e : string) : jsval :=
  if String.eqb e "null" then JSNull else JSString e.

Fixpoint filterString (keep : ascii → bool) (s : string) : string :=
  match s with
  | EmptyString => EmptyString
  | String c rest =>
      if keep c then String c (filterString keep rest)
      else filterString keep rest
  end.

Definition notSpace (c : ascii) : bool := negb (Ascii.eqb c " ").

(** White space in the sense of JavaScript's [\s], among 8-bit characters:
    tab, line feed, vertical tab, form feed, carriage return, space and
    no-break space. *)
Definition isWhitespace (c : ascii) : bool :=
  let n := nat_of_ascii c in
  ((9 <=? n) && (n <=? 13) || (n =? 32) || (n =? 160))%nat.

(** Parsing as the specification words it: every white-space character is
    dropped before splitting. *)
Definition parseInput_whitespace (inputVal : string) : list jsval :=
  map toToken (split "," (filterString (λ c, negb (isWhitespace c)) inputVal)).

Fixpoint occurs (c : ascii) (s : string) : bool :=
  match s with
  | EmptyString => false
  | String d rest => Ascii.eqb d c || occurs c rest
  end.

(** An input with a tab after the comma. *)
Definition tab_input : string := String "1" (String "," (String "009" (String "2" ""))).

Definition empty_store (w h : double) : store :=
  mkStore [] (mkCanvas 0 0 []) w h.

Definition builtTree (input : string) : option tree :=
  match treeConstructor input (empty_store 1280 720) with
  | Some (root, st) => reify (length (nodes st)) (nodes st) (Some root)
  | None => None
  end.

(** Height as the specification defines it: [0] for an absent subtree,
    one more than the higher child otherwise. *)
Fixpoint treeHeight (t : tree) : Z :=
  match t with
  | Null => 0
  | Obj l _ _ r => 1 + Z.max (treeHeight l) (treeHeight r)
  end.

(** Number of nested calls a traversal of [t] needs. *)
Fixpoint depth (t : tree) : nat :=
  match t with
  | Null => 0
  | Obj l _ _ r => S (Nat.max (depth l) (depth r))
  end.

Fixpoint size (t : tree) : nat :=
  match t with
  | Null => 0
  | Obj l _ _ r => S (size l + size r)
  end.

(** [repr h o t]: in the heap [h], the object graph below the nullable
    reference [o] has the shape [t]. *)
Inductive repr (h : list BTreeNode) : option ref → tree → Prop :=
| repr_null : repr h None Null
| repr_obj (a : ref) (n : BTreeNode) (l r : tree) :
    h !! a = Some n →
    repr h (leftChild n) l →
    repr h (rightChild n) r →
    repr h (Some a) (Obj l a (value n) r).

(** *** Layout *)

(** Appending calls to the canvas' log. *)
Definition emit (st : store) (cs : list ctx_call) : store :=
  with_canvas st (mkCanvas (width (canvasEl st)) (height (canvasEl st))
                           (calls (canvasEl st) ++ cs)).

(** The calls a drawing routine makes, read off a run on a blank canvas. *)
Definition callsOf (m : M unit) : list ctx_call :=
  match m (empty_store 0 0) with
  | Some (_, st) => calls (canvasEl st)
  | None => []
  end.

(** Where the specification places a node: level [L], interval
    [[xStart, xEnd]], position [(x, y)]. *)
Record placement : Type := mkPlacement {
  p_node : ref;
  p_value : jsval;
  p_level : double;
  p_xStart : double;
  p_xEnd : double;
  p_x : double;
  p_y : double
}.

(** Interval bisection as the specification words it: a node sits at the
    midpoint of its interval, at height [L * nodeHeightSpacing]; its left
    child gets [[xStart, x]] and its right child [[x, xEnd]], at level
    [L + 1]. *)
Fixpoint layout (t : tree) (L xs xe : double) : list placement :=
  match t with
  | Null => []
  | Obj l a v r =>
      let x := ((xs + xe) / 2)%D in
      mkPlacement a v L xs xe x (L * nodeHeightSpacing DEFAULT_NODE_CONFIG)%D
      :: layout l (L + 1)%D xs x ++ layout r (L + 1)%D x xe
  end.

(** [reaches t L xs xe t' L' xs' xe']: laying out [t] at level [L] on
    [[xs, xe]] lays out its subtree [t'] at level [L'] on [[xs', xe']]. *)
Inductive reaches : tree → double → double → double → tree → double → double → double → Prop :=
| reaches_here (t : tree) (L xs xe : double) : reaches t L xs xe t L xs xe
| reaches_left (l r : tree) (a : ref) (v : jsval) (L xs xe : double)
    (t' : tree) (L' xs' xe' : double) :
    reaches l (L + 1)%D xs ((xs + xe) / 2)%D t' L' xs' xe' →
    reaches (Obj l a v r) L xs xe t' L' xs' xe'
| reaches_right (l r : tree) (a : ref) (v : jsval) (L xs xe : double)
    (t' : tree) (L' xs' xe' : double) :
    reaches r (L + 1)%D ((xs + xe) / 2)%D xe t' L' xs' xe' →
    reaches (Obj l a v r) L xs xe t' L' xs' xe'.

(** The whole sequence of canvas calls for a tree, in the order of one
    depth-first pass: the node, the left subtree and its edge, the right
    subtree and its edge. *)
Fixpoint render (t : tree) (L xs xe : double) : list ctx_call :=
  match t with
  | Null => []
  | Obj l a v r =>
      let x := ((xs + xe) / 2)%D in
      let y := (L * nodeHeightSpacing DEFAULT_NODE_CONFIG)%D in
      let yc := mkY (y + radius DEFAULT_NODE_CONFIG)%D
                    ((L + 1) * nodeHeightSpacing DEFAULT_NODE_CONFIG
                     - radius DEFAULT_NODE_CONFIG)%D in
      callsOf (drawNode v x y)
      ++ match l with
         | Null => []
         | Obj _ _ _ _ =>
             render l (L + 1)%D xs x
             ++ callsOf (connectEdges (mkX x ((xs + x) / 2)%D) yc)
         end
      ++ match r with
         | Null => []
         | Obj _ _ _ _ =>
             render r (L + 1)%D x xe
             ++ callsOf (connectEdges (mkX x ((x + xe) / 2)%D) yc)
         end
  end.

(** Centre and radius of every circle put on the path. *)
Definition circles (cs : list ctx_call) : list (double * double * double) :=
  flat_map (λ c, match c with
                 | arc x y r _ _ _ => [(x, y, r)]
                 | _ => []
                 end) cs.

(** Text and anchor of every label. *)
Definition labels (cs : list ctx_call) : list (jsval * double * double) :=
  flat_map (λ c, match c with
                 | fillText v x y => [(v, x, y)]
                 | _ => []
                 end) cs.

Definition circleOf (p : placement) : double * double * double :=
  (p_x p, p_y p, radius DEFAULT_NODE_CONFIG).

Definition labelOf (p : placement) : jsval * double * double :=
  (p_value p, p_x p, (p_y p + fontSize DEFAULT_NODE_CONFIG / 3)%D).

(** The store after [drawBTree] has set the canvas to the window's size. *)
Definition resized (st : store) : store :=
  with_canvas st (mkCanvas (innerWidth st) (innerHeight st)
                           (calls (canvasEl st))).

(** The interval [drawBTree] starts from, for a tree of height [h] in a
    window of width [w]. *)
Definition initialStart (w : double) (h : Z) : double :=
  (w / 2 - (Math_pow2 h * nodeWidthSpacing DEFAULT_NODE_CONFIG) / 2)%D.
Definition initialEnd (w : double) (h : Z) : double :=
  (w / 2 + (Math_pow2 h * nodeWidthSpacing DEFAULT_NODE_CONFIG) / 2)%D.

(** *** Construction *)

(** One pass through the body of the loop, after [queue.shift()] has
    produced [node]. *)
Definition iteration (newinput : list jsval) (node : ref) (queue : list ref)
    (idx : nat) : M (list ref * nat) :=
  '(queue, idx) ← leftChildBlock newinput node queue idx;
  rightChildBlock newinput node queue idx.

(** [1] for a token that makes a node, [0] for the null sentinel. *)
Definition present (v : jsval) : nat :=
  if decide (v ≠ JSNull) then 1 else 0.

(** Number of tokens that are not the null sentinel. *)
Definition countPresent (toks : list jsval) : nat :=
  length (filter (λ v, v ≠ JSNull) toks).

(** [levelOrder q toks]: with [q] nodes waiting for their children, every
    token of [toks] falls in a child slot of a node made before it. *)
Fixpoint levelOrder (q : nat) (toks : list jsval) : bool :=
  match toks with
  | [] => true
  | [a] => (0 <? q)
  | a :: b :: rest =>
      (0 <? q) && levelOrder (q - 1 + present a + present b) rest
  end.

Definition getChild (left : bool) (n : BTreeNode) : option ref :=
  if left then leftChild n else rightChild n.

Definition setChild (left : bool) (n : BTreeNode) (c : option ref) : BTreeNode :=
  if left then mkBTreeNode (value n) c (rightChild n)
  else mkBTreeNode (value n) (leftChild n) c.

(** The heap after a child block has made a node for [v] and hung it
    under [node], whose record was [n]. *)
Definition attach (left : bool) (node : ref) (n : BTreeNode) (v : jsval)
    (h : list BTreeNode) : list BTreeNode :=
  <[node := setChild left n (Some (length h))]>
    (h ++ [mkBTreeNode v None None])%list.

(** References of a shape, node first. *)
Fixpoint addrs (t : tree) : list ref :=
  match t with
  | Null => []
  | Obj l a _ r => a :: addrs l ++ addrs r
  end.

(** The shape [t] with [sub] hung on the chosen side of the node [a]. *)
Fixpoint graft (left : bool) (a : ref) (sub : tree) (t : tree) : tree :=
  match t with
  | Null => Null
  | Obj l b v r =>
      if decide (b = a) then
        if left then Obj sub b v r else Obj l b v sub
      else Obj (graft left a sub l) b v (graft left a sub r)
  end.

(** Value at the top of a shape, if any. *)
Definition rootValue (t : tree) : option jsval :=
  match t with
  | Null => None
  | Obj _ _ v _ => Some v
  end.

(** The value a token gives to a child: none for the null sentinel and for
    an index past the end of the array. *)
Definition childToken (newinput : list jsval) (i : nat) : option jsval :=
  match newinput !! i with
  | Some v => if decide (v ≠ JSNull) then Some v else None
  | None => None
  end.

(** [childSlot h c tok]: the child slot [c] is empty when [tok] is none, and
    otherwise refers to an object whose value is [tok]. *)
Definition childSlot (h : list BTreeNode) (c : option ref)
    (tok : option jsval) : Prop :=
  match c with
  | Some a => ∃ m, h !! a = Some m ∧ tok = Some (value m)
  | None => tok = None
  end.

(** What a child block returns on a store where [node] has record [n]. *)
Definition blockResult (left : bool) (newinput : list jsval) (node : ref)
    (n : BTreeNode) (queue : list ref) (idx : nat) (st : store)
    : (list ref * nat) * store :=
  if (idx <? length newinput)%nat then
    if decide (arrayAt newinput idx ≠ JSNull) then
      (((queue ++ [length (nodes st)])%list, idx + 1),
       with_nodes st (attach left node n (arrayAt newinput idx) (nodes st)))
    else ((queue, idx + 1), st)
  else ((queue, idx), st).

(** The invariant of the loop of [treeConstructor], for a root allocated at
    [base]: the heap holds the shape [t], whose nodes are exactly the
    references allocated since; the queued nodes are distinct and have no
    child yet; the tokens before [idx] account for the nodes made. *)
Record buildInv (base : nat) (newinput : list jsval) (h : list BTreeNode)
    (queue : list ref) (idx : nat) (t : tree) : Prop := mkBuildInv {
  inv_repr : repr h (Some base) t;
  inv_addrs : addrs t ≡ₚ seq base (length h - base);
  inv_base : base < length h;
  inv_nodup : NoDup queue;
  inv_leaf : ∀ a, a ∈ queue →
             base ≤ a ∧ ∃ v, h !! a = Some (mkBTreeNode v None None);
  inv_idx : 1 ≤ idx ≤ length newinput;
  inv_count : length h + present (arrayAt newinput 0)
              = base + 1 + countPresent (take idx newinput)
}.

(** [preserves P st st']: [st'] differs from [st] only in its heap, which
    has kept every object and its value, and the whole record of the
    objects selected by [P]. *)
Definition preserves (P : ref → Prop) (st st' : store) : Prop :=
  st' = with_nodes st (nodes st')
  ∧ length (nodes st) ≤ length (nodes st')
  ∧ ∀ a m, nodes st !! a = Some m →
           ∃ m', nodes st' !! a = Some m' ∧ value m' = value m
                 ∧ (P a → m' = m).

(** *** A running example *)

Definition sample_input : string := "5,3,8,1,4,null,9".

Definition sample_store : store :=
  match treeConstructor sample_input (empty_store 1280 720) with
  | Some (_, st) => st
  | None => empty_store 1280 720
  end.

Definition sample_left : tree :=
  Obj (Obj Null 3 (JSString "1") Null) 1 (JSString "3")
      (Obj Null 4 (JSString "4") Null).

Definition sample_right : tree :=
  Obj Null 2 (JSString "8") (Obj Null 5 (JSString "9") Null).

Definition sample_tree : tree :=
  Obj sample_left 0 (JSString "5") sample_right.

(** ** The rest of the page script *)

(** A call on the 2D context as the page makes them: those of the drawing
    routines, and [clearRect]. *)
Inductive surface_call : Type :=
| on_context (c : ctx_call)
| clearRect (x y w h : double).

(** The page: the store, the text of the text area, the global [prevInput],
    and the calls made on the context up to and including the last
    [clearRect]; the calls made since are the log of the canvas in the
    store.  The elements the script selects are taken to exist. *)
Record page : Type := mkPage {
  doc : store;
  textarea_value : string;
  prevInput : string;
  earlier : list surface_call
}.

(** Every call made on the context so far, in order. *)
Definition contextLog (p : page) : list surface_call :=
  earlier p ++ map on_context (calls (canvasEl (doc p))).

Definition clearCanvas (p : page) : page :=
  let canvas := canvasEl (doc p) in
  mkPage
    (with_canvas (doc p) (mkCanvas (width canvas) (height canvas) []))
    (textarea_value p) (prevInput p)
    (contextLog p ++ [clearRect 0 0 (width canvas) (height canvas)]).

Definition init (fuel : nat) (v : string) (p : page) : option page :=
  let p := mkPage (doc p) (textarea_value p) v (earlier p) in
  let p := clearCanvas p in
  match treeConstructor v (doc p) with
  | Some (root, st) =>
      match drawBTree fuel root st with
      | Some (_, st) =>
          Some (mkPage st (textarea_value p) (prevInput p) (earlier p))
      | None => None
      end
  | None => None
  end.

(** The listener of the apply button. *)
Definition onApplyClick (fuel : nat) (p : page) : option page :=
  if (String.length (textarea_value p) =? 0)%nat then Some p
  else init fuel (textarea_value p) p.

(** The listener of the clear button. *)
Definition onClearClick (p : page) : page :=
  clearCanvas (mkPage (doc p) "" (prevInput p) (earlier p)).

(** The listener of the window's resize event. *)
Definition onResize (fuel : nat) (p : page) : option page :=
  if String.eqb (textarea_value p) "" then Some p
  else init fuel (prevInput p) p.

(** What the user and the browser do between events: editing the text
    area, and giving the window a new size. *)
Definition typeText (s : string) (p : page) : page :=
  mkPage (doc p) s (prevInput p) (earlier p).

Definition resizeWindow (w h : double) (p : page) : page :=
  mkPage (mkStore (nodes (doc p)) (canvasEl (doc p)) w h)
         (textarea_value p) (prevInput p) (earlier p).

(** The page when the script has run: no object, a blank canvas, an empty
    text area and [prevInput = ""]. *)
Definition initial_page (w h : double) : page :=
  mkPage (empty_store w h) "" "" [].

(** ** Further notions for the properties below *)

Fixpoint countChar (c : ascii) (s : string) : nat :=
  match s with
  | EmptyString => 0
  | String d rest => (if Ascii.eqb d c then 1 else 0) + countChar c rest
  end.

(** Values of the nodes of a shape, node first. *)
Fixpoint preorderValues (t : tree) : list jsval :=
  match t with
  | Null => []
  | Obj l _ v r => v :: preorderValues l ++ preorderValues r
  end.

(** Start point of every [moveTo] and end point of every curve. *)
Definition moves (cs : list ctx_call) : list (double * double) :=
  flat_map (λ c, match c with
                 | moveTo x y => [(x, y)]
                 | _ => []
                 end) cs.

Definition curveEnds (cs : list ctx_call) : list (double * double) :=
  flat_map (λ c, match c with
                 | bezierCurveTo _ _ _ _ x y => [(x, y)]
                 | _ => []
                 end) cs.

(** The parent-child pairs of a layout, in the order the pass draws their
    edges: those of the left subtree, the edge to the left child, those of
    the right subtree, the edge to the right child. *)
Fixpoint links (t : tree) (L xs xe : double) : list (placement * placement) :=
  match t with
  | Null => []
  | Obj l a v r =>
      let x := ((xs + xe) / 2)%D in
      let me := mkPlacement a v L xs xe x
                  (L * nodeHeightSpacing DEFAULT_NODE_CONFIG)%D in
      match layout l (L + 1)%D xs x with
      | child :: _ => links l (L + 1)%D xs x ++ [(me, child)]
      | [] => []
      end
      ++ match layout r (L + 1)%D x xe with
         | child :: _ => links r (L + 1)%D x xe ++ [(me, child)]
         | [] => []
         end
  end.

(** [cyclic h C]: every object of [C] has a child in [C]. *)
Definition cyclic (h : list BTreeNode) (C : ref → Prop) : Prop :=
  ∀ a, C a →
       ∃ n c, h !! a = Some n
              ∧ (leftChild n = Some c ∨ rightChild n = Some c) ∧ C c.

(** [filledUpTo base newinput h idx]: in the heap [h], the object made
    [k]-th after the root at [base] has its left slot filled from token
    [2k+1] and its right slot from token [2k+2], as far as these tokens come
    before [idx]; the slots of later tokens are empty. *)
Definition filledUpTo (base : nat) (newinput : list jsval)
    (h : list BTreeNode) (idx : nat) : Prop :=
  ∀ k n, h !! (base + k) = Some n →
         childSlot h (leftChild n)
           (if (2 * k + 1 <? idx)%nat then childToken newinput (2 * k + 1)
            else None)
         ∧ childSlot h (rightChild n)
             (if (2 * k + 2 <? idx)%nat then childToken newinput (2 * k + 2)
              else None).

(** A record and a shape moved [d] places up the heap. *)
Definition shiftNode (d : nat) (n : BTreeNode) : BTreeNode :=
  mkBTreeNode (value n) ((λ c, d + c) <$> leftChild n)
              ((λ c, d + c) <$> rightChild n).

Fixpoint shiftTree (d : nat) (t : tree) : tree :=
  match t with
  | Null => Null
  | Obj l a v r => Obj (shiftTree d l) (d + a) v (shiftTree d r)
  end.

(** ** The page as a system of events *)

(** What can happen to the page once the script has run: the user edits
    the text area, clicks one of the two buttons, or the window is given a
    new size. *)
Inductive event : Type :=
| edit (s : string)
| applyClick
| clearClick
| windowResize (w h : double).

Definition handle (fuel : nat) (e : event) (p : page) : option page :=
  match e with
  | edit s => Some (typeText s p)
  | applyClick => onApplyClick fuel p
  | clearClick => Some (onClearClick p)
  | windowResize w h => onResize fuel (resizeWindow w h p)
  end.

Fixpoint handleAll (fuel : nat) (es : list event) (p : page) : option page :=
  match es with
  | [] => Some p
  | e :: es =>
      match handle fuel e p with
      | Some p => handleAll fuel es p
      | None => None
      end
  end.

(** The calls that draw the tree of [input] in a window [w] wide. *)
Definition drawingOf (input : string) (w : double) : option (list ctx_call) :=
  match builtTree input with
  | Some t =>
      Some (render t half (initialStart w (treeHeight t))
                   (initialEnd w (treeHeight t)))
  | None => None
  end.

(** What is on the canvas: the calls made since the last [clearRect]. *)
Definition shown (p : page) : list ctx_call := calls (canvasEl (doc p)).

(** The [clearRect] call of [clearCanvas] on a page. *)
Definition clearing (p : page) : surface_call :=
  clearRect 0 0 (width (canvasEl (doc p))) (height (canvasEl (doc p))).

(** The texts an event may hand to [treeConstructor] have at most [fuel]
    tokens. *)
Definition withinFuel (fuel : nat) (e : event) : Prop :=
  match e with
  | edit s => length (parseInput s) ≤ fuel
  | _ => True
  end.

Definition isEdit (e : event) : bool :=
  match e with
  | edit _ => true
  | _ => false
  end.

(** The canvas shows nothing, or the tree of [prevInput] for the width the
    canvas has. *)
Definition consistent (p : page) : Prop :=
  shown p = []
  ∨ drawingOf (prevInput p) (width (canvasEl (doc p))) = Some (shown p).

(** A token as it is typed in the text area, and the tokens that can be
    typed: [null], or a text without comma or space other than [null]. *)
Definition written (v : jsval) : string :=
  match v with
  | JSString s => s
  | JSNull => "null"
  | JSUndefined => "undefined"
  end.

Definition typable (v : jsval) : bool :=
  match v with
  | JSString s =>
      negb (occurs "," s) && negb (occurs " " s) && negb (String.eqb s "null")
  | JSNull => true
  | JSUndefined => false
  end.

(** ** The numbers doubles hold *)

(** [holds x z e]: the double [x] is finite, in normal form, and its value
    is exactly [z * 2^e]. *)
Definition holds (x : double) (z e : Z) : Prop :=
  match x with
  | S754_zero s => s = false ∧ z = 0%Z
  | S754_finite s q i =>
      z ≠ 0%Z ∧ s = (z <? 0)%Z ∧ Zpos (digits2_pos q) = 53%Z
      ∧ (-1074 <= i <= 971)%Z
      ∧ ∃ a b : Z, (0 <= a)%Z ∧ (0 <= b)%Z
                   ∧ (Z.abs z * 2 ^ a = Zpos q * 2 ^ b)%Z
                   ∧ i = (e + b - a)%Z
  | _ => False
  end.

(** The number a double holds: none for the infinities and NaN. *)
Definition number (x : double) : option Q :=
  match x with
  | S754_zero _ => Some 0%Q
  | S754_finite s m e =>
      Some (inject_Z (if s then Zneg m else Zpos m) * 2 ^ e)%Q
  | _ => None
  end.

(** [exactly x v]: the double [x] holds the number [v]. *)
Definition exactly (x : double) (v : Q) : Prop :=
  match number x with
  | Some a => (a == v)%Q
  | None => False
  end.

(** Order between the numbers two doubles hold. *)
Definition lessThan (x y : double) : Prop :=
  match number x, number y with
  | Some a, Some b => (a < b)%Q
  | _, _ => False
  end.

(** [atLeast d x y]: the number [y] holds is at least [d] above the one [x]
    holds. *)
Definition atLeast (d : Q) (x y : double) : Prop :=
  match number x, number y with
  | Some a, Some b => (a + d <= b)%Q
  | _, _ => False
  end.

(** Two placements whose circles cannot touch: the centres are a node
    spacing apart horizontally or a level apart vertically. *)
Definition apart (p q : placement) : Prop :=
  atLeast 50 (p_x p) (p_x q) ∨ atLeast 50 (p_x q) (p_x p)
  ∨ atLeast 90 (p_y p) (p_y q) ∨ atLeast 90 (p_y q) (p_y p).

(** [onGrid e D A W xs xe]: the ends of the interval are the whole
    multiples [A] and [A + W * 2^D] of [2^e], both below [2^53] in size:
    bisecting the interval [D] times over meets nothing but doubles. *)
Definition onGrid (e : Z) (D : nat) (A W : Z) (xs xe : double) : Prop :=
  (0 < W)%Z
  ∧ (Z.abs A < 2 ^ 53)%Z ∧ (Z.abs (A + W * 2 ^ Z.of_nat D) < 2 ^ 53)%Z
  ∧ (-1000 <= e <= 900)%Z
  ∧ holds xs A e ∧ holds xe (A + W * 2 ^ Z.of_nat D) e.

(** A placement on the grid: its interval is [[a, a + W * 2^d]] in units of
    [2^e], inside [[A, A + W * 2^D]], and its x is the middle. *)
Definition placedX (e A W : Z) (D : nat) (p : placement) : Prop :=
  ∃ a d : Z,
    (1 <= d <= Z.of_nat D)%Z ∧ (A <= a)%Z
    ∧ (a + W * 2 ^ d <= A + W * 2 ^ Z.of_nat D)%Z
    ∧ holds (p_xStart p) a e ∧ holds (p_xEnd p) (a + W * 2 ^ d) e
    ∧ holds (p_x p) (a + W * 2 ^ (d - 1)) e.

(** A placement at level [l + 1/2], for some [l] from [n] on and below
    [n + D], and at the height [(l + 1/2) * 90]. *)
Definition placedY (n : Z) (D : nat) (p : placement) : Prop :=
  ∃ l : Z,
    (n <= l < n + Z.of_nat D)%Z
    ∧ holds (p_level p) (2 * l + 1) (-1)
    ∧ holds (p_y p) ((2 * l + 1) * 90) (-1).

(** [roomFor w g N h]: the window is [N * 2^g] pixels wide for a whole
    number [N] and [g] among 0, 1, 2, and a tree of height [h] centred in
    it stays within [2^53] units of [2^(g-1)] pixels. *)
Definition roomFor (w : double) (g N h : Z) : Prop :=
  (0 <= g <= 2)%Z ∧ (0 <= N)%Z ∧ (1 <= h)%Z
  ∧ holds w (N * 2 ^ g) 0
  ∧ (N + 25 * 2 ^ (h - g + 1) < 2 ^ 53)%Z.

(** *** Deep trees *)

(** The text of a tree that grows to the left: the root, [n] times a left
    child and no right child, and the tokens [last] for the deepest node. *)
Fixpoint leftSpineTokens (n : nat) (last : string) : string :=
  match n with
  | O => last
  | S n => (",1,null" ++ leftSpineTokens n last)%string
  end.

Definition leftSpine (n : nat) (last : string) : string :=
  ("1" ++ leftSpineTokens n last)%string.

(** The subtree, level and interval the recursion reaches from a tree by
    going [n] times to the left child. *)
Fixpoint descend (n : nat) (t : tree) (L xs xe : double)
    : tree * double * double * double :=
  match n, t with
  | S n, Obj l _ _ _ => descend n l (L + 1)%D xs ((xs + xe) / 2)%D
  | _, _ => (t, L, xs, xe)
  end.

(** * Parsing *)

Lemma append_cons (a : ascii) (s t : string) :
  (String a s ++ t)%string = String a (s ++ t)%string.
Proof. reflexivity. Qed.

Lemma append_empty_r (s : string) : (s ++ "")%string = s.
Proof.
  induction s as [|a s IH]; [done|]. by rewrite append_cons, IH.
Qed.

Lemma append_snoc (s t : string) (c : ascii) :
  ((s ++ String c "") ++ t)%string = (s ++ String c t)%string.
Proof.
  induction s as [|a s IH]; [done|]. by rewrite !append_cons, IH.
Qed.

Lemma stripSpaces_acc (acc s : string) :
  stripSpaces acc s = (acc ++ filterString notSpace s)%string.
Proof.
  revert acc. induction s as [|c rest IH]; intros acc; simpl.
  - by rewrite append_empty_r.
  - unfold notSpace. destruct (Ascii.eqb c " "); simpl; rewrite IH; [done|].
    apply append_snoc.
Qed.

Lemma stripSpaces_filter (s : string) :
  stripSpaces "" s = filterString notSpace s.
Proof. by rewrite stripSpaces_acc. Qed.

Lemma split_nonempty (sep : ascii) (s : string) : split sep s ≠ [].
Proof.
  induction s as [|c rest IH]; simpl; [done|].
  destruct (Ascii.eqb c sep); [done|]. by destruct (split sep rest).
Qed.

Lemma concat_cons2 (sep x y : string) (l : list string) :
  String.concat sep (x :: y :: l)
  = (x ++ sep ++ String.concat sep (y :: l))%string.
Proof. reflexivity. Qed.

(** Joining the pieces with the separator gives the string back. *)
Lemma concat_split (sep : ascii) (s : string) :
  String.concat (String sep "") (split sep s) = s.
Proof.
  induction s as [|c rest IH]; [done|].
  pose proof (split_nonempty sep rest) as Hnil.
  cbn [split].
  destruct (split sep rest) as [|piece pieces] eqn:E; [done|].
  destruct (Ascii.eqb_spec c sep) as [->|Hne].
  - rewrite concat_cons2, IH. reflexivity.
  - destruct pieces as [|piece' pieces].
    + cbn in IH |- *. by rewrite IH.
    + rewrite concat_cons2 in IH |- *. by rewrite append_cons, IH.
Qed.

(** No piece contains the separator. *)
Lemma split_no_sep (sep : ascii) (s : string) :
  Forall (λ piece, occurs sep piece = false) (split sep s).
Proof.
  induction s as [|c rest IH]; simpl.
  - by repeat constructor.
  - destruct (Ascii.eqb c sep) eqn:Ec.
    + by constructor.
    + destruct (split sep rest) as [|piece pieces].
      * repeat constructor. simpl. by rewrite Ec.
      * inversion IH; subst. constructor; [|done]. simpl. by rewrite Ec.
Qed.

Lemma filterString_notSpace_no_space (s : string) :
  occurs " " (filterString notSpace s) = false.
Proof.
  induction s as [|c rest IH]; simpl; [done|].
  unfold notSpace at 1. destruct (Ascii.eqb c " ") eqn:Ec; simpl; [done|].
  by rewrite Ec.
Qed.

Lemma toToken_null (e : string) : toToken e = JSNull ↔ e = "null".
Proof.
  unfold toToken. destruct (String.eqb_spec e "null"); split; congruence.
Qed.

Lemma toToken_other (e : string) : e ≠ "null" → toToken e = JSString e.
Proof.
  unfold toToken. by destruct (String.eqb_spec e "null").
Qed.

(** * Running monadic code *)

Lemma run_bind {A B : Type} (m : M A) (f : A → M B) (st st' : store) (a : A) :
  m st = Some (a, st') → (m ≫= f) st = f a st'.
Proof. intros H. unfold mbind, M_bind. by rewrite H. Qed.

(** One step of a run: the first computation of a bind is known. *)
Tactic Notation "mstep" uconstr(H) := rewrite (run_bind _ _ _ _ _ H).

Lemma run_bind_inv {A B : Type} (m : M A) (f : A → M B) (st st2 : store)
    (b : B) :
  (m ≫= f) st = Some (b, st2) →
  ∃ a st1, m st = Some (a, st1) ∧ f a st1 = Some (b, st2).
Proof.
  unfold mbind, M_bind. destruct (m st) as [[a st1]|]; [|done]. eauto.
Qed.

Lemma run_get_value (this : ref) (st : store) (n : BTreeNode) :
  nodes st !! this = Some n → get_value this st = Some (value n, st).
Proof. intros H. unfold get_value, readNode, mbind, M_bind. by rewrite H. Qed.

Lemma run_get_leftChild (this : ref) (st : store) (n : BTreeNode) :
  nodes st !! this = Some n → get_leftChild this st = Some (leftChild n, st).
Proof. intros H. unfold get_leftChild, readNode, mbind, M_bind. by rewrite H. Qed.

Lemma run_get_rightChild (this : ref) (st : store) (n : BTreeNode) :
  nodes st !! this = Some n → get_rightChild this st = Some (rightChild n, st).
Proof. intros H. unfold get_rightChild, readNode, mbind, M_bind. by rewrite H. Qed.

(** * Shapes in the heap *)

Lemma treeHeight_depth (t : tree) : treeHeight t = Z.of_nat (depth t).
Proof. induction t; simpl; lia. Qed.

Lemma treeHeight_obj_pos (l r : tree) (a : ref) (v : jsval) :
  (1 ≤ treeHeight (Obj l a v r))%Z.
Proof. rewrite treeHeight_depth. simpl. lia. Qed.

Lemma repr_some_inv (h : list BTreeNode) (a : ref) (t : tree) :
  repr h (Some a) t →
  ∃ n l r, t = Obj l a (value n) r ∧ h !! a = Some n
           ∧ repr h (leftChild n) l ∧ repr h (rightChild n) r.
Proof. inversion 1; subst. eauto 10. Qed.

Lemma repr_none_inv (h : list BTreeNode) (t : tree) :
  repr h None t → t = Null.
Proof. by inversion 1. Qed.

(** [reify] computes the shape when there is one within the fuel. *)
Lemma reify_repr (fuel : nat) (h : list BTreeNode) (o : option ref) (t : tree) :
  reify fuel h o = Some t → repr h o t.
Proof.
  revert o t. induction fuel as [|fuel IH]; intros [a|] t; simpl;
    try (intros [= <-]; constructor); try done.
  destruct (h !! a) as [n|] eqn:Hn; simpl; [|done].
  destruct (reify fuel h (leftChild n)) as [l|] eqn:Hl; simpl; [|done].
  destruct (reify fuel h (rightChild n)) as [r|] eqn:Hr; simpl; [|done].
  intros [= <-]. constructor; auto.
Qed.

Lemma repr_reify (fuel : nat) (h : list BTreeNode) (o : option ref) (t : tree) :
  repr h o t → depth t ≤ fuel → reify fuel h o = Some t.
Proof.
  intros Hr. revert fuel. induction Hr as [|a n l r Hn _ IHl _ IHr]; intros fuel Hf.
  - by destruct fuel.
  - simpl in Hf. destruct fuel as [|fuel]; [lia|]. simpl.
    rewrite Hn. simpl. rewrite IHl by lia. simpl. rewrite IHr by lia. done.
Qed.

Lemma repr_functional (h : list BTreeNode) (o : option ref) (t t' : tree) :
  repr h o t → repr h o t' → t = t'.
Proof.
  intros Hr. revert t'. induction Hr as [|a n l r Hn _ IHl _ IHr]; intros t' Hr'.
  - by inversion Hr'.
  - inversion Hr' as [|a' n' l' r' Hn' Hl' Hr'']; subst.
    rewrite Hn in Hn'. injection Hn' as <-. f_equal; auto.
Qed.

(** * Height *)

Lemma getBTreeHeight_run (st : store) (t : tree) :
  ∀ (this : ref) (fuel : nat),
    repr (nodes st) (Some this) t → depth t ≤ fuel →
    getBTreeHeight fuel this st = Some (treeHeight t, st).
Proof.
  induction t as [|l IHl a v r IHr]; intros this fuel Hrep Hfuel.
  - inversion Hrep.
  - apply repr_some_inv in Hrep as (n & l' & r' & Heq & Hn & Hl & Hr).
    injection Heq as El Ea Ev Er. subst l' r' a v.
    simpl in Hfuel. destruct fuel as [|fuel]; [lia|].
    cbn [getBTreeHeight].
    mstep (run_get_leftChild _ _ _ Hn).
    assert (Hleft :
      (match leftChild n with
       | Some c => h ← getBTreeHeight fuel c; mret (Some h)
       | None => mret None
       end) st = Some (match leftChild n with
                       | Some _ => Some (treeHeight l)
                       | None => None
                       end, st)).
    { destruct (leftChild n) as [c|]; [|done].
      by mstep (IHl c fuel Hl ltac:(lia)). }
    mstep Hleft.
    mstep (run_get_rightChild _ _ _ Hn).
    assert (Hright :
      (match rightChild n with
       | Some c => h ← getBTreeHeight fuel c; mret (Some h)
       | None => mret None
       end) st = Some (match rightChild n with
                       | Some _ => Some (treeHeight r)
                       | None => None
                       end, st)).
    { destruct (rightChild n) as [c|]; [|done].
      by mstep (IHr c fuel Hr ltac:(lia)). }
    mstep Hright.
    unfold mret, M_ret. do 2 f_equal.
    assert (El : orZero (match leftChild n with
                         | Some _ => Some (treeHeight l) | None => None end)
                 = treeHeight l).
    { destruct (leftChild n) as [n0|].
      - apply repr_some_inv in Hl as (nc & lc & rc & -> & _).
        pose proof (treeHeight_obj_pos lc rc n0 (value nc)) as Hp.
        unfold orZero.
        destruct (Z.eqb_spec (treeHeight (Obj lc n0 (value nc) rc)) 0); lia.
      - apply repr_none_inv in Hl as ->. done. }
    assert (Er : orZero (match rightChild n with
                         | Some _ => Some (treeHeight r) | None => None end)
                 = treeHeight r).
    { destruct (rightChild n) as [n0|].
      - apply repr_some_inv in Hr as (nc & lc & rc & -> & _).
        pose proof (treeHeight_obj_pos lc rc n0 (value nc)) as Hp.
        unfold orZero.
        destruct (Z.eqb_spec (treeHeight (Obj lc n0 (value nc) rc)) 0); lia.
      - apply repr_none_inv in Hr as ->. done. }
    rewrite El, Er. simpl treeHeight. lia.
Qed.

(** * Layout *)

Lemma emit_emit (st : store) (cs cs' : list ctx_call) :
  emit (emit st cs) cs' = emit st (cs ++ cs').
Proof. unfold emit, with_canvas; simpl. by rewrite app_assoc. Qed.

Lemma emit_nil (st : store) : emit st [] = st.
Proof.
  destruct st as [h [w hh cs] iw ih]. unfold emit, with_canvas; simpl.
  by rewrite app_nil_r.
Qed.

Lemma nodes_emit (st : store) (cs : list ctx_call) : nodes (emit st cs) = nodes st.
Proof. reflexivity. Qed.

Lemma ctx_run (c : ctx_call) (st : store) : ctx c st = Some (tt, emit st [c]).
Proof. reflexivity. Qed.

(** [emits m cs]: on every store, [m] succeeds and appends [cs] to the log. *)
Lemma emits_bind (m : M unit) (k : unit → M unit) (cs cs' : list ctx_call) :
  (∀ st, m st = Some (tt, emit st cs)) →
  (∀ st, k tt st = Some (tt, emit st cs')) →
  ∀ st, (m ≫= k) st = Some (tt, emit st (cs ++ cs')).
Proof.
  intros Hm Hk st. mstep (Hm st). rewrite Hk.
  by rewrite emit_emit.
Qed.

Lemma emits_cons (c : ctx_call) (k : unit → M unit) (cs : list ctx_call) :
  (∀ st, k tt st = Some (tt, emit st cs)) →
  ∀ st, (ctx c ≫= k) st = Some (tt, emit st (c :: cs)).
Proof. intros Hk. apply (emits_bind _ _ [c]); [apply ctx_run | done]. Qed.

Lemma callsOf_emits (m : M unit) (cs : list ctx_call) :
  (∀ st, m st = Some (tt, emit st cs)) → callsOf m = cs.
Proof. intros Hm. unfold callsOf. by rewrite Hm. Qed.

Lemma drawNode_emits (v : jsval) (x y : double) (st : store) :
  drawNode v x y st
  = Some (tt, emit st
      [beginPath;
       arc x y (radius DEFAULT_NODE_CONFIG) 0 (2 * Math_PI)%D false;
       set_fillStyle "#000000"; fill;
       beginPath;
       arc x y (radius DEFAULT_NODE_CONFIG) 0 (2 * Math_PI)%D false;
       set_lineWidth 3; set_strokeStyle "#b994f6"; stroke;
       set_font (fontSize DEFAULT_NODE_CONFIG) "serif";
       set_fillStyle "#ffffff"; set_textAlign "center";
       fillText v x (y + fontSize DEFAULT_NODE_CONFIG / 3)%D]).
Proof.
  revert st. unfold drawNode.
  do 12 apply emits_cons. apply ctx_run.
Qed.

Lemma connectEdges_emits (xc : xCordinates) (yc : yCordinates) (st : store) :
  connectEdges xc yc st
  = Some (tt, emit st
      [beginPath; set_strokeStyle "#ffffff"; set_lineWidth 1;
       moveTo (xStart xc) (yStart yc);
       bezierCurveTo ((xStart xc + xEnd xc) / 2)%D
                     ((yStart yc + yEnd yc) / 2)%D
                     (xEnd xc) ((yStart yc + yEnd yc) / 2)%D
                     (xEnd xc) (yEnd yc);
       stroke]).
Proof.
  revert st. unfold connectEdges. cbn [fst snd].
  do 5 apply emits_cons. apply ctx_run.
Qed.

Lemma drawNode_run (v : jsval) (x y : double) (st : store) :
  drawNode v x y st = Some (tt, emit st (callsOf (drawNode v x y))).
Proof.
  rewrite (callsOf_emits _ _ (drawNode_emits v x y)). apply drawNode_emits.
Qed.

Lemma connectEdges_run (xc : xCordinates) (yc : yCordinates) (st : store) :
  connectEdges xc yc st = Some (tt, emit st (callsOf (connectEdges xc yc))).
Proof.
  rewrite (callsOf_emits _ _ (connectEdges_emits xc yc)).
  apply connectEdges_emits.
Qed.

(** The layout pass issues exactly the calls of [render] and touches nothing
    else in the store. *)
Lemma recursivelyDrawNodes_run (t : tree) :
  ∀ (st : store) (root : ref) (fuel : nat) (L xs xe : double),
    repr (nodes st) (Some root) t → depth t ≤ fuel →
    recursivelyDrawNodes fuel root L (mkX xs xe) st
    = Some (tt, emit st (render t L xs xe)).
Proof.
  induction t as [|l IHl a v r IHr]; intros st root fuel L xs xe Hrep Hfuel.
  - inversion Hrep.
  - apply repr_some_inv in Hrep as (n & l' & r' & Heq & Hn & Hl & Hr).
    injection Heq as El Ea Ev Er. subst l' r' a v.
    simpl in Hfuel. destruct fuel as [|fuel]; [lia|].
    cbn [recursivelyDrawNodes render xStart xEnd].
    mstep (run_get_value _ _ _ Hn).
    mstep (drawNode_run _ _ _ _).
    mstep (run_get_leftChild root (emit st _) n Hn).
    set (cs0 := callsOf (drawNode _ _ _)).
    set (csl := match l with Null => [] | Obj _ _ _ _ => _ end).
    assert (Hleft :
      (match leftChild n with
       | Some c =>
           _ ← recursivelyDrawNodes fuel c (L + 1)%D
                 (mkX xs ((xs + xe) / 2)%D);
           connectEdges
             (mkX ((xs + xe) / 2)%D ((xs + (xs + xe) / 2) / 2)%D)
             (mkY (L * nodeHeightSpacing DEFAULT_NODE_CONFIG
                   + radius DEFAULT_NODE_CONFIG)%D
                  ((L + 1) * nodeHeightSpacing DEFAULT_NODE_CONFIG
                   - radius DEFAULT_NODE_CONFIG)%D)
       | None => mret tt
       end) (emit st cs0) = Some (tt, emit st (cs0 ++ csl))).
    { destruct (leftChild n) as [c|].
      - pose proof Hl as Hl'.
        apply repr_some_inv in Hl' as (nl & ll & lr & -> & _).
        mstep (IHl (emit st cs0) c fuel _ _ _ Hl ltac:(lia)).
        rewrite connectEdges_run, !emit_emit. subst csl. done.
      - apply repr_none_inv in Hl as ->. subst csl.
        by rewrite app_nil_r. }
    mstep Hleft.
    mstep (run_get_rightChild root (emit st _) n Hn).
    destruct (rightChild n) as [c|].
    + pose proof Hr as Hr'.
      apply repr_some_inv in Hr' as (nr & rl & rr & -> & _).
      mstep (IHr (emit st (cs0 ++ csl)) c fuel _ _ _ Hr ltac:(lia)).
      rewrite connectEdges_run, !emit_emit. by rewrite <- !app_assoc.
    + apply repr_none_inv in Hr as ->.
      by rewrite app_nil_r.
Qed.

Lemma circles_app (cs cs' : list ctx_call) :
  circles (cs ++ cs') = circles cs ++ circles cs'.
Proof. apply flat_map_app. Qed.

Lemma labels_app (cs cs' : list ctx_call) :
  labels (cs ++ cs') = labels cs ++ labels cs'.
Proof. apply flat_map_app. Qed.

Lemma circles_render (t : tree) :
  ∀ L xs xe : double,
    circles (render t L xs xe)
    = flat_map (λ p, [circleOf p; circleOf p]) (layout t L xs xe).
Proof.
  induction t as [|l IHl a v r IHr]; intros L xs xe; [done|].
  cbn [render layout flat_map]. rewrite !circles_app, flat_map_app.
  rewrite <- IHl, <- IHr.
  change (circles (callsOf (drawNode v ((xs + xe) / 2)
                     (L * nodeHeightSpacing DEFAULT_NODE_CONFIG))))
    with [circleOf (mkPlacement a v L xs xe ((xs + xe) / 2)
                      (L * nodeHeightSpacing DEFAULT_NODE_CONFIG));
          circleOf (mkPlacement a v L xs xe ((xs + xe) / 2)
                      (L * nodeHeightSpacing DEFAULT_NODE_CONFIG))].
  cbn [app]. do 2 f_equal. f_equal.
  - destruct l; [done|]. rewrite circles_app. apply app_nil_r.
  - destruct r; [done|]. rewrite circles_app. apply app_nil_r.
Qed.

Lemma labels_render (t : tree) :
  ∀ L xs xe : double,
    labels (render t L xs xe) = map labelOf (layout t L xs xe).
Proof.
  induction t as [|l IHl a v r IHr]; intros L xs xe; [done|].
  cbn [render layout map]. rewrite !labels_app, map_app.
  rewrite <- IHl, <- IHr.
  change (labels (callsOf (drawNode v ((xs + xe) / 2)
                    (L * nodeHeightSpacing DEFAULT_NODE_CONFIG))))
    with [labelOf (mkPlacement a v L xs xe ((xs + xe) / 2)
                     (L * nodeHeightSpacing DEFAULT_NODE_CONFIG))].
  cbn [app]. f_equal. f_equal.
  - destruct l; [done|]. rewrite labels_app. apply app_nil_r.
  - destruct r; [done|]. rewrite labels_app. apply app_nil_r.
Qed.

Lemma reaches_trans (t1 t2 t3 : tree) (L1 a1 b1 L2 a2 b2 L3 a3 b3 : double) :
  reaches t1 L1 a1 b1 t2 L2 a2 b2 → reaches t2 L2 a2 b2 t3 L3 a3 b3 →
  reaches t1 L1 a1 b1 t3 L3 a3 b3.
Proof.
  induction 1; intros H23; [done| |].
  - apply reaches_left; auto.
  - apply reaches_right; auto.
Qed.

(** The placements of a reached subtree are among those of the whole. *)
Lemma reaches_layout (t t' : tree) (L xs xe L' xs' xe' : double) (p : placement) :
  reaches t L xs xe t' L' xs' xe' →
  p ∈ layout t' L' xs' xe' → p ∈ layout t L xs xe.
Proof.
  induction 1 as [| ? ? ? ? ? ? ? ? ? ? ? _ IH | ? ? ? ? ? ? ? ? ? ? ? _ IH];
    intros Hin; [done| |]; cbn [layout];
    apply elem_of_cons; right; apply elem_of_app; [left|right]; auto.
Qed.

Lemma getRequiredHeightWidth_run (st : store) (root : ref) (t : tree)
    (fuel : nat) :
  repr (nodes st) (Some root) t → depth t ≤ fuel →
  getRequiredHeightWidth fuel root st
  = Some ({| canvasWidth :=
               (Math_pow2 (treeHeight t)
                * nodeWidthSpacing DEFAULT_NODE_CONFIG)%D;
             canvasHeight :=
               (ofZ (treeHeight t)
                * nodeHeightSpacing DEFAULT_NODE_CONFIG)%D |}, st).
Proof.
  intros Hrep Hfuel. unfold getRequiredHeightWidth.
  by mstep (getBTreeHeight_run st t root fuel Hrep Hfuel).
Qed.

Lemma drawBTree_run (st : store) (rootEl : ref) (t : tree) (fuel : nat) :
  repr (nodes st) (Some rootEl) t → depth t ≤ fuel →
  drawBTree fuel rootEl st
  = Some (tt, emit (resized st)
                (render t half (initialStart (innerWidth st) (treeHeight t))
                        (initialEnd (innerWidth st) (treeHeight t)))).
Proof.
  intros Hrep Hfuel. unfold drawBTree.
  rewrite (run_bind window_innerWidth _ st st (innerWidth st) eq_refl).
  rewrite (run_bind window_innerHeight _ st st (innerHeight st) eq_refl).
  set (st1 := with_canvas st (mkCanvas (innerWidth st) (height (canvasEl st))
                                       (calls (canvasEl st)))).
  rewrite (run_bind (set_width (innerWidth st)) _ st st1 tt eq_refl).
  rewrite (run_bind (set_height (innerHeight st)) _ st1 (resized st) tt
             eq_refl).
  mstep (getRequiredHeightWidth_run (resized st) rootEl t fuel Hrep Hfuel).
  cbn [canvasWidth].
  by rewrite (recursivelyDrawNodes_run t (resized st) rootEl fuel _ _ _
                Hrep Hfuel).
Qed.

(** Whatever the heap, a layout pass that returns has not written to it. *)
Lemma recursivelyDrawNodes_frame (fuel : nat) :
  ∀ (root : ref) (L : double) (hc : xCordinates) (st st' : store),
    recursivelyDrawNodes fuel root L hc st = Some (tt, st') →
    nodes st' = nodes st.
Proof.
  induction fuel as [|fuel IH]; intros root L hc st st' Hrun; [done|].
  cbn [recursivelyDrawNodes] in Hrun.
  apply run_bind_inv in Hrun as (v & s1 & Hv & Hrun).
  apply run_bind_inv in Hrun as ([] & s2 & Hd & Hrun).
  apply run_bind_inv in Hrun as (l & s3 & Hl & Hrun).
  apply run_bind_inv in Hrun as ([] & s4 & Hleft & Hrun).
  apply run_bind_inv in Hrun as (r & s5 & Hr & Hrun).
  assert (nodes s1 = nodes st) as E1.
  { unfold get_value, readNode, mbind, M_bind, mret, M_ret in Hv.
    destruct (nodes st !! root); [|done]. by injection Hv as _ <-. }
  assert (nodes s2 = nodes s1) as E2.
  { rewrite drawNode_run in Hd. by injection Hd as <-. }
  assert (nodes s3 = nodes s2) as E3.
  { unfold get_leftChild, readNode, mbind, M_bind, mret, M_ret in Hl.
    destruct (nodes s2 !! root); [|done]. by injection Hl as _ <-. }
  assert (nodes s4 = nodes s3) as E4.
  { destruct l as [c|].
    - apply run_bind_inv in Hleft as ([] & s & Hrec & Hc).
      rewrite connectEdges_run in Hc. injection Hc as <-.
      rewrite nodes_emit. eauto.
    - by injection Hleft as <-. }
  assert (nodes s5 = nodes s4) as E5.
  { unfold get_rightChild, readNode, mbind, M_bind, mret, M_ret in Hr.
    destruct (nodes s4 !! root); [|done]. by injection Hr as _ <-. }
  assert (nodes st' = nodes s5) as E6.
  { destruct r as [c|].
    - apply run_bind_inv in Hrun as ([] & s & Hrec & Hc).
      rewrite connectEdges_run in Hc. injection Hc as <-.
      rewrite nodes_emit. eauto.
    - by injection Hrun as <-. }
  congruence.
Qed.

(** * Construction *)

Lemma leftChildBlock_run (newinput : list jsval) (node : ref) (n : BTreeNode)
    (queue : list ref) (idx : nat) (st : store) :
  nodes st !! node = Some n →
  leftChildBlock newinput node queue idx st
  = Some (blockResult true newinput node n queue idx st).
Proof.
  intros Hn. unfold leftChildBlock, blockResult.
  destruct (idx <? length newinput)%nat; [|done].
  destruct (decide (arrayAt newinput idx ≠ JSNull)); [|done].
  unfold mbind, M_bind, newBTreeNode, setLeftChild, mret, M_ret.
  cbn [nodes with_nodes].
  rewrite lookup_app_l by eauto using lookup_lt_Some.
  by rewrite Hn.
Qed.

Lemma rightChildBlock_run (newinput : list jsval) (node : ref) (n : BTreeNode)
    (queue : list ref) (idx : nat) (st : store) :
  nodes st !! node = Some n →
  rightChildBlock newinput node queue idx st
  = Some (blockResult false newinput node n queue idx st).
Proof.
  intros Hn. unfold rightChildBlock, blockResult.
  destruct (idx <? length newinput)%nat; [|done].
  destruct (decide (arrayAt newinput idx ≠ JSNull)); [|done].
  unfold mbind, M_bind, newBTreeNode, setRightChild, mret, M_ret.
  cbn [nodes with_nodes].
  rewrite lookup_app_l by eauto using lookup_lt_Some.
  by rewrite Hn.
Qed.

Lemma length_attach (left : bool) (node : ref) (n : BTreeNode) (v : jsval)
    (h : list BTreeNode) :
  length (attach left node n v h) = S (length h).
Proof. unfold attach. rewrite length_insert, length_app. simpl. lia. Qed.

Lemma attach_lookup_node (left : bool) (node : ref) (n : BTreeNode) (v : jsval)
    (h : list BTreeNode) :
  node < length h →
  attach left node n v h !! node = Some (setChild left n (Some (length h))).
Proof.
  intros Hlt. unfold attach. apply list_lookup_insert_eq.
  rewrite length_app. simpl. lia.
Qed.

Lemma attach_lookup_new (left : bool) (node : ref) (n : BTreeNode) (v : jsval)
    (h : list BTreeNode) :
  node < length h →
  attach left node n v h !! length h = Some (mkBTreeNode v None None).
Proof.
  intros Hlt. unfold attach. rewrite list_lookup_insert_ne by lia.
  by rewrite list_lookup_middle.
Qed.

Lemma attach_lookup_other (left : bool) (node : ref) (n : BTreeNode) (v : jsval)
    (h : list BTreeNode) (a : ref) :
  a ≠ node → a < length h →
  attach left node n v h !! a = h !! a.
Proof.
  intros Hne Hlt. unfold attach. rewrite list_lookup_insert_ne by done.
  by apply lookup_app_l.
Qed.

Lemma size_addrs (t : tree) : size t = length (addrs t).
Proof.
  induction t as [|l IHl a v r IHr]; [done|].
  simpl. rewrite length_app. lia.
Qed.

Lemma repr_addrs_lt (h : list BTreeNode) (o : option ref) (t : tree) :
  repr h o t → ∀ c, c ∈ addrs t → c < length h.
Proof.
  induction 1 as [|a n l r Hn _ IHl _ IHr]; intros c Hc.
  - by apply elem_of_nil in Hc.
  - simpl in Hc. apply elem_of_cons in Hc as [->|Hc].
    + eauto using lookup_lt_Some.
    + apply elem_of_app in Hc as [Hc|Hc]; auto.
Qed.

(** A shape only depends on the records of its own nodes. *)
Lemma repr_ext (h h' : list BTreeNode) (o : option ref) (t : tree) :
  repr h o t → (∀ c, c ∈ addrs t → h' !! c = h !! c) → repr h' o t.
Proof.
  induction 1 as [|a n l r Hn _ IHl _ IHr]; intros Hsame; [constructor|].
  constructor.
  - rewrite Hsame; [done|]. simpl. apply elem_of_cons. by left.
  - apply IHl. intros c Hc. apply Hsame. simpl.
    apply elem_of_cons. right. apply elem_of_app. by left.
  - apply IHr. intros c Hc. apply Hsame. simpl.
    apply elem_of_cons. right. apply elem_of_app. by right.
Qed.

Lemma graft_absent (left : bool) (a : ref) (sub t : tree) :
  a ∉ addrs t → graft left a sub t = t.
Proof.
  induction t as [|l IHl b v r IHr]; intros Hnot; [done|].
  simpl in *. apply not_elem_of_cons in Hnot as [Hne Hnot].
  apply not_elem_of_app in Hnot as [Hl Hr].
  destruct (decide (b = a)); [congruence|]. by rewrite IHl, IHr.
Qed.

(** Hanging a fresh leaf under [node] in the heap is grafting it in the
    shape. *)
Lemma repr_attach (left : bool) (node : ref) (n : BTreeNode) (v : jsval)
    (h : list BTreeNode) (o : option ref) (t : tree) :
  repr h o t → NoDup (addrs t) →
  h !! node = Some n → getChild left n = None →
  repr (attach left node n v h) o
       (graft left node (Obj Null (length h) v Null) t).
Proof.
  intros Hrep Hnd Hn Hchild.
  pose proof (lookup_lt_Some _ _ _ Hn) as Hlt.
  induction Hrep as [|a na l r Hna Hl IHl Hr IHr]; [constructor|].
  simpl in Hnd. apply NoDup_cons in Hnd as [Hnot Hnd].
  apply NoDup_app in Hnd as (Hndl & Hdisj & Hndr).
  apply not_elem_of_app in Hnot as [Hnotl Hnotr].
  assert (Hleaf : repr (attach left node n v h) (Some (length h))
                       (Obj Null (length h) v Null)).
  { apply (repr_obj _ _ (mkBTreeNode v None None)); [|constructor..].
    by apply attach_lookup_new. }
  assert (Hkeep : ∀ (o' : option ref) (t' : tree),
             repr h o' t' → node ∉ addrs t' →
             repr (attach left node n v h) o' t').
  { intros o' t' Hrep' Hnot'. apply (repr_ext h); [done|].
    intros c Hc. apply attach_lookup_other.
    - intros ->. done.
    - eauto using repr_addrs_lt. }
  cbn [graft]. destruct (decide (a = node)) as [->|Hne].
  - rewrite Hn in Hna. injection Hna as <-.
    destruct left; simpl in Hchild.
    + rewrite Hchild in Hl. apply repr_none_inv in Hl as ->.
      apply (repr_obj _ _ (setChild true n (Some (length h)))); simpl.
      * by apply attach_lookup_node.
      * done.
      * by apply Hkeep.
    + rewrite Hchild in Hr. apply repr_none_inv in Hr as ->.
      apply (repr_obj _ _ (setChild false n (Some (length h)))); simpl.
      * by apply attach_lookup_node.
      * by apply Hkeep.
      * done.
  - apply repr_obj; auto.
    rewrite attach_lookup_other; eauto using lookup_lt_Some.
Qed.

Lemma addrs_graft (left : bool) (node : ref) (n : BTreeNode) (sub : tree)
    (h : list BTreeNode) (o : option ref) (t : tree) :
  repr h o t → NoDup (addrs t) →
  h !! node = Some n → getChild left n = None →
  addrs (graft left node sub t)
  ≡ₚ (if decide (node ∈ addrs t) then addrs sub else []) ++ addrs t.
Proof.
  intros Hrep Hnd Hn Hchild.
  induction Hrep as [|a na l r Hna Hl IHl Hr IHr].
  - simpl. destruct (decide (node ∈ [])) as [Hin|]; [|done].
    by apply elem_of_nil in Hin.
  - simpl in Hnd. apply NoDup_cons in Hnd as [Hnot Hnd].
    apply NoDup_app in Hnd as (Hndl & Hdisj & Hndr).
    apply not_elem_of_app in Hnot as [Hnotl Hnotr].
    cbn [graft addrs]. destruct (decide (a = node)) as [->|Hne].
    + rewrite Hn in Hna. injection Hna as <-.
      rewrite decide_True by (apply elem_of_cons; by left).
      destruct left; simpl in Hchild.
      * rewrite Hchild in Hl. apply repr_none_inv in Hl as ->. simpl.
        apply Permutation_middle.
      * rewrite Hchild in Hr. apply repr_none_inv in Hr as ->. simpl.
        rewrite app_nil_r.
        rewrite (Permutation_app_comm (addrs l) (addrs sub)).
        apply Permutation_middle.
    + specialize (IHl Hndl). specialize (IHr Hndr).
      cbn [addrs]. rewrite IHl, IHr.
      destruct (decide (node ∈ addrs l)) as [Hinl|Hninl];
        destruct (decide (node ∈ addrs r)) as [Hinr|Hninr].
      * by destruct (Hdisj node Hinl).
      * rewrite decide_True
          by (apply elem_of_cons; right; apply elem_of_app; by left).
        simpl. rewrite <- app_assoc. apply Permutation_middle.
      * rewrite decide_True
          by (apply elem_of_cons; right; apply elem_of_app; by right).
        simpl. rewrite Permutation_app_swap_app. apply Permutation_middle.
      * rewrite decide_False; [done|].
        intros Hin. apply elem_of_cons in Hin as [?|Hin]; [congruence|].
        apply elem_of_app in Hin as [?|?]; done.
Qed.

Lemma preserves_refl (P : ref → Prop) (st : store) : preserves P st st.
Proof.
  split; [by destruct st|]. split; [done|]. eauto.
Qed.

Lemma preserves_trans (P1 P2 P : ref → Prop) (st1 st2 st3 : store) :
  preserves P1 st1 st2 → preserves P2 st2 st3 →
  (∀ a, a < length (nodes st1) → P a → P1 a ∧ P2 a) →
  preserves P st1 st3.
Proof.
  intros (E1 & L1 & F1) (E2 & L2 & F2) HP. split; [|split; [lia|]].
  - rewrite E2, E1. done.
  - intros a m Hm. destruct (F1 a m Hm) as (m1 & Hm1 & V1 & K1).
    destruct (F2 a m1 Hm1) as (m2 & Hm2 & V2 & K2).
    exists m2. split; [done|]. split; [congruence|].
    intros HPa. destruct (HP a (lookup_lt_Some _ _ _ Hm) HPa) as [? ?].
    rewrite K2, K1; done.
Qed.

Lemma preserves_attach (left : bool) (node : ref) (n : BTreeNode) (v : jsval)
    (st : store) :
  nodes st !! node = Some n →
  preserves (λ a, a ≠ node) st
            (with_nodes st (attach left node n v (nodes st))).
Proof.
  intros Hn. pose proof (lookup_lt_Some _ _ _ Hn) as Hlt.
  split; [done|]. split; [simpl; rewrite length_attach; lia|].
  intros a m Hm. simpl. destruct (decide (a = node)) as [->|Hne].
  - rewrite attach_lookup_node by done. rewrite Hn in Hm. injection Hm as <-.
    eexists. split; [done|]. split; [by destruct left|done].
  - rewrite attach_lookup_other by eauto using lookup_lt_Some. eauto.
Qed.

Lemma arrayAt_lookup (arr : list jsval) (i : nat) :
  i < length arr → arr !! i = Some (arrayAt arr i).
Proof.
  intros Hlt. unfold arrayAt.
  destruct (lookup_lt_is_Some_2 arr i Hlt) as [x Hx]. by rewrite Hx.
Qed.

Lemma countPresent_app (l l' : list jsval) :
  countPresent (l ++ l') = countPresent l + countPresent l'.
Proof. unfold countPresent. by rewrite filter_app, length_app. Qed.

Lemma countPresent_cons (v : jsval) (l : list jsval) :
  countPresent (v :: l) = present v + countPresent l.
Proof.
  unfold countPresent, present. rewrite filter_cons.
  by destruct (decide (v ≠ JSNull)).
Qed.

Lemma countPresent_take_S (arr : list jsval) (i : nat) :
  i < length arr →
  countPresent (take (S i) arr)
  = countPresent (take i arr) + present (arrayAt arr i).
Proof.
  intros Hlt. rewrite (take_S_r arr i _ (arrayAt_lookup arr i Hlt)).
  rewrite countPresent_app, countPresent_cons.
  change (countPresent []) with 0. lia.
Qed.

(** ** The loop, for a root allocated at [base] and a token array
    [newinput] *)

Section Loop.

Context (base : nat) (newinput : list jsval).

Lemma buildInv_NoDup (h : list BTreeNode)
    (queue : list ref) (idx : nat) (t : tree) :
  buildInv base newinput h queue idx t → NoDup (addrs t).
Proof.
  intros Hinv. rewrite (inv_addrs _ _ _ _ _ _ Hinv). apply NoDup_seq.
Qed.

Lemma buildInv_mem (h : list BTreeNode)
    (queue : list ref) (idx : nat) (t : tree) (a : ref) :
  buildInv base newinput h queue idx t →
  base ≤ a → a < length h → a ∈ addrs t.
Proof.
  intros Hinv Hb Hlt. rewrite (inv_addrs _ _ _ _ _ _ Hinv).
  apply elem_of_seq. lia.
Qed.

(** A token that is the null sentinel only advances the index. *)
Lemma buildInv_skip (h : list BTreeNode)
    (queue : list ref) (idx : nat) (t : tree) :
  buildInv base newinput h queue idx t →
  idx < length newinput → arrayAt newinput idx = JSNull →
  buildInv base newinput h queue (idx + 1) t.
Proof.
  intros [H1 H2 H3 H4 H5 H6 H7] Hlt Hnull.
  split; try done; [lia|].
  replace (idx + 1) with (S idx) by lia.
  rewrite countPresent_take_S by done.
  rewrite Hnull. change (present JSNull) with 0. lia.
Qed.

(** A token that makes a node extends the shape by a leaf. *)
Lemma buildInv_attach (left : bool) (h : list BTreeNode) (queue : list ref) (idx : nat) (t : tree)
    (node : ref) (n : BTreeNode) :
  buildInv base newinput h queue idx t →
  node ∉ queue → base ≤ node →
  h !! node = Some n → getChild left n = None →
  idx < length newinput → arrayAt newinput idx ≠ JSNull →
  buildInv base newinput
           (attach left node n (arrayAt newinput idx) h)
           (queue ++ [length h]) (idx + 1)
           (graft left node (Obj Null (length h) (arrayAt newinput idx) Null) t)
  ∧ node ∉ queue ++ [length h].
Proof.
  intros Hinv Hnotq Hbase Hn Hchild Hlt Htok.
  pose proof (buildInv_NoDup _ _ _ _ Hinv) as Hnd.
  pose proof (lookup_lt_Some _ _ _ Hn) as Hnode.
  pose proof (buildInv_mem _ _ _ _ node Hinv Hbase Hnode) as Hmem.
  destruct Hinv as [H1 H2 H3 H4 H5 H6 H7].
  assert (Hq : ∀ a, a ∈ queue → a < length h).
  { intros a Ha. destruct (H5 a Ha) as (_ & v & Hv).
    eauto using lookup_lt_Some. }
  split; [split|].
  - by apply repr_attach.
  - rewrite (addrs_graft left node n _ h (Some base) t) by done.
    rewrite decide_True by done. rewrite length_attach. simpl.
    replace (S (length h) - base) with (S (length h - base)) by lia.
    rewrite seq_S, H2.
    replace (base + (length h - base)) with (length h) by lia.
    apply Permutation_cons_append.
  - rewrite length_attach. lia.
  - apply NoDup_app. split; [done|]. split; [|apply NoDup_singleton].
    intros a Ha Hin. apply list_elem_of_singleton in Hin as ->.
    specialize (Hq _ Ha). lia.
  - intros a Ha. apply elem_of_app in Ha as [Ha|Ha].
    + destruct (H5 a Ha) as (Hb & v & Hv). split; [done|]. exists v.
      rewrite attach_lookup_other; [done| |by apply Hq].
      intros ->. done.
    + apply list_elem_of_singleton in Ha as ->. split; [lia|].
      eexists. by apply attach_lookup_new.
  - lia.
  - replace (idx + 1) with (S idx) by lia.
    rewrite length_attach, countPresent_take_S by done.
    unfold present at 2. rewrite decide_True by done. lia.
  - intros Hin. apply elem_of_app in Hin as [Hin|Hin]; [done|].
    apply list_elem_of_singleton in Hin. lia.
Qed.

Lemma childSlot_preserved (P : ref → Prop) (st st' : store) (c : option ref)
    (tok : option jsval) :
  preserves P st st' → childSlot (nodes st) c tok → childSlot (nodes st') c tok.
Proof.
  intros (_ & _ & F). destruct c as [a|]; [|done].
  intros (m & Hm & Htok). destruct (F a m Hm) as (m' & Hm' & V & _).
  exists m'. split; [done|]. congruence.
Qed.

(** What one child block does to the invariant, to the node it works on and
    to the rest of the store. *)
Lemma block_post (left : bool) (st : store) (queue : list ref) (idx : nat) (t : tree) (node : ref)
    (n : BTreeNode) :
  buildInv base newinput (nodes st) queue idx t →
  node ∉ queue → base ≤ node →
  nodes st !! node = Some n → getChild left n = None →
  ∃ queue' idx' st' t' n',
    blockResult left newinput node n queue idx st = ((queue', idx'), st')
    ∧ buildInv base newinput (nodes st') queue' idx' t'
    ∧ (node ∉ queue')
    ∧ nodes st' !! node = Some n'
    ∧ value n' = value n
    ∧ getChild (negb left) n' = getChild (negb left) n
    ∧ childSlot (nodes st') (getChild left n') (childToken newinput idx)
    ∧ idx' = (if (idx <? length newinput)%nat then idx + 1 else idx)
    ∧ length queue'
      = length queue
        + (if (idx <? length newinput)%nat
           then present (arrayAt newinput idx) else 0)
    ∧ preserves (λ a, a ≠ node) st st'
    ∧ (∀ a, a ∈ queue' → a ∈ queue ∨ length (nodes st) ≤ a).
Proof.
  intros Hinv Hnotq Hbase Hn Hchild. unfold blockResult.
  pose proof (lookup_lt_Some _ _ _ Hn) as Hnode.
  destruct (Nat.ltb_spec idx (length newinput)) as [Hlt|Hge].
  - destruct (decide (arrayAt newinput idx ≠ JSNull)) as [Htok|Htok].
    + destruct (buildInv_attach left _ _ _ _ _ _
                  Hinv Hnotq Hbase Hn Hchild Hlt Htok) as [Hinv' Hnot'].
      eexists _, _, _, _, _. split; [done|]. split; [exact Hinv'|].
      split; [done|]. split; [by apply attach_lookup_node|].
      split; [by destruct left|]. split; [by destruct left|].
      split.
      { replace (getChild left (setChild left n (Some (length (nodes st)))))
          with (Some (length (nodes st))) by (by destruct left).
        eexists. split; [by apply attach_lookup_new|].
        unfold childToken. rewrite arrayAt_lookup by done.
        by rewrite decide_True. }
      split; [done|]. split.
      { rewrite length_app. unfold present. rewrite decide_True by done. done. }
      split; [by apply preserves_attach|].
      intros a Ha. apply elem_of_app in Ha as [Ha|Ha]; [by left|].
      apply list_elem_of_singleton in Ha as ->. by right.
    + assert (arrayAt newinput idx = JSNull) as Hnull.
      { by destruct (decide (arrayAt newinput idx = JSNull)). }
      eexists _, _, _, _, _. split; [done|].
      split; [by apply buildInv_skip|].
      split; [done|]. split; [done|]. split; [done|]. split; [done|].
      split.
      { rewrite Hchild. unfold childSlot, childToken.
        rewrite arrayAt_lookup by done. by rewrite decide_False by tauto. }
      split; [done|]. split.
      { unfold present. rewrite decide_False by tauto. lia. }
      split; [apply preserves_refl|]. auto.
  - eexists _, _, _, _, _. split; [done|]. split; [exact Hinv|].
    split; [done|]. split; [done|]. split; [done|]. split; [done|].
    split.
    { rewrite Hchild. unfold childSlot, childToken.
      by rewrite lookup_ge_None_2. }
    split; [done|]. split; [lia|].
    split; [apply preserves_refl|]. auto.
Qed.

Lemma buildInv_shift (h : list BTreeNode)
    (node : ref) (queue : list ref) (idx : nat) (t : tree) :
  buildInv base newinput h (node :: queue) idx t →
  buildInv base newinput h queue idx t
  ∧ (node ∉ queue) ∧ base ≤ node
  ∧ ∃ v, h !! node = Some (mkBTreeNode v None None).
Proof.
  intros [H1 H2 H3 H4 H5 H6 H7].
  apply NoDup_cons in H4 as [Hnot Hnd].
  destruct (H5 node ltac:(apply elem_of_cons; by left)) as [Hb Hv].
  split; [|done]. split; try done.
  intros a Ha. apply H5. apply elem_of_cons. by right.
Qed.

(** One pass through the loop body. *)
Lemma iteration_spec (st : store)
    (node : ref) (queue : list ref) (idx : nat) (t : tree) :
  buildInv base newinput (nodes st) (node :: queue) idx t →
  idx < length newinput →
  ∃ queue' idx' st' t' n n',
    iteration newinput node queue idx st = Some ((queue', idx'), st')
    ∧ buildInv base newinput (nodes st') queue' idx' t'
    ∧ nodes st !! node = Some n
    ∧ nodes st' !! node = Some n'
    ∧ value n' = value n
    ∧ childSlot (nodes st') (leftChild n') (childToken newinput idx)
    ∧ childSlot (nodes st') (rightChild n') (childToken newinput (idx + 1))
    ∧ idx' = (if (idx + 1 <? length newinput)%nat then idx + 2 else idx + 1)
    ∧ length queue'
      = length queue + present (arrayAt newinput idx)
        + (if (idx + 1 <? length newinput)%nat
           then present (arrayAt newinput (idx + 1)) else 0)
    ∧ preserves (λ a, a ≠ node) st st'
    ∧ (∀ a, a ∈ queue' → a ∈ queue ∨ length (nodes st) ≤ a).
Proof.
  intros Hinv Hlt.
  apply buildInv_shift in Hinv as (Hinv & Hnotq & Hbase & v & Hn).
  destruct (block_post true _ _ _ _ _ _ Hinv Hnotq Hbase Hn eq_refl)
    as (q1 & i1 & s1 & t1 & n1 & E1 & Hinv1 & Hnot1 & Hn1 & V1 & K1 & C1
        & I1 & L1 & P1 & Q1).
  simpl in K1, C1.
  destruct (block_post false _ _ _ _ _ _ Hinv1 Hnot1 Hbase Hn1 K1)
    as (q2 & i2 & s2 & t2 & n2 & E2 & Hinv2 & Hnot2 & Hn2 & V2 & K2 & C2
        & I2 & L2 & P2 & Q2).
  simpl in K2, C2.
  assert (i1 = idx + 1) as ->.
  { rewrite I1. by destruct (Nat.ltb_spec idx (length newinput)); [|lia]. }
  exists q2, i2, s2, t2, (mkBTreeNode v None None), n2.
  split.
  { unfold iteration.
    rewrite (run_bind _ _ st s1 (q1, idx + 1)).
    - rewrite (rightChildBlock_run _ _ _ _ _ _ Hn1). by rewrite E2.
    - rewrite (leftChildBlock_run _ _ _ _ _ _ Hn). by rewrite E1. }
  split; [done|]. split; [done|]. split; [done|].
  split; [congruence|]. split.
  { rewrite K2. eapply childSlot_preserved; eauto. }
  split; [done|]. split.
  { rewrite I2. destruct (idx + 1 <? length newinput)%nat; lia. }
  split.
  { rewrite L2, L1.
    destruct (Nat.ltb_spec idx (length newinput)); [done|lia]. }
  split.
  { eapply preserves_trans; eauto. }
  intros a Ha. destruct (Q2 a Ha) as [Ha1|Hge].
  - destruct (Q1 a Ha1) as [?|?]; auto.
  - right. destruct P1 as (_ & Hlen & _). lia.
Qed.

Lemma fillLoop_unfold (fuel : nat) (node : ref) (queue : list ref)
    (idx : nat) (st : store) :
  idx < length newinput →
  fillLoop (S fuel) newinput (node :: queue) idx st
  = match iteration newinput node queue idx st with
    | Some ((queue', idx'), st') => fillLoop fuel newinput queue' idx' st'
    | None => None
    end.
Proof.
  intros Hlt. cbn [fillLoop length].
  destruct (Nat.ltb_spec idx (length newinput)) as [_|?]; [|lia].
  cbn [Nat.ltb Nat.leb andb].
  unfold iteration, mbind, M_bind.
  destruct (leftChildBlock newinput node queue idx st)
    as [[[q1 i1] s1]|]; [|done].
  by destruct (rightChildBlock newinput node q1 i1 s1) as [[[q2 i2] s2]|].
Qed.

Lemma fillLoop_exit (fuel : nat) (queue : list ref) (idx : nat)
    (st : store) :
  queue = [] ∨ length newinput ≤ idx →
  fillLoop fuel newinput queue idx st = Some ((queue, idx), st).
Proof.
  intros Hexit.
  assert ((0 <? length queue)%nat && (idx <? length newinput)%nat = false)
    as Hcond.
  { destruct Hexit as [->|Hge]; [done|].
    destruct (Nat.ltb_spec idx (length newinput)); [lia|].
    apply andb_false_r. }
  destruct fuel; cbn [fillLoop]; by rewrite Hcond.
Qed.

Lemma levelOrder_stuck (toks : list jsval) :
  toks ≠ [] → levelOrder 0 toks = false.
Proof. by destruct toks as [|a [|b rest]]. Qed.

(** The loop: it returns, keeps the invariant, and stops with the queue
    empty or the tokens used up; on a level-order sequence it uses up the
    tokens. *)
Lemma fillLoop_spec (fuel : nat) :
  ∀ (st : store) (queue : list ref)
    (idx : nat) (t : tree),
    buildInv base newinput (nodes st) queue idx t →
    length newinput - idx ≤ fuel →
    ∃ queue' idx' st' t',
      fillLoop fuel newinput queue idx st = Some ((queue', idx'), st')
      ∧ buildInv base newinput (nodes st') queue' idx' t'
      ∧ (queue' = [] ∨ idx' = length newinput)
      ∧ idx ≤ idx'
      ∧ preserves (λ a, a ∉ queue) st st'
      ∧ (levelOrder (length queue) (drop idx newinput) = true →
         idx' = length newinput).
Proof.
  induction fuel as [|fuel IH]; intros st queue idx t Hinv Hfuel.
  - pose proof (inv_idx _ _ _ _ _ _ Hinv) as Hidx.
    exists queue, idx, st, t.
    rewrite fillLoop_exit by (right; lia).
    split; [done|]. split; [done|]. split; [right; lia|]. split; [done|].
    split; [apply preserves_refl|]. intros _. lia.
  - pose proof (inv_idx _ _ _ _ _ _ Hinv) as Hidx.
    destruct (decide (idx = length newinput)) as [Hend|Hnend].
    { exists queue, idx, st, t.
      rewrite fillLoop_exit by (right; lia).
      split; [done|]. split; [done|]. split; [by right|]. split; [done|].
      split; [apply preserves_refl|]. done. }
    assert (idx < length newinput) as Hlt by lia.
    destruct queue as [|node queue].
    { exists [], idx, st, t.
      rewrite fillLoop_exit by (by left).
      split; [done|]. split; [done|]. split; [by left|]. split; [done|].
      split; [apply preserves_refl|].
      rewrite levelOrder_stuck; [done|].
      intros Hnil. apply (f_equal length) in Hnil.
      rewrite length_drop in Hnil. simpl in Hnil. lia. }
    destruct (iteration_spec _ _ _ _ _ Hinv Hlt)
      as (q1 & i1 & s1 & t1 & n & n1 & Hrun & Hinv1 & Hn & Hn1 & V1 & CL & CR
          & I1 & L1 & P1 & Q1).
    assert (idx < i1) as Hprog.
    { rewrite I1. destruct (idx + 1 <? length newinput)%nat; lia. }
    destruct (IH s1 q1 i1 t1 Hinv1 ltac:(lia))
      as (q2 & i2 & s2 & t2 & Hrun2 & Hinv2 & Hexit & Hle & P2 & LO).
    exists q2, i2, s2, t2.
    rewrite fillLoop_unfold, Hrun by done.
    split; [done|]. split; [done|]. split; [done|]. split; [lia|].
    split.
    { eapply preserves_trans; eauto. intros a Ha Hnot.
      apply not_elem_of_cons in Hnot as [Hne Hnotq]. split; [done|].
      intros Hin. destruct (Q1 a Hin); [done|lia]. }
    intros Hlo.
    pose proof (inv_idx _ _ _ _ _ _ Hinv2) as Hidx2.
    rewrite (drop_S newinput _ idx (arrayAt_lookup _ _ Hlt)) in Hlo.
    revert I1 L1.
    destruct (Nat.ltb_spec (idx + 1) (length newinput)) as [Hlt1|Hge1];
      intros I1 L1; [|lia].
    apply LO.
    rewrite (drop_S newinput (arrayAt newinput (S idx)) (S idx)) in Hlo
      by (apply arrayAt_lookup; lia).
    cbn [levelOrder length] in Hlo.
    apply andb_true_iff in Hlo as [_ Hlo].
    rewrite L1, I1.
    replace (idx + 2) with (S (S idx)) by lia.
    replace (S (length queue) - 1) with (length queue) in Hlo by lia.
    by replace (idx + 1) with (S idx) by lia.
Qed.

End Loop.

Lemma fillLoop_fuel_mono (fuel : nat) :
  ∀ (fuel' : nat) (newinput : list jsval) (queue : list ref) (idx : nat)
    (st : store) (res : (list ref * nat) * store),
    fuel ≤ fuel' →
    fillLoop fuel newinput queue idx st = Some res →
    fillLoop fuel' newinput queue idx st = Some res.
Proof.
  induction fuel as [|fuel IH]; intros fuel' newinput queue idx st res Hle Hrun.
  - cbn [fillLoop] in Hrun.
    destruct ((0 <? length queue)%nat && (idx <? length newinput)%nat) eqn:Hc;
      [done|].
    rewrite <- Hrun. apply fillLoop_exit.
    apply andb_false_iff in Hc as [Hc|Hc].
    + left. destruct queue; [done|]. simpl in Hc. done.
    + right. by apply Nat.ltb_ge.
  - destruct fuel' as [|fuel']; [lia|].
    destruct (decide (queue = [] ∨ length newinput ≤ idx)) as [Hexit|Hgo].
    { rewrite fillLoop_exit in Hrun by done. by rewrite fillLoop_exit. }
    destruct queue as [|node queue]; [by destruct Hgo; left|].
    assert (idx < length newinput) as Hlt.
    { destruct (Nat.lt_ge_cases idx (length newinput)); [done|].
      destruct Hgo. by right. }
    rewrite fillLoop_unfold in Hrun |- * by done.
    destruct (iteration newinput node queue idx st) as [[[q1 i1] s1]|];
      [|done].
    apply (IH fuel'); [lia|done].
Qed.

(** Every pass through the loop body moves the index forward. *)
Lemma iteration_progress (newinput : list jsval) (node : ref)
    (queue queue' : list ref) (idx idx' : nat) (st st' : store) :
  idx < length newinput →
  iteration newinput node queue idx st = Some ((queue', idx'), st') →
  idx < idx'.
Proof.
  intros Hlt Hrun. unfold iteration in Hrun.
  apply run_bind_inv in Hrun as ([q1 i1] & s1 & Hleft & Hright).
  assert (i1 = idx + 1) as ->.
  { unfold leftChildBlock in Hleft.
    destruct (Nat.ltb_spec idx (length newinput)); [|lia].
    apply run_bind_inv in Hleft as (q & s & _ & Hret).
    by injection Hret as _ <- _. }
  unfold rightChildBlock in Hright.
  destruct (idx + 1 <? length newinput)%nat.
  - apply run_bind_inv in Hright as (q & s & _ & Hret).
    injection Hret as _ <- _. lia.
  - injection Hright as _ <- _. lia.
Qed.

Lemma length_parseInput (input : string) : 1 ≤ length (parseInput input).
Proof.
  unfold parseInput. rewrite length_map.
  pose proof (split_nonempty "," (stripSpaces "" input)) as Hne.
  destruct (split "," (stripSpaces "" input)); [done|]. simpl. lia.
Qed.

Lemma childToken_past_end (newinput : list jsval) (i : nat) :
  length newinput ≤ i → childToken newinput i = None.
Proof. intros Hge. unfold childToken. by rewrite lookup_ge_None_2. Qed.

(** The store once the root has been made. *)
Lemma buildInv_init (input : string) (h : list BTreeNode) :
  buildInv (length h) (parseInput input)
           (h ++ [mkBTreeNode (charAt input 0) None None])
           [length h] 1
           (Obj Null (length h) (charAt input 0) Null).
Proof.
  pose proof (length_parseInput input) as Hlen.
  split.
  - apply (repr_obj _ _ (mkBTreeNode (charAt input 0) None None));
      [|constructor..].
    by rewrite list_lookup_middle.
  - rewrite length_app. simpl.
    replace (length h + 1 - length h) with 1 by lia. done.
  - rewrite length_app. simpl. lia.
  - apply NoDup_singleton.
  - intros a Ha. apply list_elem_of_singleton in Ha as ->. split; [done|].
    eexists. by rewrite list_lookup_middle.
  - lia.
  - rewrite length_app. simpl.
    destruct (parseInput input) as [|tok0 rest] eqn:E; [simpl in Hlen; lia|].
    simpl. rewrite take_0, countPresent_cons.
    change (countPresent []) with 0. unfold arrayAt. simpl. lia.
Qed.

(** What [treeConstructor] returns and leaves in the store. *)
Lemma treeConstructor_spec (input : string) (st : store) :
  ∃ st' t queue' idx' n,
    treeConstructor input st = Some (length (nodes st), st')
    ∧ buildInv (length (nodes st)) (parseInput input) (nodes st')
               queue' idx' t
    ∧ (queue' = [] ∨ idx' = length (parseInput input))
    ∧ (levelOrder 1 (drop 1 (parseInput input)) = true →
       idx' = length (parseInput input))
    ∧ nodes st' !! length (nodes st) = Some n
    ∧ value n = charAt input 0
    ∧ childSlot (nodes st') (leftChild n) (childToken (parseInput input) 1)
    ∧ childSlot (nodes st') (rightChild n) (childToken (parseInput input) 2)
    ∧ preserves (λ a, a < length (nodes st)) st st'.
Proof.
  set (newinput := parseInput input). set (base := length (nodes st)).
  set (leaf := mkBTreeNode (charAt input 0) None None).
  set (st0 := with_nodes st (nodes st ++ [leaf])).
  pose proof (length_parseInput input) as Hlen. fold newinput in Hlen.
  pose proof (buildInv_init input (nodes st)) as Hinv0.
  fold newinput base leaf in Hinv0.
  change (nodes st ++ [leaf]) with (nodes st0) in Hinv0.
  assert (Halloc : preserves (λ _, True) st st0).
  { split; [done|]. split; [simpl; rewrite length_app; lia|].
    intros a m Hm. exists m. simpl.
    rewrite lookup_app_l by eauto using lookup_lt_Some. done. }
  assert (Hroot0 : nodes st0 !! base = Some leaf).
  { simpl. by rewrite list_lookup_middle. }
  destruct (fillLoop_spec base newinput (length newinput) st0 [base] 1 _
              Hinv0 ltac:(lia))
    as (q' & i' & st' & t' & Hrun & Hinv & Hexit & _ & Hpres & Hlo).
  assert (Hroot : ∃ n, nodes st' !! base = Some n ∧ value n = charAt input 0
            ∧ childSlot (nodes st') (leftChild n) (childToken newinput 1)
            ∧ childSlot (nodes st') (rightChild n) (childToken newinput 2)).
  { destruct (decide (length newinput = 1)) as [Hone|Hmore].
    - rewrite fillLoop_exit in Hrun by (right; lia).
      injection Hrun as <- <- <-. exists leaf.
      rewrite !childToken_past_end by lia. done.
    - destruct (length newinput) as [|fuel] eqn:Efuel; [lia|].
      rewrite fillLoop_unfold in Hrun by lia.
      destruct (iteration_spec base newinput _ _ _ _ _ Hinv0 ltac:(lia))
        as (q1 & i1 & s1 & t1 & n & n1 & Hit & Hinv1 & Hn & Hn1 & V1 & CL
            & CR & I1 & L1 & P1 & Q1).
      rewrite Hit in Hrun.
      destruct (fillLoop_spec base newinput fuel s1 q1 i1 t1 Hinv1)
        as (q2 & i2 & s2 & t2 & Hrun2 & _ & _ & _ & P2 & _).
      { rewrite I1. destruct (1 + 1 <? length newinput)%nat; lia. }
      rewrite Hrun2 in Hrun. injection Hrun as <- <- <-.
      pose proof P2 as (E2 & L2 & F2).
      destruct (F2 base n1 Hn1) as (n2 & Hn2 & V2 & K2).
      rewrite K2 in Hn2.
      2:{ intros Hin. destruct (Q1 base Hin) as [Hnil|Hge].
          - by apply elem_of_nil in Hnil.
          - apply lookup_lt_Some in Hroot0. lia. }
      exists n1. split; [done|]. split.
      { rewrite V1. rewrite Hroot0 in Hn. by injection Hn as <-. }
      split; [exact (childSlot_preserved _ _ _ _ _ P2 CL)|].
      exact (childSlot_preserved _ _ _ _ _ P2 CR). }
  destruct Hroot as (n & Hn & Hv & HL & HR).
  exists st', t', q', i', n.
  split.
  { unfold treeConstructor. fold newinput.
    rewrite (run_bind (newBTreeNode _) _ st st0 base eq_refl).
    cbn [app Nat.add].
    by mstep Hrun. }
  split; [done|]. split; [done|]. split.
  { intros H. apply Hlo. exact H. }
  split; [done|]. split; [done|]. split; [done|]. split; [done|].
  eapply preserves_trans; eauto. intros a Ha Hlt. split; [done|].
  intros Hin. apply list_elem_of_singleton in Hin. lia.
Qed.

Lemma childSlot_rootValue (h : list BTreeNode) (c : option ref) (t : tree)
    (tok : option jsval) :
  repr h c t → childSlot h c tok → rootValue t = tok.
Proof.
  intros Hrep Hslot. destruct c as [a|].
  - apply repr_some_inv in Hrep as (n & l & r & -> & Hn & _).
    destruct Hslot as (m & Hm & ->). simpl. congruence.
  - apply repr_none_inv in Hrep as ->. simpl in *. by subst.
Qed.

(** The number of nodes, whatever the input: the root and one node for each
    token that was read and is not the null sentinel, the first one apart. *)
Lemma treeConstructor_node_count (input : string) (st : store) :
  ∃ st' t idx',
    treeConstructor input st = Some (length (nodes st), st')
    ∧ repr (nodes st') (Some (length (nodes st))) t
    ∧ idx' ≤ length (parseInput input)
    ∧ (levelOrder 1 (drop 1 (parseInput input)) = true →
       idx' = length (parseInput input))
    ∧ size t + present (arrayAt (parseInput input) 0)
      = 1 + countPresent (take idx' (parseInput input)).
Proof.
  destruct (treeConstructor_spec input st)
    as (st' & t & q' & i' & n & Hrun & Hinv & _ & Hlo & _).
  exists st', t, i'. split; [done|].
  destruct Hinv as [H1 H2 H3 H4 H5 H6 H7].
  split; [done|]. split; [lia|]. split; [done|].
  rewrite size_addrs, H2, length_seq. lia.
Qed.

(** * Frames *)

(** Whatever the heap, a height computation that returns has not changed
    the store. *)
Lemma getBTreeHeight_frame (fuel : nat) :
  ∀ (this : ref) (st st' : store) (h : Z),
    getBTreeHeight fuel this st = Some (h, st') → st' = st.
Proof.
  induction fuel as [|fuel IH]; intros this st st' h Hrun; [done|].
  cbn [getBTreeHeight] in Hrun.
  apply run_bind_inv in Hrun as (l & s1 & Hl & Hrun).
  apply run_bind_inv in Hrun as (hl & s2 & Hleft & Hrun).
  apply run_bind_inv in Hrun as (r & s3 & Hr & Hrun).
  apply run_bind_inv in Hrun as (hr & s4 & Hright & Hrun).
  assert (s1 = st) as ->.
  { unfold get_leftChild, readNode, mbind, M_bind, mret, M_ret in Hl.
    destruct (nodes st !! this); [|done]. by injection Hl as _ <-. }
  assert (s2 = st) as ->.
  { destruct l as [c|].
    - apply run_bind_inv in Hleft as (x & s & Hrec & Hret).
      injection Hret as _ <-. eauto.
    - by injection Hleft as _ <-. }
  assert (s3 = st) as ->.
  { unfold get_rightChild, readNode, mbind, M_bind, mret, M_ret in Hr.
    destruct (nodes st !! this); [|done]. by injection Hr as _ <-. }
  assert (s4 = st) as ->.
  { destruct r as [c|].
    - apply run_bind_inv in Hright as (x & s & Hrec & Hret).
      injection Hret as _ <-. eauto.
    - by injection Hright as _ <-. }
  by injection Hrun as _ <-.
Qed.

(** Whatever the heap, [drawBTree] does not write to it. *)
Lemma drawBTree_frame (fuel : nat) (rootEl : ref) (st st' : store) :
  drawBTree fuel rootEl st = Some (tt, st') → nodes st' = nodes st.
Proof.
  intros Hrun. unfold drawBTree in Hrun.
  rewrite (run_bind window_innerWidth _ st st (innerWidth st) eq_refl) in Hrun.
  rewrite (run_bind window_innerHeight _ st st (innerHeight st) eq_refl)
    in Hrun.
  set (st1 := with_canvas st (mkCanvas (innerWidth st) (height (canvasEl st))
                                       (calls (canvasEl st)))) in *.
  rewrite (run_bind (set_width (innerWidth st)) _ st st1 tt eq_refl) in Hrun.
  rewrite (run_bind (set_height (innerHeight st)) _ st1 (resized st) tt
             eq_refl) in Hrun.
  apply run_bind_inv in Hrun as (dims & s & Hdims & Hrun).
  unfold getRequiredHeightWidth in Hdims.
  apply run_bind_inv in Hdims as (h & s' & Hh & Hret).
  apply getBTreeHeight_frame in Hh as ->. injection Hret as _ <-.
  by apply recursivelyDrawNodes_frame in Hrun.
Qed.

(** * Main results *)

(** The results on the coordinates (C2, C5 and C6) rest on the arithmetic
    of doubles and come last, after the lemmas on that arithmetic. *)

(** C1. For an input with at least one character, [treeConstructor] returns
    a root whose value is the first character of the raw input, whatever the
    first parsed token is; the children of the root are nevertheless taken
    from the parsed tokens at index 1 (left) and index 2 (right). *)
Theorem treeConstructor_root_is_first_raw_character (c : ascii)
    (rest : string) (st : store) :
  ∃ st' l r,
    treeConstructor (String c rest) st = Some (length (nodes st), st')
    ∧ repr (nodes st') (Some (length (nodes st)))
           (Obj l (length (nodes st)) (JSString (String c "")) r)
    ∧ rootValue l = childToken (parseInput (String c rest)) 1
    ∧ rootValue r = childToken (parseInput (String c rest)) 2.
Proof.
  destruct (treeConstructor_spec (String c rest) st)
    as (st' & t & q' & i' & n & Hrun & Hinv & _ & _ & Hn & Hv & HL & HR & _).
  pose proof (inv_repr _ _ _ _ _ _ Hinv) as Hrep.
  apply repr_some_inv in Hrep as (n' & l & r & -> & Hn' & Hl & Hr).
  assert (n' = n) as -> by congruence.
  exists st', l, r. split; [done|]. split.
  { change (JSString (String c "")) with (charAt (String c rest) 0).
    rewrite <- Hv. by constructor. }
  split; eapply childSlot_rootValue; eauto.
Qed.

(** The root is labelled with one character even when the first token is
    longer, and the second token still becomes its left child. *)
Example root_label_of_long_first_token :
  parseInput "12,3" = [JSString "12"; JSString "3"]
  ∧ builtTree "12,3"
    = Some (Obj (Obj Null 1 (JSString "3") Null) 0 (JSString "1") Null).
Proof. split; vm_compute; reflexivity. Qed.

(** C3.  For a serialized level-order input (the first token is not the
    null sentinel and each token after it falls in a child slot of a node
    made before it), the tree has as many nodes as there are tokens that are
    not the null sentinel. *)
Theorem level_order_node_count (input : string) (st : store) :
  arrayAt (parseInput input) 0 ≠ JSNull →
  levelOrder 1 (drop 1 (parseInput input)) = true →
  ∃ st' t,
    treeConstructor input st = Some (length (nodes st), st')
    ∧ repr (nodes st') (Some (length (nodes st))) t
    ∧ size t = countPresent (parseInput input).
Proof.
  intros Hfirst Hlo.
  destruct (treeConstructor_node_count input st)
    as (st' & t & i' & Hrun & Hrep & _ & Hall & Hcount).
  exists st', t. split; [done|]. split; [done|].
  rewrite (Hall Hlo), firstn_all in Hcount.
  unfold present in Hcount. rewrite decide_True in Hcount by done. lia.
Qed.

(** Inputs that are no level-order serialization of a tree are outside this
    property: in 1,null,null,2 the last token falls in no child slot
    ([levelOrder] is false), the queue has run empty when it is reached, and
    it makes no node. *)
Example tokens_after_the_last_slot :
  ∃ t : tree,
    builtTree "1,null,null,2" = Some t
    ∧ t = Obj Null 0 (JSString "1") Null
    ∧ size t = 1
    ∧ countPresent (parseInput "1,null,null,2") = 2
    ∧ levelOrder 1 (drop 1 (parseInput "1,null,null,2")) = false.
Proof.
  eexists. split; [vm_compute; reflexivity|].
  split; [reflexivity|]. split; [reflexivity|].
  split; vm_compute; reflexivity.
Qed.

(** A first token that is the null sentinel still gives a root, labelled
    with the first raw character: one token that is not the null sentinel,
    two nodes. *)
Example null_first_token_still_makes_root :
  parseInput "null,1" = [JSNull; JSString "1"]
  ∧ builtTree "null,1"
    = Some (Obj (Obj Null 1 (JSString "1") Null) 0 (JSString "n") Null).
Proof. split; vm_compute; reflexivity. Qed.

(** C4. On a node whose object graph is a tree, [getBTreeHeight] returns
    one more than the greater of its children's heights, an absent child
    counting for 0; the result is at least 1, it is 1 for a node without
    children, and the store is left as it was. *)
Theorem getBTreeHeight_correct (st : store) (this : ref) (t : tree)
    (fuel : nat) :
  repr (nodes st) (Some this) t → depth t ≤ fuel →
  getBTreeHeight fuel this st = Some (treeHeight t, st)
  ∧ (1 ≤ treeHeight t)%Z
  ∧ ∃ (n : BTreeNode) (l r : tree),
      nodes st !! this = Some n
      ∧ repr (nodes st) (leftChild n) l
      ∧ repr (nodes st) (rightChild n) r
      ∧ treeHeight t = (1 + Z.max (treeHeight l) (treeHeight r))%Z
      ∧ (leftChild n = None → treeHeight l = 0%Z)
      ∧ (rightChild n = None → treeHeight r = 0%Z)
      ∧ (leftChild n = None → rightChild n = None → treeHeight t = 1%Z).
Proof.
  intros Hrep Hfuel.
  split; [by apply getBTreeHeight_run|].
  apply repr_some_inv in Hrep as (n & l & r & -> & Hn & Hl & Hr).
  split; [apply treeHeight_obj_pos|].
  exists n, l, r. split; [done|]. split; [done|]. split; [done|].
  split; [done|].
  assert (leftChild n = None → treeHeight l = 0%Z) as HL.
  { intros E. rewrite E in Hl. by apply repr_none_inv in Hl as ->. }
  assert (rightChild n = None → treeHeight r = 0%Z) as HR.
  { intros E. rewrite E in Hr. by apply repr_none_inv in Hr as ->. }
  split; [done|]. split; [done|].
  intros E1 E2. simpl. rewrite (HL E1), (HR E2). done.
Qed.

(** C7, as amended.  [parseInput] removes the space characters (and no
    other white space), splits what is left at the commas into the ordered
    pieces, and maps the piece "null" to the null sentinel and every other
    piece to itself. *)
Theorem parseInput_strips_spaces (inputVal : string) :
  parseInput inputVal
  = map toToken (split "," (filterString notSpace inputVal))
  ∧ occurs " " (filterString notSpace inputVal) = false
  ∧ String.concat "," (split "," (filterString notSpace inputVal))
    = filterString notSpace inputVal
  ∧ Forall (λ piece, occurs "," piece = false)
           (split "," (filterString notSpace inputVal))
  ∧ (∀ e : string, toToken e = JSNull ↔ e = "null")
  ∧ (∀ e : string, e ≠ "null" → toToken e = JSString e).
Proof.
  split.
  { unfold parseInput. by rewrite stripSpaces_filter. }
  split; [apply filterString_notSpace_no_space|].
  split; [apply concat_split|].
  split; [apply split_no_sep|].
  split; [apply toToken_null | apply toToken_other].
Qed.

(** C7 as first stated fails: a tab is white space and is kept.  On the
    input 1,<tab>2 the second token is the tab followed by 2. *)
Lemma parseInput_keeps_tab :
  parseInput tab_input = [JSString "1"; JSString (String "009" "2")]
  ∧ isWhitespace "009" = true
  ∧ parseInput_whitespace tab_input = [JSString "1"; JSString "2"]
  ∧ parseInput tab_input ≠ parseInput_whitespace tab_input.
Proof.
  split; [vm_compute; reflexivity|]. split; [reflexivity|].
  split; [vm_compute; reflexivity|]. vm_compute. discriminate.
Qed.

(** C8. The input 1,null,2 gives a root valued 1 with no left child and a
    right child valued 2; on a null-sentinel token either child block moves
    the index by one and changes neither the queue nor the store. *)
Theorem null_token_consumes_position :
  builtTree "1,null,2"
  = Some (Obj Null 0 (JSString "1") (Obj Null 1 (JSString "2") Null))
  ∧ ∀ (newinput : list jsval) (node : ref) (queue : list ref) (idx : nat)
      (st : store),
      arrayAt newinput idx = JSNull →
      leftChildBlock newinput node queue idx st = Some ((queue, idx + 1), st)
      ∧ rightChildBlock newinput node queue idx st
        = Some ((queue, idx + 1), st).
Proof.
  split; [vm_compute; reflexivity|].
  intros newinput node queue idx st Hnull.
  assert (idx < length newinput) as Hlt.
  { destruct (Nat.lt_ge_cases idx (length newinput)) as [|Hge]; [done|].
    unfold arrayAt in Hnull. by rewrite lookup_ge_None_2 in Hnull. }
  unfold leftChildBlock, rightChildBlock.
  destruct (Nat.ltb_spec idx (length newinput)); [|lia].
  rewrite Hnull. rewrite decide_False by (intros H'; by apply H').
  done.
Qed.

(** C9. A layout pass over a tree returns and leaves every node as it was:
    the heap after [drawBTree], and after [recursivelyDrawNodes] on any
    level and interval, is the heap before; on any heap at all, a pass that
    returns has not written to it. *)
Theorem layout_leaves_nodes_unchanged (st : store) (rootEl : ref) (t : tree)
    (fuel : nat) :
  repr (nodes st) (Some rootEl) t → depth t ≤ fuel →
  (∃ st', drawBTree fuel rootEl st = Some (tt, st')
          ∧ nodes st' = nodes st
          ∧ repr (nodes st') (Some rootEl) t)
  ∧ (∀ (L : double) (hc : xCordinates),
       ∃ st', recursivelyDrawNodes fuel rootEl L hc st = Some (tt, st')
              ∧ nodes st' = nodes st)
  ∧ (∀ (fuel' : nat) (root : ref) (L : double) (hc : xCordinates) (s s' : store),
       recursivelyDrawNodes fuel' root L hc s = Some (tt, s') →
       nodes s' = nodes s)
  ∧ (∀ (fuel' : nat) (root : ref) (s s' : store),
       drawBTree fuel' root s = Some (tt, s') → nodes s' = nodes s).
Proof.
  intros Hrep Hfuel. split.
  { eexists. split; [by apply drawBTree_run|]. split; done. }
  split.
  { intros L [xs xe]. eexists.
    split; [by apply recursivelyDrawNodes_run|done]. }
  split.
  - intros fuel' root L hc s s'. apply recursivelyDrawNodes_frame.
  - intros fuel' root s s'. apply drawBTree_frame.
Qed.

(** C10. [treeConstructor] returns on every input, the empty one included,
    and the root it returns is in the store; each pass through the loop body
    moves the token index forward, so that the loop needs fewer passes than
    there are tokens: any such budget of passes gives the same result. *)
Theorem treeConstructor_terminates (input : string) (st : store) :
  (∃ (st' : store) (n : BTreeNode),
     treeConstructor input st = Some (length (nodes st), st')
     ∧ nodes st' !! length (nodes st) = Some n)
  ∧ (∀ (newinput : list jsval) (node : ref) (queue queue' : list ref)
       (idx idx' : nat) (s s' : store),
       idx < length newinput →
       iteration newinput node queue idx s = Some ((queue', idx'), s') →
       idx < idx')
  ∧ (∀ fuel : nat,
       length (parseInput input) - 1 ≤ fuel →
       ∃ res,
         fillLoop fuel (parseInput input) [length (nodes st)] 1
           (with_nodes st
              (nodes st ++ [mkBTreeNode (charAt input 0) None None]))
         = Some res
         ∧ fillLoop (length (parseInput input)) (parseInput input)
             [length (nodes st)] 1
             (with_nodes st
                (nodes st ++ [mkBTreeNode (charAt input 0) None None]))
           = Some res).
Proof.
  split.
  { destruct (treeConstructor_spec input st)
      as (st' & t & q' & i' & n & Hrun & _ & _ & _ & Hn & _).
    by exists st', n. }
  split; [apply iteration_progress|].
  intros fuel Hfuel.
  pose proof (buildInv_init input (nodes st)) as Hinv0.
  destruct (fillLoop_spec (length (nodes st)) (parseInput input) fuel
              (with_nodes st
                 (nodes st ++ [mkBTreeNode (charAt input 0) None None]))
              [length (nodes st)] 1 _ Hinv0 Hfuel)
    as (q' & i' & st' & t' & Hrun & _).
  destruct (fillLoop_spec (length (nodes st)) (parseInput input)
              (length (parseInput input))
              (with_nodes st
                 (nodes st ++ [mkBTreeNode (charAt input 0) None None]))
              [length (nodes st)] 1 _ Hinv0 ltac:(lia))
    as (q2 & i2 & st2 & t2 & Hrun2 & _).
  exists ((q', i'), st'). split; [done|].
  destruct (Nat.le_ge_cases fuel (length (parseInput input))) as [Hle|Hge].
  - by apply (fillLoop_fuel_mono fuel).
  - rewrite Hrun2.
    apply (fillLoop_fuel_mono _ fuel) in Hrun2; [|done]. congruence.
Qed.

(** Building and then drawing: the tree built from any input is a shape the
    layout pass accepts, with a call stack no deeper than its node count. *)
Lemma depth_le_size (t : tree) : depth t ≤ size t.
Proof. induction t as [|l IHl a v r IHr]; simpl; lia. Qed.

Corollary build_then_draw (input : string) (st : store) :
  ∃ (st1 st2 : store) (t : tree),
    treeConstructor input st = Some (length (nodes st), st1)
    ∧ repr (nodes st1) (Some (length (nodes st))) t
    ∧ drawBTree (size t) (length (nodes st)) st1 = Some (tt, st2)
    ∧ nodes st2 = nodes st1.
Proof.
  destruct (treeConstructor_node_count input st)
    as (st1 & t & i' & Hrun & Hrep & _).
  eexists st1, _, t. split; [done|]. split; [done|].
  split; [apply drawBTree_run; [done | apply depth_le_size]|done].
Qed.

(** * The results on the running example *)

Lemma sample_repr : repr (nodes sample_store) (Some 0) sample_tree.
Proof. apply (reify_repr 3). vm_compute. reflexivity. Qed.

Lemma sample_depth : depth sample_tree ≤ 3.
Proof. vm_compute. lia. Qed.

(** The sample input has six tokens that are not the null sentinel and
    gives a tree of six nodes. *)
Lemma level_order_node_count_witness :
  arrayAt (parseInput sample_input) 0 ≠ JSNull
  ∧ levelOrder 1 (drop 1 (parseInput sample_input)) = true
  ∧ ∃ (st' : store) (t : tree),
      treeConstructor sample_input (empty_store 1280 720) = Some (0, st')
      ∧ repr (nodes st') (Some 0) t
      ∧ size t = 6.
Proof.
  assert (arrayAt (parseInput sample_input) 0 ≠ JSNull) as H1
    by (vm_compute; discriminate).
  assert (levelOrder 1 (drop 1 (parseInput sample_input)) = true) as H2
    by (vm_compute; reflexivity).
  split; [exact H1|]. split; [exact H2|].
  exact (level_order_node_count sample_input (empty_store 1280 720) H1 H2).
Defined.

Lemma getBTreeHeight_correct_witness :
  repr (nodes sample_store) (Some 0) sample_tree
  ∧ depth sample_tree ≤ 3
  ∧ getBTreeHeight 3 0 sample_store = Some (3%Z, sample_store).
Proof.
  split; [exact sample_repr|]. split; [exact sample_depth|].
  exact (proj1 (getBTreeHeight_correct sample_store 0 sample_tree 3
                  sample_repr sample_depth)).
Defined.

Lemma parseInput_strips_spaces_witness :
  parseInput " 5, null ,8" = [JSString "5"; JSNull; JSString "8"]
  ∧ "nul" ≠ "null"
  ∧ toToken "nul" = JSString "nul".
Proof.
  assert ("nul" ≠ "null") as Hne by discriminate.
  split; [vm_compute; reflexivity|]. split; [exact Hne|].
  exact (proj2 (proj2 (proj2 (proj2 (proj2
           (parseInput_strips_spaces " 5, null ,8"))))) "nul" Hne).
Defined.

Lemma null_token_consumes_position_witness :
  arrayAt [JSString "1"; JSNull; JSString "2"] 1 = JSNull
  ∧ leftChildBlock [JSString "1"; JSNull; JSString "2"] 0 [] 1
      (empty_store 0 0)
    = Some (([], 2), empty_store 0 0).
Proof.
  split; [reflexivity|].
  exact (proj1 (proj2 null_token_consumes_position
                  [JSString "1"; JSNull; JSString "2"] 0 [] 1
                  (empty_store 0 0) eq_refl)).
Defined.

Lemma layout_leaves_nodes_unchanged_witness :
  repr (nodes sample_store) (Some 0) sample_tree
  ∧ depth sample_tree ≤ 3
  ∧ ∃ st', drawBTree 3 0 sample_store = Some (tt, st')
           ∧ nodes st' = nodes sample_store
           ∧ repr (nodes st') (Some 0) sample_tree.
Proof.
  split; [exact sample_repr|]. split; [exact sample_depth|].
  exact (proj1 (layout_leaves_nodes_unchanged sample_store 0 sample_tree 3
                  sample_repr sample_depth)).
Defined.

(** On the empty input the loop is not entered and the root has the value
    [undefined]. *)
Lemma treeConstructor_terminates_witness :
  length (parseInput "") - 1 ≤ 0
  ∧ (∃ (st' : store) (n : BTreeNode),
       treeConstructor "" (empty_store 0 0) = Some (0, st')
       ∧ nodes st' !! 0 = Some n)
  ∧ ∃ res,
      fillLoop 0 (parseInput "") [0] 1
        (with_nodes (empty_store 0 0) [mkBTreeNode JSUndefined None None])
      = Some res.
Proof.
  assert (length (parseInput "") - 1 ≤ 0) as Hfuel by (vm_compute; lia).
  split; [exact Hfuel|].
  destruct (treeConstructor_terminates "" (empty_store 0 0))
    as (Hret & _ & Hany).
  split; [exact Hret|].
  destruct (Hany 0 Hfuel) as (res & Hres & _).
  exists res. exact Hres.
Defined.

(** * Further properties *)

(** ** Parsing *)

Lemma length_split (sep : ascii) (s : string) :
  length (split sep s) = S (countChar sep s).
Proof.
  induction s as [|c rest IH]; [done|].
  cbn [split countChar]. destruct (Ascii.eqb c sep).
  - simpl. by rewrite IH.
  - destruct (split sep rest) as [|piece pieces]; simpl in *; lia.
Qed.

Lemma countChar_comma_notSpace (s : string) :
  countChar "," (filterString notSpace s) = countChar "," s.
Proof.
  induction s as [|c rest IH]; [done|].
  cbn [filterString countChar]. unfold notSpace at 1.
  destruct (Ascii.eqb_spec c " ") as [->|Hne]; simpl; [done|].
  by rewrite IH.
Qed.

Lemma split_keeps_absent (c sep : ascii) (s : string) :
  occurs c s = false →
  Forall (λ piece, occurs c piece = false) (split sep s).
Proof.
  induction s as [|d rest IH]; intros Hocc.
  - by repeat constructor.
  - simpl in Hocc. apply orb_false_iff in Hocc as [Hd Hrest].
    specialize (IH Hrest). cbn [split]. destruct (Ascii.eqb d sep).
    + by constructor.
    + destruct (split sep rest) as [|piece pieces].
      * repeat constructor. simpl. by rewrite Hd.
      * inversion IH; subst. constructor; [|done]. simpl. by rewrite Hd.
Qed.

(** X1. [parseInput] returns one token more than the input has commas (so
    never an empty array); no token is [undefined]; a token that is a string
    is not the word null and contains neither a comma nor a space. *)
Theorem parseInput_tokens (inputVal : string) :
  length (parseInput inputVal) = 1 + countChar "," inputVal
  ∧ Forall (λ v, match v with
                 | JSUndefined => False
                 | JSNull => True
                 | JSString e =>
                     e ≠ "null" ∧ occurs "," e = false
                     ∧ occurs " " e = false
                 end) (parseInput inputVal).
Proof.
  unfold parseInput. rewrite stripSpaces_filter. split.
  - by rewrite length_map, length_split, countChar_comma_notSpace.
  - apply Forall_map.
    pose proof (split_no_sep "," (filterString notSpace inputVal)) as Hc.
    pose proof (split_keeps_absent " " "," _
                  (filterString_notSpace_no_space inputVal)) as Hs.
    rewrite Forall_forall in Hc, Hs. apply Forall_forall.
    intros e He. destruct (String.eqb_spec e "null") as [->|Hne]; [done|].
    auto.
Qed.

(** ** Objects *)

Lemma run_bind_none {A B : Type} (m : M A) (f : A → M B) (st : store) :
  m st = None → (m ≫= f) st = None.
Proof. intros H. unfold mbind, M_bind. by rewrite H. Qed.

(** X2. On an existing object the two setters succeed and replace exactly
    the slot they name, whatever it held and whatever they are given: the
    value, the other slot, every other object, the canvas and the window
    stay as they were, and the two setters can be called in either order. *)
Theorem setters_replace_one_slot (st : store) (this : ref) (n : BTreeNode)
    (v w : option ref) :
  nodes st !! this = Some n →
  ∃ st1 st2 st1' : store,
    setLeftChild this v st = Some (tt, st1)
    ∧ setRightChild this w st1 = Some (tt, st2)
    ∧ setRightChild this w st = Some (tt, st1')
    ∧ setLeftChild this v st1' = Some (tt, st2)
    ∧ nodes st2 !! this = Some (mkBTreeNode (value n) v w)
    ∧ nodes st1 !! this = Some (mkBTreeNode (value n) v (rightChild n))
    ∧ (∀ a, a ≠ this → nodes st2 !! a = nodes st !! a)
    ∧ length (nodes st2) = length (nodes st)
    ∧ canvasEl st2 = canvasEl st
    ∧ innerWidth st2 = innerWidth st ∧ innerHeight st2 = innerHeight st.
Proof.
  intros Hn. pose proof (lookup_lt_Some _ _ _ Hn) as Hlt.
  assert (HL : ∀ (s : store) (m : BTreeNode) (c : option ref),
             nodes s !! this = Some m →
             setLeftChild this c s
             = Some (tt, with_nodes s
                           (<[this := mkBTreeNode (value m) c (rightChild m)]>
                              (nodes s)))).
  { intros s m c Hm. unfold setLeftChild. by rewrite Hm. }
  assert (HR : ∀ (s : store) (m : BTreeNode) (c : option ref),
             nodes s !! this = Some m →
             setRightChild this c s
             = Some (tt, with_nodes s
                           (<[this := mkBTreeNode (value m) (leftChild m) c]>
                              (nodes s)))).
  { intros s m c Hm. unfold setRightChild. by rewrite Hm. }
  eexists _, _, _.
  split; [exact (HL st n v Hn)|].
  split.
  { rewrite (HR _ (mkBTreeNode (value n) v (rightChild n)) w)
      by (by apply list_lookup_insert_eq).
    reflexivity. }
  split; [exact (HR st n w Hn)|].
  split.
  { rewrite (HL _ (mkBTreeNode (value n) (leftChild n) w) v)
      by (by apply list_lookup_insert_eq).
    cbn [nodes with_nodes value leftChild rightChild].
    by rewrite !list_insert_insert_eq. }
  cbn [nodes with_nodes canvasEl innerWidth innerHeight value leftChild
       rightChild].
  split; [by rewrite list_lookup_insert_eq by (by rewrite length_insert)|].
  split; [by rewrite list_lookup_insert_eq|].
  split; [intros a Ha; by rewrite !list_lookup_insert_ne|].
  by rewrite !length_insert.
Qed.

Lemma setters_replace_one_slot_witness :
  nodes sample_store !! 2 = Some (mkBTreeNode (JSString "8") None (Some 5))
  ∧ ∃ st1 st2 st1' : store,
      setLeftChild 2 (Some 4) sample_store = Some (tt, st1)
      ∧ setRightChild 2 None st1 = Some (tt, st2)
      ∧ setRightChild 2 None sample_store = Some (tt, st1')
      ∧ setLeftChild 2 (Some 4) st1' = Some (tt, st2)
      ∧ nodes st2 !! 2 = Some (mkBTreeNode (JSString "8") (Some 4) None)
      ∧ nodes st1 !! 2 = Some (mkBTreeNode (JSString "8") (Some 4) (Some 5))
      ∧ (∀ a, a ≠ 2 → nodes st2 !! a = nodes sample_store !! a)
      ∧ length (nodes st2) = length (nodes sample_store)
      ∧ canvasEl st2 = canvasEl sample_store
      ∧ innerWidth st2 = innerWidth sample_store
      ∧ innerHeight st2 = innerHeight sample_store.
Proof.
  assert (nodes sample_store !! 2
          = Some (mkBTreeNode (JSString "8") None (Some 5))) as Hn
    by (vm_compute; reflexivity).
  split; [exact Hn|].
  exact (setters_replace_one_slot sample_store 2 _ (Some 4) None Hn).
Defined.

(** X3. The setters do not check what they are given.  Once the object
    graph has a cycle (every object of some set has a child in the set),
    [getBTreeHeight] on an object of the cycle returns for no depth of the
    call stack, and neither do [getRequiredHeightWidth] and [drawBTree]. *)
Theorem cyclic_graph_never_returns (st : store) (C : ref → Prop) :
  cyclic (nodes st) C →
  ∀ (fuel : nat) (a : ref),
    C a →
    getBTreeHeight fuel a st = None
    ∧ getRequiredHeightWidth fuel a st = None
    ∧ drawBTree fuel a st = None.
Proof.
  intros Hcyc.
  assert (Hheight : ∀ (s : store) (fuel : nat) (a : ref),
             nodes s = nodes st → C a → getBTreeHeight fuel a s = None).
  { intros s fuel. induction fuel as [|fuel IH]; intros a Hs Ca; [done|].
    destruct (Hcyc a Ca) as (n & c & Hn & Hchild & Cc).
    rewrite <- Hs in Hn.
    cbn [getBTreeHeight]. mstep (run_get_leftChild _ _ _ Hn).
    destruct (leftChild n) as [lc|] eqn:El.
    - destruct (getBTreeHeight fuel lc s) as [[hl s1]|] eqn:Eleft.
      + pose proof (getBTreeHeight_frame _ _ _ _ _ Eleft) as ->.
        destruct Hchild as [[= ->]|Hright].
        { by rewrite (IH c Hs Cc) in Eleft. }
        rewrite (run_bind _ _ s s (Some hl)) by (by mstep Eleft).
        mstep (run_get_rightChild _ _ _ Hn). rewrite Hright.
        apply run_bind_none. apply run_bind_none. by apply IH.
      + apply run_bind_none. by apply run_bind_none.
    - destruct Hchild as [?|Hright]; [done|].
      rewrite (run_bind _ _ s s None) by done.
      mstep (run_get_rightChild _ _ _ Hn). rewrite Hright.
      apply run_bind_none. apply run_bind_none. by apply IH. }
  intros fuel a Ca. split; [by apply Hheight|]. split.
  - unfold getRequiredHeightWidth. apply run_bind_none. by apply Hheight.
  - unfold drawBTree.
    rewrite (run_bind window_innerWidth _ st st (innerWidth st) eq_refl).
    rewrite (run_bind window_innerHeight _ st st (innerHeight st) eq_refl).
    set (st1 := with_canvas st (mkCanvas (innerWidth st) (height (canvasEl st))
                                         (calls (canvasEl st)))).
    rewrite (run_bind (set_width (innerWidth st)) _ st st1 tt eq_refl).
    rewrite (run_bind (set_height (innerHeight st)) _ st1 (resized st) tt
               eq_refl).
    apply run_bind_none. unfold getRequiredHeightWidth.
    apply run_bind_none. by apply Hheight.
Qed.

(** A node made its own left child: no height, no drawing. *)
Lemma cyclic_graph_never_returns_witness :
  cyclic [mkBTreeNode (JSString "1") (Some 0) None] (λ a, a = 0)
  ∧ setLeftChild 0 (Some 0)
      (with_nodes (empty_store 0 0) [mkBTreeNode (JSString "1") None None])
    = Some (tt, with_nodes (empty_store 0 0)
                  [mkBTreeNode (JSString "1") (Some 0) None])
  ∧ getBTreeHeight 1000 0
      (with_nodes (empty_store 0 0) [mkBTreeNode (JSString "1") (Some 0) None])
    = None.
Proof.
  assert (cyclic [mkBTreeNode (JSString "1") (Some 0) None] (λ a, a = 0))
    as Hcyc.
  { intros a ->. eexists _, 0. split; [reflexivity|]. split; [by left|done]. }
  split; [exact Hcyc|]. split; [reflexivity|].
  exact (proj1 (cyclic_graph_never_returns
                  (with_nodes (empty_store 0 0)
                     [mkBTreeNode (JSString "1") (Some 0) None])
                  (λ a, a = 0) Hcyc 1000 0 eq_refl)).
Defined.

(** ** Construction *)

Lemma countPresent_le_length (l : list jsval) : countPresent l ≤ length l.
Proof. unfold countPresent. apply length_filter. Qed.

Lemma countPresent_take_bound (l : list jsval) (idx : nat) :
  1 ≤ idx → countPresent (take idx l) + 1 ≤ present (arrayAt l 0) + idx.
Proof.
  intros Hidx. destruct idx as [|idx]; [lia|]. destruct l as [|tok0 rest].
  - simpl. change (countPresent []) with 0. lia.
  - cbn [take]. rewrite countPresent_cons.
    change (arrayAt (tok0 :: rest) 0) with tok0.
    pose proof (countPresent_le_length (take idx rest)) as Hle.
    rewrite length_take in Hle. lia.
Qed.

(** X4. An input without a comma, the empty input included, gives one node
    holding the first raw character ([undefined] for the empty input), of
    height 1, and changes nothing else in the store. *)
Theorem input_without_comma_single_node (input : string) (st : store) :
  countChar "," input = 0 →
  treeConstructor input st
  = Some (length (nodes st),
          with_nodes st (nodes st ++ [mkBTreeNode (charAt input 0) None None]))
  ∧ getBTreeHeight 1 (length (nodes st))
      (with_nodes st (nodes st ++ [mkBTreeNode (charAt input 0) None None]))
    = Some (1%Z,
            with_nodes st
              (nodes st ++ [mkBTreeNode (charAt input 0) None None])).
Proof.
  intros Hcomma.
  assert (length (parseInput input) = 1) as Hlen.
  { unfold parseInput.
    by rewrite length_map, stripSpaces_filter, length_split,
         countChar_comma_notSpace, Hcomma. }
  split.
  - unfold treeConstructor.
    rewrite (run_bind (newBTreeNode _) _ st _ (length (nodes st)) eq_refl).
    cbn [app Nat.add].
    assert ([length (nodes st)] = [] ∨ length (parseInput input) ≤ 1)
      as Hexit by (right; lia).
    by mstep (fillLoop_exit (parseInput input) (length (parseInput input))
                [length (nodes st)] 1 _ Hexit).
  - apply (getBTreeHeight_run _ (Obj Null (length (nodes st))
                                   (charAt input 0) Null)); [|simpl; lia].
    apply (repr_obj _ _ (mkBTreeNode (charAt input 0) None None));
      [|constructor..].
    simpl. by rewrite list_lookup_middle.
Qed.

Lemma input_without_comma_single_node_witness :
  countChar "," "" = 0
  ∧ treeConstructor "" (empty_store 0 0)
    = Some (0, with_nodes (empty_store 0 0)
                 [mkBTreeNode JSUndefined None None]).
Proof.
  split; [reflexivity|].
  exact (proj1 (input_without_comma_single_node "" (empty_store 0 0) eq_refl)).
Defined.

(** X5. [treeConstructor] only allocates: the objects that were in the
    store, the canvas and the window are untouched; it makes between one
    object and as many as there are tokens; these are exactly the nodes of
    the tree it returns, whose root is the first of them and whose height is
    at most their number. *)
Theorem treeConstructor_only_allocates (input : string) (st : store) :
  ∃ (st' : store) (t : tree),
    treeConstructor input st = Some (length (nodes st), st')
    ∧ take (length (nodes st)) (nodes st') = nodes st
    ∧ canvasEl st' = canvasEl st
    ∧ innerWidth st' = innerWidth st ∧ innerHeight st' = innerHeight st
    ∧ repr (nodes st') (Some (length (nodes st))) t
    ∧ addrs t ≡ₚ seq (length (nodes st)) (size t)
    ∧ length (nodes st') = length (nodes st) + size t
    ∧ 1 ≤ size t ≤ length (parseInput input)
    ∧ (treeHeight t ≤ Z.of_nat (size t))%Z.
Proof.
  destruct (treeConstructor_spec input st)
    as (st' & t & q' & i' & n & Hrun & Hinv & _ & _ & _ & _ & _ & _ & Hpres).
  destruct Hinv as [H1 H2 H3 H4 H5 H6 H7].
  destruct Hpres as (Est & Hlen & Hold).
  assert (size t = length (nodes st') - length (nodes st)) as Hsize.
  { by rewrite size_addrs, H2, length_seq. }
  exists st', t. split; [done|]. split.
  { apply list_eq. intros i.
    destruct (Nat.lt_ge_cases i (length (nodes st))) as [Hlt|Hge].
    - rewrite lookup_take_lt by done.
      destruct (lookup_lt_is_Some_2 _ _ Hlt) as [m Hm].
      destruct (Hold i m Hm) as (m' & Hm' & _ & Hsame).
      rewrite Hm, Hm'. by rewrite Hsame.
    - rewrite lookup_take_ge by done. by rewrite lookup_ge_None_2. }
  split; [by rewrite Est|]. split; [by rewrite Est|].
  split; [by rewrite Est|]. split; [done|].
  split; [by rewrite Hsize|]. split; [lia|]. split.
  { pose proof (countPresent_take_bound (parseInput input) i' ltac:(lia)).
    lia. }
  rewrite treeHeight_depth. pose proof (depth_le_size t). lia.
Qed.

Lemma blockResult_queue (left : bool) (newinput : list jsval) (node : ref)
    (n : BTreeNode) (queue queue' : list ref) (idx idx' : nat)
    (st st' : store) :
  nodes st !! node = Some n →
  blockResult left newinput node n queue idx st = ((queue', idx'), st') →
  queue' = queue ++ seq (length (nodes st))
                        (length (nodes st') - length (nodes st))
  ∧ length (nodes st) ≤ length (nodes st')
  ∧ ∃ n', nodes st' !! node = Some n'.
Proof.
  intros Hn Hres. pose proof (lookup_lt_Some _ _ _ Hn) as Hlt.
  unfold blockResult in Hres.
  destruct (idx <? length newinput)%nat;
    [destruct (decide (arrayAt newinput idx ≠ JSNull))|];
    injection Hres as <- <- <-.
  - cbn [nodes with_nodes]. rewrite length_attach.
    replace (S (length (nodes st)) - length (nodes st)) with 1 by lia.
    split; [done|]. split; [lia|]. eexists. by apply attach_lookup_node.
  - rewrite Nat.sub_diag. simpl. rewrite app_nil_r. eauto.
  - rewrite Nat.sub_diag. simpl. rewrite app_nil_r. eauto.
Qed.

(** The queue after a pass through the loop body: the nodes made in the
    pass, in the order they were made, behind those that were waiting. *)
Lemma iteration_queue (newinput : list jsval) (node : ref) (n : BTreeNode)
    (queue queue' : list ref) (idx idx' : nat) (st st' : store) :
  nodes st !! node = Some n →
  iteration newinput node queue idx st = Some ((queue', idx'), st') →
  queue' = queue ++ seq (length (nodes st))
                        (length (nodes st') - length (nodes st))
  ∧ length (nodes st) ≤ length (nodes st').
Proof.
  intros Hn Hrun. unfold iteration in Hrun.
  apply run_bind_inv in Hrun as ([q1 i1] & s1 & Hleft & Hright).
  rewrite (leftChildBlock_run _ _ _ _ _ _ Hn) in Hleft.
  injection Hleft as Hleft.
  destruct (blockResult_queue _ _ _ _ _ _ _ _ _ _ Hn Hleft)
    as (-> & Hle1 & n1 & Hn1).
  rewrite (rightChildBlock_run _ _ _ _ _ _ Hn1) in Hright.
  injection Hright as Hright.
  destruct (blockResult_queue _ _ _ _ _ _ _ _ _ _ Hn1 Hright)
    as (-> & Hle2 & _).
  split; [|lia]. rewrite <- app_assoc. f_equal.
  replace (length (nodes st') - length (nodes st))
    with ((length (nodes s1) - length (nodes st))
          + (length (nodes st') - length (nodes s1))) by lia.
  rewrite seq_app. do 2 f_equal. lia.
Qed.

Section Order.

Context (base : nat) (newinput : list jsval).

(** The loop fills the slots in the order of the tokens: when it is entered
    with [idx = 2p + 1] and the nodes from the [p]-th on waiting, it leaves
    every node with its slots filled from the tokens it has read. *)
Lemma fillLoop_order (fuel : nat) :
  ∀ (st : store) (queue : list ref) (idx : nat) (t : tree) (p : nat)
    (queue' : list ref) (idx' : nat) (st' : store),
    buildInv base newinput (nodes st) queue idx t →
    idx = 2 * p + 1 →
    base + p ≤ length (nodes st) →
    queue = seq (base + p) (length (nodes st) - (base + p)) →
    filledUpTo base newinput (nodes st) idx →
    fillLoop fuel newinput queue idx st = Some ((queue', idx'), st') →
    filledUpTo base newinput (nodes st') idx'
    ∧ (idx' = length newinput
       ∨ idx' = 2 * (length (nodes st') - base) + 1).
Proof.
  induction fuel as [|fuel IH];
    intros st queue idx t p queue' idx' st' Hinv Hidx Hp Hq Hfilled Hrun.
  - cbn [fillLoop] in Hrun.
    destruct ((0 <? length queue)%nat && (idx <? length newinput)%nat)
      eqn:Hc; [done|].
    injection Hrun as <- <- <-. split; [done|].
    pose proof (inv_idx _ _ _ _ _ _ Hinv) as Hi.
    apply andb_false_iff in Hc as [Hc|Hc].
    + right. apply Nat.ltb_ge in Hc. rewrite Hq, length_seq in Hc. lia.
    + left. apply Nat.ltb_ge in Hc. lia.
  - pose proof (inv_idx _ _ _ _ _ _ Hinv) as Hi.
    destruct (decide (queue = [] ∨ length newinput ≤ idx)) as [Hexit|Hgo].
    { rewrite fillLoop_exit in Hrun by done.
      injection Hrun as <- <- <-. split; [done|].
      destruct Hexit as [Hnil|Hge]; [right|left; lia].
      rewrite Hnil in Hq. apply (f_equal length) in Hq.
      rewrite length_seq in Hq. simpl in Hq. lia. }
    assert (idx < length newinput) as Hlt.
    { destruct (Nat.lt_ge_cases idx (length newinput)); [done|].
      destruct Hgo. by right. }
    destruct queue as [|node queue]; [destruct Hgo; by left|].
    destruct (length (nodes st) - (base + p)) as [|waiting] eqn:Ew;
      [done|].
    cbn [seq] in Hq. injection Hq as -> Hq.
    destruct (iteration_spec base newinput _ _ _ _ _ Hinv Hlt)
      as (q1 & i1 & s1 & t1 & n & n1 & Hit & Hinv1 & Hn & Hn1 & V1 & CL & CR
          & I1 & L1 & P1 & Q1).
    destruct (iteration_queue _ _ _ _ _ _ _ _ _ Hn Hit) as [Hq1 Hle1].
    rewrite fillLoop_unfold, Hit in Hrun by done.
    assert (Hfilled1 : filledUpTo base newinput (nodes s1) i1).
    { intros k m Hm.
      destruct (decide (k = p)) as [->|Hkp].
      - rewrite Hn1 in Hm. injection Hm as <-.
        assert ((2 * p + 1 <? i1)%nat = true) as ->.
        { apply Nat.ltb_lt. rewrite I1.
          destruct (idx + 1 <? length newinput)%nat; lia. }
        rewrite <- Hidx. split; [done|].
        replace (2 * p + 2) with (idx + 1) by lia.
        rewrite I1.
        destruct (Nat.ltb_spec (idx + 1) (length newinput)) as [Hlt1|Hge1].
        + by replace (idx + 1 <? idx + 2)%nat with true
            by (symmetry; apply Nat.ltb_lt; lia).
        + rewrite Nat.ltb_irrefl.
          by rewrite childToken_past_end in CR by done.
      - destruct (Nat.lt_ge_cases (base + k) (length (nodes st)))
          as [Hold|Hnew].
        + destruct (lookup_lt_is_Some_2 _ _ Hold) as [m0 Hm0].
          destruct P1 as (E1 & Hlen1 & F1).
          destruct (F1 _ _ Hm0) as (m' & Hm' & _ & Hsame).
          rewrite Hm in Hm'. injection Hm' as <-.
          rewrite Hsame by lia.
          destruct (Hfilled k m0 Hm0) as [HL HR].
          assert (Hkeep : ∀ c tok, childSlot (nodes st) c tok →
                                   childSlot (nodes s1) c tok).
          { intros c tok. apply (childSlot_preserved (λ a, a ≠ base + p)).
            by split. }
          assert (((2 * k + 1 <? i1) = (2 * k + 1 <? idx))%nat
                  ∧ ((2 * k + 2 <? i1) = (2 * k + 2 <? idx))%nat)
            as [-> ->]; [|by split; apply Hkeep].
          assert (idx < i1 ≤ idx + 2) as Hi1.
          { rewrite I1. destruct (idx + 1 <? length newinput)%nat; lia. }
          destruct (Nat.lt_ge_cases k p).
          * split; (transitivity true;
              [apply Nat.ltb_lt | symmetry; apply Nat.ltb_lt]; lia).
          * split; (transitivity false;
              [apply Nat.ltb_ge | symmetry; apply Nat.ltb_ge]; lia).
        + assert (base + k ∈ q1) as Hin.
          { rewrite Hq1. apply elem_of_app. right. apply elem_of_seq.
            apply lookup_lt_Some in Hm. lia. }
          destruct (inv_leaf _ _ _ _ _ _ Hinv1 _ Hin) as (_ & v & Hv).
          rewrite Hv in Hm. injection Hm as <-. simpl.
          assert (i1 ≤ idx + 2) as Hi1.
          { rewrite I1. destruct (idx + 1 <? length newinput)%nat; lia. }
          by do 2 rewrite (proj2 (Nat.ltb_ge _ _)) by lia. }
    revert I1 L1.
    destruct (Nat.ltb_spec (idx + 1) (length newinput)) as [Hlt1|Hge1];
      intros I1 L1.
    + apply (IH s1 q1 i1 t1 (S p) queue' idx' st' Hinv1); try done; try lia.
      rewrite Hq1, Hq.
      replace (length (nodes s1) - (base + S p))
        with (waiting + (length (nodes s1) - length (nodes st))) by lia.
      rewrite seq_app. do 2 f_equal; lia.
    + rewrite fillLoop_exit in Hrun by (right; lia).
      injection Hrun as <- <- <-. split; [done|]. left. lia.
Qed.

End Order.

(** X6. The tree is filled in level order.  Counting the objects in the
    order [treeConstructor] makes them, the root first, the object number
    [k] has its left slot filled from token [2k+1] and its right slot from
    token [2k+2]: the slot is empty for the null sentinel and otherwise
    refers to an object whose value is the token.  Tokens from [idx'] on
    are not read and their slots stay empty; all tokens are read unless
    every object made has had both its tokens. *)
Theorem level_order_placement (input : string) (st : store) :
  ∃ (st' : store) (idx' : nat),
    treeConstructor input st = Some (length (nodes st), st')
    ∧ 1 ≤ idx' ≤ length (parseInput input)
    ∧ (idx' = length (parseInput input)
       ∨ idx' = 2 * (length (nodes st') - length (nodes st)) + 1)
    ∧ ∀ (k : nat) (n : BTreeNode),
        nodes st' !! (length (nodes st) + k) = Some n →
        childSlot (nodes st') (leftChild n)
          (if (2 * k + 1 <? idx')%nat
           then childToken (parseInput input) (2 * k + 1) else None)
        ∧ childSlot (nodes st') (rightChild n)
            (if (2 * k + 2 <? idx')%nat
             then childToken (parseInput input) (2 * k + 2) else None).
Proof.
  set (newinput := parseInput input). set (base := length (nodes st)).
  set (leaf := mkBTreeNode (charAt input 0) None None).
  set (st0 := with_nodes st (nodes st ++ [leaf])).
  pose proof (length_parseInput input) as Hlen. fold newinput in Hlen.
  pose proof (buildInv_init input (nodes st)) as Hinv0.
  fold newinput base leaf in Hinv0.
  change (nodes st ++ [leaf]) with (nodes st0) in Hinv0.
  destruct (fillLoop_spec base newinput (length newinput) st0 [base] 1 _
              Hinv0 ltac:(lia))
    as (q' & i' & st' & t' & Hrun & Hinv & _).
  assert (length (nodes st0) = base + 1) as Hlen0.
  { subst st0. cbn [nodes with_nodes]. rewrite length_app. done. }
  destruct (fillLoop_order base newinput (length newinput) st0 [base] 1 _ 0
              q' i' st' Hinv0) as [Hfilled Hidx]; try done.
  { lia. }
  { rewrite Hlen0, Nat.add_0_r.
    by replace (base + 1 - base) with 1 by lia. }
  { intros k m Hm. pose proof (lookup_lt_Some _ _ _ Hm) as Hk.
    assert (k = 0) as -> by lia.
    rewrite Nat.add_0_r in Hm. subst st0. cbn [nodes with_nodes] in Hm.
    rewrite list_lookup_middle in Hm by done. injection Hm as <-. done. }
  exists st', i'. split.
  { unfold treeConstructor. fold newinput.
    rewrite (run_bind (newBTreeNode _) _ st st0 base eq_refl).
    cbn [app Nat.add]. by mstep Hrun. }
  split; [exact (inv_idx _ _ _ _ _ _ Hinv)|]. split; [done|]. exact Hfilled.
Qed.

(** ** Drawing *)

Lemma moves_app (cs cs' : list ctx_call) :
  moves (cs ++ cs') = moves cs ++ moves cs'.
Proof. apply flat_map_app. Qed.

Lemma curveEnds_app (cs cs' : list ctx_call) :
  curveEnds (cs ++ cs') = curveEnds cs ++ curveEnds cs'.
Proof. apply flat_map_app. Qed.

Lemma callsOf_drawNode (v : jsval) (x y : double) :
  callsOf (drawNode v x y)
  = [beginPath;
     arc x y (radius DEFAULT_NODE_CONFIG) 0 (2 * Math_PI)%D false;
     set_fillStyle "#000000"; fill;
     beginPath;
     arc x y (radius DEFAULT_NODE_CONFIG) 0 (2 * Math_PI)%D false;
     set_lineWidth 3; set_strokeStyle "#b994f6"; stroke;
     set_font (fontSize DEFAULT_NODE_CONFIG) "serif";
     set_fillStyle "#ffffff"; set_textAlign "center";
     fillText v x (y + fontSize DEFAULT_NODE_CONFIG / 3)%D].
Proof. apply callsOf_emits, drawNode_emits. Qed.

Lemma callsOf_connectEdges (xc : xCordinates) (yc : yCordinates) :
  callsOf (connectEdges xc yc)
  = [beginPath; set_strokeStyle "#ffffff"; set_lineWidth 1;
     moveTo (xStart xc) (yStart yc);
     bezierCurveTo ((xStart xc + xEnd xc) / 2)%D
                   ((yStart yc + yEnd yc) / 2)%D
                   (xEnd xc) ((yStart yc + yEnd yc) / 2)%D
                   (xEnd xc) (yEnd yc);
     stroke].
Proof. apply callsOf_emits, connectEdges_emits. Qed.

Lemma layout_nodes (t : tree) :
  ∀ L xs xe : double,
    map p_node (layout t L xs xe) = addrs t
    ∧ map p_value (layout t L xs xe) = preorderValues t.
Proof.
  induction t as [|l IHl a v r IHr]; intros L xs xe; [done|].
  cbn [layout map addrs preorderValues]. rewrite !map_app.
  destruct (IHl (L + 1)%D xs ((xs + xe) / 2)%D) as [-> ->].
  by destruct (IHr (L + 1)%D ((xs + xe) / 2)%D xe) as [-> ->].
Qed.

Lemma length_layout (t : tree) (L xs xe : double) :
  length (layout t L xs xe) = size t.
Proof.
  rewrite size_addrs, <- (proj1 (layout_nodes t L xs xe)).
  by rewrite length_map.
Qed.

(** The curves of a pass: one for each parent-child pair, from the lowest
    point of the parent's circle to the highest point of the child's. *)
Lemma edges_render (t : tree) :
  ∀ L xs xe : double,
    moves (render t L xs xe)
    = map (λ e, (p_x (fst e), (p_y (fst e) + radius DEFAULT_NODE_CONFIG)%D))
          (links t L xs xe)
    ∧ curveEnds (render t L xs xe)
      = map (λ e, (p_x (snd e), (p_y (snd e) - radius DEFAULT_NODE_CONFIG)%D))
            (links t L xs xe).
Proof.
  induction t as [|l IHl a v r IHr]; intros L xs xe; [done|].
  cbn [render links]. rewrite callsOf_drawNode.
  rewrite !moves_app, !curveEnds_app, !map_app.
  change (moves [_; _; _; _; _; _; _; _; _; _; _; _; _]) with (@nil (double * double)).
  change (curveEnds [_; _; _; _; _; _; _; _; _; _; _; _; _])
    with (@nil (double * double)).
  cbn [app].
  destruct (IHl (L + 1)%D xs ((xs + xe) / 2)%D) as [IHl1 IHl2].
  destruct (IHr (L + 1)%D ((xs + xe) / 2)%D xe) as [IHr1 IHr2].
  assert (Hside : ∀ (s : tree) (a' b' : double),
    moves (render s (L + 1)%D a' b')
    = map (λ e, (p_x (fst e), (p_y (fst e) + radius DEFAULT_NODE_CONFIG)%D))
          (links s (L + 1)%D a' b') →
    curveEnds (render s (L + 1)%D a' b')
    = map (λ e, (p_x (snd e), (p_y (snd e) - radius DEFAULT_NODE_CONFIG)%D))
          (links s (L + 1)%D a' b') →
    let me := mkPlacement a v L xs xe ((xs + xe) / 2)%D
                (L * nodeHeightSpacing DEFAULT_NODE_CONFIG)%D in
    let cs := match s with
              | Null => []
              | Obj _ _ _ _ =>
                  render s (L + 1)%D a' b'
                  ++ callsOf
                       (connectEdges
                          (mkX ((xs + xe) / 2)%D ((a' + b') / 2)%D)
                          (mkY (L * nodeHeightSpacing DEFAULT_NODE_CONFIG
                                + radius DEFAULT_NODE_CONFIG)%D
                               ((L + 1)
                                * nodeHeightSpacing DEFAULT_NODE_CONFIG
                                - radius DEFAULT_NODE_CONFIG)%D))
              end in
    let es := match layout s (L + 1)%D a' b' with
              | child :: _ => links s (L + 1)%D a' b' ++ [(me, child)]
              | [] => []
              end in
    moves cs
    = map (λ e, (p_x (fst e), (p_y (fst e) + radius DEFAULT_NODE_CONFIG)%D))
          es
    ∧ curveEnds cs
      = map (λ e, (p_x (snd e), (p_y (snd e) - radius DEFAULT_NODE_CONFIG)%D))
            es).
  { intros s a' b' H1 H2. destruct s as [|sl sa sv sr]; [done|].
    cbn zeta. cbn [layout].
    rewrite moves_app, curveEnds_app, !map_app, H1, H2.
    rewrite callsOf_connectEdges. done. }
  destruct (Hside l xs ((xs + xe) / 2)%D IHl1 IHl2) as [-> ->].
  by destruct (Hside r ((xs + xe) / 2)%D xe IHr1 IHr2) as [-> ->].
Qed.

Lemma links_children (t : tree) :
  ∀ L xs xe : double,
    map snd (links t L xs xe) ≡ₚ tail (layout t L xs xe)
    ∧ Forall (λ e, fst e ∈ layout t L xs xe
                   ∧ (p_level (snd e) = p_level (fst e) + 1)%D)
             (links t L xs xe).
Proof.
  induction t as [|l IHl a v r IHr]; intros L xs xe; [by split|].
  cbn [links layout tail].
  set (x := ((xs + xe) / 2)%D).
  set (me := mkPlacement a v L xs xe x
               (L * nodeHeightSpacing DEFAULT_NODE_CONFIG)%D).
  assert (Hside : ∀ (s : tree) (a' b' : double) (rest : list placement),
    (map snd (links s (L + 1)%D a' b') ≡ₚ tail (layout s (L + 1)%D a' b')
     ∧ Forall (λ e, fst e ∈ layout s (L + 1)%D a' b'
                    ∧ (p_level (snd e) = p_level (fst e) + 1)%D)
              (links s (L + 1)%D a' b')) →
    (∀ p, p ∈ layout s (L + 1)%D a' b' → p ∈ me :: rest) →
    let es := match layout s (L + 1)%D a' b' with
              | child :: _ => links s (L + 1)%D a' b' ++ [(me, child)]
              | [] => []
              end in
    map snd es ≡ₚ layout s (L + 1)%D a' b'
    ∧ Forall (λ e, fst e ∈ me :: rest
                   ∧ (p_level (snd e) = p_level (fst e) + 1)%D) es).
  { intros s a' b' rest [IH1 IH2] Hsub.
    destruct s as [|sl sa sv sr]; [by split|].
    cbn [layout] in *. cbn zeta. cbn [tail] in IH1. split.
    - rewrite map_app, IH1. cbn [map snd]. symmetry.
      apply Permutation_cons_append.
    - apply Forall_app. split.
      + eapply Forall_impl; [exact IH2|]. intros e [He1 He2].
        split; [by apply Hsub|done].
      + constructor; [|constructor]. split; [|done].
        apply elem_of_cons. by left. }
  destruct (Hside l xs x (layout l (L + 1)%D xs x ++ layout r (L + 1)%D x xe)
              (IHl _ _ _)) as [HL1 HL2].
  { intros p Hp. apply elem_of_cons. right. apply elem_of_app. by left. }
  destruct (Hside r x xe (layout l (L + 1)%D xs x ++ layout r (L + 1)%D x xe)
              (IHr _ _ _)) as [HR1 HR2].
  { intros p Hp. apply elem_of_cons. right. apply elem_of_app. by right. }
  split.
  - by rewrite map_app, HL1, HR1.
  - apply Forall_app. by split.
Qed.

(** X7. What a layout pass puts on the canvas: for every node of the tree,
    once and node first, two circles and a label showing the node's value;
    and one curve for every node but the root, from the lowest point of the
    parent's circle to the highest point of the node's own circle, one level
    down. *)
Theorem drawing_contents (st : store) (root : ref) (t : tree) (fuel : nat)
    (L xs xe : double) :
  repr (nodes st) (Some root) t → depth t ≤ fuel →
  ∃ cs : list ctx_call,
    recursivelyDrawNodes fuel root L (mkX xs xe) st = Some (tt, emit st cs)
    ∧ map (λ c, fst (fst c)) (labels cs) = preorderValues t
    ∧ map p_node (layout t L xs xe) = addrs t
    ∧ length (labels cs) = size t
    ∧ length (circles cs) = 2 * size t
    ∧ length (moves cs) = size t - 1
    ∧ moves cs
      = map (λ e, (p_x (fst e), (p_y (fst e) + radius DEFAULT_NODE_CONFIG)%D))
            (links t L xs xe)
    ∧ curveEnds cs
      = map (λ e, (p_x (snd e), (p_y (snd e) - radius DEFAULT_NODE_CONFIG)%D))
            (links t L xs xe)
    ∧ map snd (links t L xs xe) ≡ₚ tail (layout t L xs xe)
    ∧ Forall (λ e, fst e ∈ layout t L xs xe
                   ∧ (p_level (snd e) = p_level (fst e) + 1)%D)
             (links t L xs xe).
Proof.
  intros Hrep Hfuel. exists (render t L xs xe).
  destruct (edges_render t L xs xe) as [Hm He].
  destruct (links_children t L xs xe) as [Hperm Hlinks].
  destruct (layout_nodes t L xs xe) as [Hnodes Hvalues].
  split; [by apply recursivelyDrawNodes_run|].
  split.
  { rewrite labels_render, map_map. by rewrite <- Hvalues. }
  split; [done|]. split.
  { by rewrite labels_render, length_map, length_layout. }
  split.
  { rewrite circles_render.
    generalize (length_layout t L xs xe).
    generalize (layout t L xs xe) as ps. generalize (size t) as k.
    intros k ps. revert k. induction ps as [|p ps IH]; intros k <-; [done|].
    simpl. rewrite (IH _ eq_refl). lia. }
  split.
  { rewrite Hm, length_map.
    apply Permutation_length in Hperm. rewrite length_map in Hperm.
    rewrite Hperm. pose proof (length_layout t L xs xe) as Hl.
    destruct (layout t L xs xe); simpl in *; lia. }
  done.
Qed.

Lemma drawing_contents_witness :
  repr (nodes sample_store) (Some 0) sample_tree
  ∧ depth sample_tree ≤ 3
  ∧ ∃ cs : list ctx_call,
      recursivelyDrawNodes 3 0 half (mkX 0 800) sample_store
      = Some (tt, emit sample_store cs)
      ∧ map (λ c, fst (fst c)) (labels cs)
        = [JSString "5"; JSString "3"; JSString "1"; JSString "4";
           JSString "8"; JSString "9"]
      ∧ length (moves cs) = 5.
Proof.
  split; [exact sample_repr|]. split; [exact sample_depth|].
  destruct (drawing_contents sample_store 0 sample_tree 3 half 0 800
              sample_repr sample_depth)
    as (cs & Hrun & Hlabels & _ & _ & _ & Hmoves & _).
  exists cs. split; [exact Hrun|]. split; [exact Hlabels|exact Hmoves].
Defined.

Lemma ForallOrdPairs_app {A : Type} (R : A → A → Prop) (l1 l2 : list A) :
  ForallOrdPairs R l1 → ForallOrdPairs R l2 →
  (∀ a b, a ∈ l1 → b ∈ l2 → R a b) →
  ForallOrdPairs R (l1 ++ l2).
Proof.
  induction 1 as [|a l1 Ha Hl1 IH]; intros H2 Hcross; [done|].
  simpl. constructor.
  - apply Forall_app. split; [done|].
    apply Forall_forall. intros b Hb. apply Hcross; [|done].
    apply elem_of_cons. by left.
  - apply IH; [done|]. intros x y Hx Hy. apply Hcross; [|done].
    apply elem_of_cons. by right.
Qed.

(** ** The tree does not depend on the store it is built in *)

Lemma shiftNode_setChild (d : nat) (left : bool) (n : BTreeNode) (c : ref) :
  shiftNode d (setChild left n (Some c))
  = setChild left (shiftNode d n) (Some (d + c)).
Proof. by destruct left. Qed.

Lemma attach_shift (d : nat) (old h0 : list BTreeNode) (left : bool)
    (node0 : ref) (n0 : BTreeNode) (v : jsval) :
  d = length old → node0 < length h0 →
  attach left (d + node0) (shiftNode d n0) v (old ++ map (shiftNode d) h0)
  = old ++ map (shiftNode d) (attach left node0 n0 v h0).
Proof.
  intros -> Hlt. unfold attach.
  rewrite length_app, length_map, <- shiftNode_setChild.
  rewrite list_fmap_insert, fmap_app. cbn [fmap list_fmap].
  rewrite <- app_assoc.
  rewrite insert_app_r_alt by lia.
  by replace (length old + node0 - length old) with node0 by lia.
Qed.

Section Shift.

Context (newinput : list jsval) (old : list BTreeNode).

Let d := length old.

Lemma blockResult_shift (left : bool) (node0 : ref) (n0 : BTreeNode)
    (q0 q0' : list ref) (idx idx' : nat) (st0 st0' st : store) :
  nodes st = old ++ map (shiftNode d) (nodes st0) →
  nodes st0 !! node0 = Some n0 →
  blockResult left newinput node0 n0 q0 idx st0 = ((q0', idx'), st0') →
  ∃ st',
    blockResult left newinput (d + node0) (shiftNode d n0)
      (map (λ a, d + a) q0) idx st
    = ((map (λ a, d + a) q0', idx'), st')
    ∧ nodes st' = old ++ map (shiftNode d) (nodes st0').
Proof.
  intros Hrel Hn0 Hres. pose proof (lookup_lt_Some _ _ _ Hn0) as Hlt.
  unfold blockResult in *.
  destruct (idx <? length newinput)%nat;
    [destruct (decide (arrayAt newinput idx ≠ JSNull))|];
    injection Hres as <- <- <-.
  - eexists. split.
    + rewrite map_app. cbn [map]. rewrite Hrel at 1.
      rewrite length_app, length_map. reflexivity.
    + cbn [nodes with_nodes]. rewrite Hrel. by apply attach_shift.
  - by exists st.
  - by exists st.
Qed.

Lemma lookup_shift (h0 : list BTreeNode) (a : ref) (n0 : BTreeNode) :
  h0 !! a = Some n0 →
  (old ++ map (shiftNode d) h0) !! (d + a) = Some (shiftNode d n0).
Proof.
  intros Hn0. rewrite lookup_app_r by (unfold d; lia).
  replace (d + a - length old) with a by (unfold d; lia).
  by rewrite list_lookup_fmap, Hn0.
Qed.

Lemma iteration_shift (node0 : ref) (n0 : BTreeNode) (q0 q0' : list ref)
    (idx idx' : nat) (st0 st0' st : store) :
  nodes st = old ++ map (shiftNode d) (nodes st0) →
  nodes st0 !! node0 = Some n0 →
  iteration newinput node0 q0 idx st0 = Some ((q0', idx'), st0') →
  ∃ st',
    iteration newinput (d + node0) (map (λ a, d + a) q0) idx st
    = Some ((map (λ a, d + a) q0', idx'), st')
    ∧ nodes st' = old ++ map (shiftNode d) (nodes st0').
Proof.
  intros Hrel Hn0 Hrun. unfold iteration in Hrun.
  apply run_bind_inv in Hrun as ([q1 i1] & s1 & Hleft & Hright).
  rewrite (leftChildBlock_run _ _ _ _ _ _ Hn0) in Hleft.
  injection Hleft as Hleft.
  destruct (blockResult_shift _ _ _ _ _ _ _ _ _ _ Hrel Hn0 Hleft)
    as (s1' & Hleft' & Hrel1).
  destruct (blockResult_queue _ _ _ _ _ _ _ _ _ _ Hn0 Hleft)
    as (_ & _ & n1 & Hn1).
  rewrite (rightChildBlock_run _ _ _ _ _ _ Hn1) in Hright.
  injection Hright as Hright.
  destruct (blockResult_shift _ _ _ _ _ _ _ _ _ _ Hrel1 Hn1 Hright)
    as (s2' & Hright' & Hrel2).
  exists s2'. split; [|done]. unfold iteration.
  assert (nodes st !! (d + node0) = Some (shiftNode d n0)) as Hn.
  { rewrite Hrel. by apply lookup_shift. }
  assert (nodes s1' !! (d + node0) = Some (shiftNode d n1)) as Hn'.
  { rewrite Hrel1. by apply lookup_shift. }
  rewrite (run_bind _ _ st s1' (map (λ a, d + a) q1, i1)).
  - rewrite (rightChildBlock_run _ _ _ _ _ _ Hn'). by rewrite Hright'.
  - rewrite (leftChildBlock_run _ _ _ _ _ _ Hn). by rewrite Hleft'.
Qed.

Lemma fillLoop_shift (fuel : nat) :
  ∀ (q0 q0' : list ref) (idx idx' : nat) (st0 st0' st : store),
    nodes st = old ++ map (shiftNode d) (nodes st0) →
    (∀ a, a ∈ q0 → a < length (nodes st0)) →
    fillLoop fuel newinput q0 idx st0 = Some ((q0', idx'), st0') →
    ∃ st',
      fillLoop fuel newinput (map (λ a, d + a) q0) idx st
      = Some ((map (λ a, d + a) q0', idx'), st')
      ∧ nodes st' = old ++ map (shiftNode d) (nodes st0').
Proof.
  induction fuel as [|fuel IH];
    intros q0 q0' idx idx' st0 st0' st Hrel Hvalid Hrun.
  - cbn [fillLoop] in Hrun |- *. rewrite length_map.
    destruct ((0 <? length q0)%nat && (idx <? length newinput)%nat);
      [done|].
    injection Hrun as <- <- <-. eauto.
  - destruct (decide (q0 = [] ∨ length newinput ≤ idx)) as [Hexit|Hgo].
    { rewrite fillLoop_exit in Hrun by done. injection Hrun as <- <- <-.
      exists st. split; [|done]. apply fillLoop_exit.
      destruct Hexit as [->|?]; [by left|by right]. }
    assert (idx < length newinput) as Hlt.
    { destruct (Nat.lt_ge_cases idx (length newinput)); [done|].
      destruct Hgo. by right. }
    destruct q0 as [|node0 q0]; [destruct Hgo; by left|].
    rewrite fillLoop_unfold in Hrun by done.
    destruct (iteration newinput node0 q0 idx st0)
      as [[[q1 i1] s1]|] eqn:Hit; [|done].
    destruct (lookup_lt_is_Some_2 (nodes st0) node0) as [n0 Hn0].
    { apply Hvalid. apply elem_of_cons. by left. }
    destruct (iteration_shift _ _ _ _ _ _ _ _ _ Hrel Hn0 Hit)
      as (s1' & Hit' & Hrel1).
    destruct (iteration_queue _ _ _ _ _ _ _ _ _ Hn0 Hit) as [Hq1 Hle1].
    destruct (IH q1 q0' i1 idx' s1 st0' s1' Hrel1) as (st' & Hrun' & Hrel');
      [|done|].
    { intros a Ha. rewrite Hq1 in Ha. apply elem_of_app in Ha as [Ha|Ha].
      - specialize (Hvalid a ltac:(apply elem_of_cons; by right)). lia.
      - apply elem_of_seq in Ha. lia. }
    exists st'. split; [|done].
    cbn [map]. rewrite fillLoop_unfold by done. by rewrite Hit'.
Qed.

Lemma repr_shift (h0 : list BTreeNode) (o : option ref) (t : tree) :
  repr h0 o t →
  repr (old ++ map (shiftNode d) h0) ((λ c, d + c) <$> o) (shiftTree d t).
Proof.
  induction 1 as [|a n l r Hn _ IHl _ IHr]; [constructor|].
  cbn [shiftTree fmap option_fmap option_map].
  change (value n) with (value (shiftNode d n)).
  apply repr_obj; [by apply lookup_shift|done..].
Qed.

End Shift.

Lemma render_shiftTree (d : nat) (t : tree) :
  ∀ L xs xe : double, render (shiftTree d t) L xs xe = render t L xs xe.
Proof.
  induction t as [|l IHl a v r IHr]; intros L xs xe; [done|].
  cbn [shiftTree render]. rewrite IHl, IHr.
  by destruct l, r.
Qed.

Lemma shape_shiftTree (d : nat) (t : tree) :
  treeHeight (shiftTree d t) = treeHeight t
  ∧ depth (shiftTree d t) = depth t
  ∧ size (shiftTree d t) = size t
  ∧ preorderValues (shiftTree d t) = preorderValues t.
Proof.
  induction t as [|l (Hl1 & Hl2 & Hl3 & Hl4) a v r (Hr1 & Hr2 & Hr3 & Hr4)];
    [done|].
  simpl. by rewrite Hl1, Hl2, Hl3, Hl4, Hr1, Hr2, Hr3, Hr4.
Qed.

(** The objects built in any store are those built in an empty one, moved
    to the first free reference. *)
Lemma treeConstructor_heap_shift (input : string) (st st' st0' : store) :
  treeConstructor input (empty_store 1280 720) = Some (0, st0') →
  treeConstructor input st = Some (length (nodes st), st') →
  nodes st' = nodes st ++ map (shiftNode (length (nodes st))) (nodes st0').
Proof.
  intros Hrun0 Hrun. set (st_e := empty_store 1280 720) in *.
  unfold treeConstructor in Hrun0, Hrun.
  set (leaf := mkBTreeNode (charAt input 0) None None) in *.
  rewrite (run_bind (newBTreeNode _) _ st_e
             (with_nodes st_e [leaf]) 0 eq_refl) in Hrun0.
  rewrite (run_bind (newBTreeNode _) _ st
             (with_nodes st (nodes st ++ [leaf])) (length (nodes st)) eq_refl)
    in Hrun.
  cbn [app Nat.add] in Hrun0, Hrun.
  apply run_bind_inv in Hrun0 as ([q0 i0] & s0 & Hloop0 & Hret0).
  injection Hret0 as <-.
  apply run_bind_inv in Hrun as ([q i] & s & Hloop & Hret).
  injection Hret as <-.
  destruct (fillLoop_shift (parseInput input) (nodes st)
              (length (parseInput input)) [0] q0 1 i0
              (with_nodes st_e [leaf]) s0
              (with_nodes st (nodes st ++ [leaf])))
    as (s' & Hloop' & Hrel); [done| |exact Hloop0|].
  { intros a Ha. apply list_elem_of_singleton in Ha as ->. simpl. lia. }
  cbn [map] in Hloop'. rewrite Nat.add_0_r in Hloop'.
  rewrite Hloop in Hloop'. by injection Hloop' as _ _ <-.
Qed.

(** The tree built in any store is the tree built in an empty one, moved
    likewise. *)
Lemma treeConstructor_shift (input : string) (st : store) :
  ∃ (st' : store) (t0 : tree),
    treeConstructor input st = Some (length (nodes st), st')
    ∧ st' = with_nodes st (nodes st')
    ∧ builtTree input = Some t0
    ∧ repr (nodes st') (Some (length (nodes st)))
           (shiftTree (length (nodes st)) t0)
    ∧ depth t0 ≤ length (parseInput input)
    ∧ ∃ new : list BTreeNode,
        nodes st' = nodes st ++ new ∧ length new = size t0.
Proof.
  set (st_e := empty_store 1280 720).
  destruct (treeConstructor_spec input st_e)
    as (st0' & t0 & q0' & i0' & n0 & Hrun0 & Hinv0 & _).
  destruct (treeConstructor_spec input st)
    as (st' & t & q' & i' & n & Hrun & _ & _ & _ & _ & _ & _ & _ & Hpres).
  change (length (nodes st_e)) with 0 in Hrun0, Hinv0.
  pose proof (inv_repr _ _ _ _ _ _ Hinv0) as Hrep0.
  assert (size t0 = length (nodes st0')) as Hsize.
  { rewrite size_addrs, (inv_addrs _ _ _ _ _ _ Hinv0), length_seq. lia. }
  assert (depth t0 ≤ length (parseInput input)) as Hdepth.
  { pose proof (depth_le_size t0).
    pose proof (inv_count _ _ _ _ _ _ Hinv0).
    pose proof (inv_idx _ _ _ _ _ _ Hinv0).
    pose proof (countPresent_take_bound (parseInput input) i0' ltac:(lia)).
    lia. }
  pose proof (treeConstructor_heap_shift _ _ _ _ Hrun0 Hrun) as Hrel.
  exists st', t0. split; [done|]. split; [by destruct Hpres|].
  split.
  { unfold builtTree. fold st_e. rewrite Hrun0.
    apply repr_reify; [done|]. pose proof (depth_le_size t0). lia. }
  split; [|split; [done|]].
  - rewrite Hrel.
    replace (Some (length (nodes st)))
      with ((λ c, length (nodes st) + c) <$> Some 0)
      by (simpl; f_equal; lia).
    by apply repr_shift.
  - eexists. split; [exact Hrel|]. by rewrite length_map.
Qed.

(** X10. The tree [treeConstructor] builds depends on the input alone: in
    any store it is the tree built in an empty store, with every reference
    moved up by the number of objects the store held; so its values, its
    shape and its height, and the calls a layout pass makes for it, are the
    same. *)
Theorem treeConstructor_same_tree_in_any_store (input : string) (st : store) :
  ∃ (st' : store) (t0 : tree),
    treeConstructor input st = Some (length (nodes st), st')
    ∧ builtTree input = Some t0
    ∧ repr (nodes st') (Some (length (nodes st)))
           (shiftTree (length (nodes st)) t0)
    ∧ treeHeight (shiftTree (length (nodes st)) t0) = treeHeight t0
    ∧ size (shiftTree (length (nodes st)) t0) = size t0
    ∧ preorderValues (shiftTree (length (nodes st)) t0) = preorderValues t0
    ∧ ∀ L xs xe : double,
        render (shiftTree (length (nodes st)) t0) L xs xe = render t0 L xs xe.
Proof.
  destruct (treeConstructor_shift input st)
    as (st' & t0 & Hrun & _ & Hbuilt & Hrep & _).
  destruct (shape_shiftTree (length (nodes st)) t0) as (H1 & _ & H3 & H4).
  exists st', t0. repeat (split; [done|]).
  apply render_shiftTree.
Qed.

(** ** The page *)

Lemma length_0_empty (s : string) : String.length s = 0 ↔ s = "".
Proof. destruct s; simpl; split; (done || lia). Qed.

(** [init] on a text of at most [fuel] tokens. *)
Lemma init_run (fuel : nat) (v : string) (p : page) :
  length (parseInput v) ≤ fuel →
  ∃ (t0 : tree) (cs : list ctx_call) (new : list BTreeNode),
    builtTree v = Some t0
    ∧ drawingOf v (innerWidth (doc p)) = Some cs
    ∧ length new = size t0
    ∧ init fuel v p
      = Some (mkPage
                (mkStore (nodes (doc p) ++ new)
                   (mkCanvas (innerWidth (doc p)) (innerHeight (doc p)) cs)
                   (innerWidth (doc p)) (innerHeight (doc p)))
                (textarea_value p) v
                (contextLog p ++ [clearing p])).
Proof.
  intros Hfuel. unfold init. cbv zeta.
  set (st2 := doc (clearCanvas _)).
  destruct (treeConstructor_shift v st2)
    as (st' & t0 & Hrun & Hst' & Hbuilt & Hrep & Hdepth & new & Hnew & Hlen).
  destruct (shape_shiftTree (length (nodes st2)) t0) as (Hh & Hd & _ & _).
  exists t0, (render t0 half
                (initialStart (innerWidth (doc p)) (treeHeight t0))
                (initialEnd (innerWidth (doc p)) (treeHeight t0))), new.
  split; [done|]. split; [unfold drawingOf; by rewrite Hbuilt|].
  split; [done|].
  rewrite Hrun.
  rewrite (drawBTree_run st' _ _ fuel Hrep) by lia.
  rewrite render_shiftTree, Hh. rewrite Hst', Hnew. reflexivity.
Qed.

(** X11. The apply button, on a text area that is not empty: the text is
    remembered in [prevInput]; one [clearRect] over the canvas as it was is
    followed by the calls that draw the tree of the text for the width of
    the window, and nothing else; the canvas takes the size of the window;
    the objects of earlier trees are left as they were; the text area keeps
    its text. *)
Theorem apply_click_draws (fuel : nat) (p : page) :
  textarea_value p ≠ "" →
  length (parseInput (textarea_value p)) ≤ fuel →
  ∃ (p' : page) (t0 : tree) (cs : list ctx_call),
    onApplyClick fuel p = Some p'
    ∧ builtTree (textarea_value p) = Some t0
    ∧ drawingOf (textarea_value p) (innerWidth (doc p)) = Some cs
    ∧ shown p' = cs
    ∧ contextLog p' = contextLog p ++ clearing p :: map on_context cs
    ∧ width (canvasEl (doc p')) = innerWidth (doc p)
    ∧ height (canvasEl (doc p')) = innerHeight (doc p)
    ∧ prevInput p' = textarea_value p
    ∧ textarea_value p' = textarea_value p
    ∧ take (length (nodes (doc p))) (nodes (doc p')) = nodes (doc p)
    ∧ length (nodes (doc p')) = length (nodes (doc p)) + size t0.
Proof.
  intros Hne Hfuel.
  destruct (init_run fuel (textarea_value p) p Hfuel)
    as (t0 & cs & new & Hbuilt & Hdraw & Hlen & Hinit).
  assert (onApplyClick fuel p = init fuel (textarea_value p) p) as Hclick.
  { unfold onApplyClick.
    destruct (String.length (textarea_value p) =? 0)%nat eqn:Hz; [|done].
    by apply Nat.eqb_eq, length_0_empty in Hz. }
  rewrite Hclick, Hinit. eexists _, t0, cs. split; [done|].
  split; [done|]. split; [done|].
  unfold shown, contextLog. cbn [doc canvasEl calls earlier nodes width height
                                 prevInput textarea_value].
  split; [done|]. split; [by rewrite <- app_assoc|].
  do 4 (split; [done|]).
  split; [by rewrite take_app_length|]. rewrite length_app. lia.
Qed.

Lemma apply_click_draws_witness :
  ∃ (p' : page) (t0 : tree) (cs : list ctx_call),
    onApplyClick 7 (typeText sample_input (initial_page 1280 720)) = Some p'
    ∧ builtTree sample_input = Some t0
    ∧ drawingOf sample_input 1280 = Some cs
    ∧ shown p' = cs.
Proof.
  destruct (apply_click_draws 7 (typeText sample_input (initial_page 1280 720)))
    as (p' & t0 & cs & H1 & H2 & H3 & H4 & _).
  - discriminate.
  - vm_compute. lia.
  - exists p', t0, cs. repeat split; assumption.
Defined.

(** X12. The resize listener redraws the text kept in [prevInput], not the
    text of the text area: when the text area is not empty, whatever it
    holds, the canvas is cleared, takes the new size of the window and
    shows the tree of [prevInput] for the new width; when the text area is
    empty nothing is called, and the canvas keeps its size and what it
    shows.  Neither text changes. *)
Theorem resize_redraws_last_applied (fuel : nat) (w h : double) (p : page) :
  length (parseInput (prevInput p)) ≤ fuel →
  ∃ p' : page,
    handle fuel (windowResize w h) p = Some p'
    ∧ textarea_value p' = textarea_value p
    ∧ prevInput p' = prevInput p
    ∧ innerWidth (doc p') = w ∧ innerHeight (doc p') = h
    ∧ (textarea_value p = "" →
       canvasEl (doc p') = canvasEl (doc p) ∧ contextLog p' = contextLog p)
    ∧ (textarea_value p ≠ "" →
       ∃ cs : list ctx_call,
         drawingOf (prevInput p) w = Some cs
         ∧ shown p' = cs
         ∧ contextLog p' = contextLog p ++ clearing p :: map on_context cs
         ∧ width (canvasEl (doc p')) = w
         ∧ height (canvasEl (doc p')) = h).
Proof.
  intros Hfuel. cbn [handle]. unfold onResize.
  destruct (init_run fuel (prevInput p) (resizeWindow w h p) Hfuel)
    as (t0 & cs & new & Hbuilt & Hdraw & Hlen & Hinit).
  change (textarea_value (resizeWindow w h p)) with (textarea_value p).
  change (prevInput (resizeWindow w h p)) with (prevInput p) in *.
  destruct (String.eqb_spec (textarea_value p) "") as [He|Hne].
  - eexists. split; [done|]. do 4 (split; [done|]).
    split; [done|]. by intros [].
  - eexists. split; [exact Hinit|]. do 4 (split; [done|]).
    split; [done|]. intros _. exists cs.
    unfold shown, contextLog.
    cbn [doc canvasEl calls earlier nodes width height] in *.
    split; [done|]. split; [done|]. split; [by rewrite <- app_assoc|done].
Qed.

Lemma resize_redraws_last_applied_witness :
  ∃ (p' : page) (cs : list ctx_call),
    handle 1 (windowResize 800 600)
      (typeText sample_input (initial_page 1280 720)) = Some p'
    ∧ textarea_value p' = sample_input
    ∧ prevInput p' = ""
    ∧ drawingOf "" 800 = Some cs
    ∧ shown p' = cs.
Proof.
  destruct (resize_redraws_last_applied 1 800 600
              (typeText sample_input (initial_page 1280 720)))
    as (p' & Hrun & Htext & Hprev & _ & _ & _ & Hdraw).
  - vm_compute. lia.
  - destruct Hdraw as (cs & Hcs & Hshown & _); [discriminate|].
    exists p', cs. repeat split; assumption.
Defined.

Lemma length_parseInput_empty : length (parseInput "") = 1.
Proof. reflexivity. Qed.

(** One event, on a page whose two texts have at most [fuel] tokens. *)
Lemma handle_consistent (fuel : nat) (e : event) (p : page) :
  1 ≤ fuel → withinFuel fuel e →
  length (parseInput (prevInput p)) ≤ fuel →
  length (parseInput (textarea_value p)) ≤ fuel →
  consistent p →
  ∃ p' : page,
    handle fuel e p = Some p'
    ∧ consistent p'
    ∧ length (parseInput (prevInput p')) ≤ fuel
    ∧ length (parseInput (textarea_value p')) ≤ fuel
    ∧ (prevInput p' = prevInput p
       ∨ (prevInput p' = textarea_value p ∧ textarea_value p ≠ ""))
    ∧ (textarea_value p' = textarea_value p
       ∨ textarea_value p' = ""
       ∨ e = edit (textarea_value p')).
Proof.
  intros Hfuel He Hprev Htext Hcons.
  destruct e as [s| | |w h]; cbn [handle withinFuel] in *.
  - eexists. split; [done|]. cbn [typeText prevInput textarea_value].
    split; [exact Hcons|]. do 2 (split; [done|]). split; [by left|].
    by right; right.
  - unfold onApplyClick.
    destruct (String.length (textarea_value p) =? 0)%nat eqn:Hz.
    { exists p. do 4 (split; [done|]). split; by left. }
    destruct (init_run fuel (textarea_value p) p Htext)
      as (t0 & cs & new & _ & Hdraw & _ & Hinit).
    eexists. split; [exact Hinit|].
    cbn [prevInput textarea_value]. split; [by right|].
    do 2 (split; [done|]). split; [|by left]. right. split; [done|].
    intros Hempty. by rewrite Hempty in Hz.
  - eexists. split; [done|]. split; [by left|].
    cbn [onClearClick clearCanvas prevInput textarea_value].
    split; [done|]. split; [by rewrite length_parseInput_empty|].
    split; [by left|]. right. by left.
  - unfold onResize.
    change (textarea_value (resizeWindow w h p)) with (textarea_value p).
    change (prevInput (resizeWindow w h p)) with (prevInput p).
    destruct (String.eqb (textarea_value p) "").
    { eexists. split; [done|]. split; [exact Hcons|].
      do 2 (split; [done|]). split; by left. }
    destruct (init_run fuel (prevInput p) (resizeWindow w h p) Hprev)
      as (t0 & cs & new & _ & Hdraw & _ & Hinit).
    eexists. split; [exact Hinit|].
    cbn [prevInput textarea_value]. split; [by right|].
    do 2 (split; [done|]). split; by left.
Qed.

Lemma handleAll_consistent (fuel : nat) (es : list event) :
  1 ≤ fuel → Forall (withinFuel fuel) es →
  ∀ p : page,
    length (parseInput (prevInput p)) ≤ fuel →
    length (parseInput (textarea_value p)) ≤ fuel →
    consistent p →
    ∃ p' : page,
      handleAll fuel es p = Some p'
      ∧ consistent p'
      ∧ (prevInput p' = prevInput p
         ∨ (prevInput p' = textarea_value p ∧ prevInput p' ≠ "")
         ∨ (In (edit (prevInput p')) es ∧ prevInput p' ≠ "")).
Proof.
  intros Hfuel Hes. induction Hes as [|e es He _ IH];
    intros p Hprev Htext Hcons.
  - exists p. split; [done|]. split; [done|]. by left.
  - destruct (handle_consistent fuel e p Hfuel He Hprev Htext Hcons)
      as (p1 & Hrun1 & Hcons1 & Hprev1 & Htext1 & Hp & Ht).
    destruct (IH p1 Hprev1 Htext1 Hcons1) as (p' & Hrun & Hcons' & Hfrom).
    exists p'. cbn [handleAll]. rewrite Hrun1.
    split; [done|]. split; [done|].
    destruct Hfrom as [Heq|[[Heq Hne]|[Hin Hne]]].
    + rewrite Heq. destruct Hp as [->|[-> Hne]]; [by left|].
      right. by left.
    + destruct Ht as [Ht|[Ht|Ht]].
      * right. left. by rewrite Heq, Ht in *.
      * by rewrite Heq, Ht in Hne.
      * right. right. split; [|done]. left. by rewrite Heq.
    + right. right. split; [by right|done].
Qed.

(** X13. Whatever the user does on the page (edit the text, click apply
    or clear, resize the window, in any order), every listener returns,
    given a call stack as deep as the longest text has tokens, and
    afterwards the canvas shows either nothing or exactly the tree of
    [prevInput], laid out for the width the canvas has: never parts of two
    trees, never a tree of another text.  And [prevInput] is the empty text
    of the start, or a text, not empty, that the text area held. *)
Theorem page_stays_consistent (fuel : nat) (w h : double) (es : list event) :
  1 ≤ fuel → Forall (withinFuel fuel) es →
  ∃ p' : page,
    handleAll fuel es (initial_page w h) = Some p'
    ∧ (shown p' = []
       ∨ drawingOf (prevInput p') (width (canvasEl (doc p')))
         = Some (shown p'))
    ∧ (prevInput p' = ""
       ∨ (In (edit (prevInput p')) es ∧ prevInput p' ≠ "")).
Proof.
  intros Hfuel Hes.
  destruct (handleAll_consistent fuel es Hfuel Hes (initial_page w h))
    as (p' & Hrun & Hcons & Hfrom).
  - exact Hfuel.
  - exact Hfuel.
  - by left.
  - exists p'. split; [done|]. split; [exact Hcons|].
    destruct Hfrom as [Heq|[[Heq Hne]|Hin]]; [by left|by left|by right].
Qed.

Lemma page_stays_consistent_witness :
  ∃ p' : page,
    handleAll 7 [edit sample_input; applyClick; windowResize 800 600;
                 edit "7,8"; windowResize 1024 768]
      (initial_page 1280 720) = Some p'
    ∧ (shown p' = []
       ∨ drawingOf (prevInput p') (width (canvasEl (doc p')))
         = Some (shown p')).
Proof.
  destruct (page_stays_consistent 7 1280 720
              [edit sample_input; applyClick; windowResize 800 600;
               edit "7,8"; windowResize 1024 768])
    as (p' & Hrun & Hcons & _).
  - lia.
  - repeat constructor; vm_compute; lia.
  - exists p'. split; assumption.
Defined.

(** X14. After the clear button the canvas stays blank until the text is
    edited: the text area is empty, so the apply button and a resize of the
    window draw nothing, although [prevInput] still holds the last text. *)
Theorem blank_after_clear (fuel : nat) (es : list event) (p : page) :
  forallb (λ e, negb (isEdit e)) es = true →
  ∃ p' : page,
    handleAll fuel es (onClearClick p) = Some p'
    ∧ shown p' = []
    ∧ textarea_value p' = ""
    ∧ prevInput p' = prevInput p
    ∧ nodes (doc p') = nodes (doc p).
Proof.
  intros Hes.
  cut (∀ q : page, shown q = [] → textarea_value q = "" →
         ∃ p' : page,
           handleAll fuel es q = Some p'
           ∧ shown p' = [] ∧ textarea_value p' = ""
           ∧ prevInput p' = prevInput q
           ∧ nodes (doc p') = nodes (doc q)).
  { intros Hall. by apply (Hall (onClearClick p)). }
  induction es as [|e es IH]; intros q Hshown Htext.
  - by exists q.
  - cbn [forallb] in Hes. apply andb_prop in Hes as [He Hes].
    cbn [handleAll].
    destruct e as [s| | |w h]; [done| | |]; cbn [handle].
    + unfold onApplyClick. rewrite Htext. cbn [String.length Nat.eqb].
      by apply IH.
    + destruct (IH Hes (onClearClick q)) as (p' & Hrun & H1 & H2 & H3 & H4);
        [done..|].
      by exists p'.
    + unfold onResize.
      change (textarea_value (resizeWindow w h q)) with (textarea_value q).
      rewrite Htext. cbn [String.eqb].
      destruct (IH Hes (resizeWindow w h q)) as (p' & Hrun & H1 & H2 & H3 & H4);
        [done..|].
      by exists p'.
Qed.

Lemma blank_after_clear_witness :
  ∃ p' : page,
    handleAll 0 [windowResize 800 600; applyClick; clearClick;
                 windowResize 1024 768]
      (onClearClick (typeText sample_input (initial_page 1280 720)))
    = Some p'
    ∧ shown p' = [].
Proof.
  destruct (blank_after_clear 0
              [windowResize 800 600; applyClick; clearClick;
               windowResize 1024 768]
              (typeText sample_input (initial_page 1280 720)))
    as (p' & Hrun & Hshown & _).
  - reflexivity.
  - exists p'. split; assumption.
Defined.

(** ** Reading back what was written *)

Lemma split_no_occurrence (sep : ascii) (x : string) :
  occurs sep x = false → split sep x = [x].
Proof.
  induction x as [|c x IH]; intros Hocc; [done|].
  simpl in Hocc. apply orb_false_iff in Hocc as [Hc Hx].
  cbn [split]. by rewrite Hc, (IH Hx).
Qed.

Lemma split_append (sep : ascii) (x rest : string) :
  occurs sep x = false →
  split sep (x ++ String sep rest)%string = x :: split sep rest.
Proof.
  induction x as [|c x IH]; intros Hocc.
  - change ("" ++ String sep rest)%string with (String sep rest).
    cbn [split]. by rewrite Ascii.eqb_refl.
  - simpl in Hocc. apply orb_false_iff in Hocc as [Hc Hx].
    rewrite append_cons. cbn [split]. by rewrite Hc, (IH Hx).
Qed.

Lemma split_concat (sep : ascii) (pieces : list string) :
  pieces ≠ [] → Forall (λ piece, occurs sep piece = false) pieces →
  split sep (String.concat (String sep "") pieces) = pieces.
Proof.
  intros Hne Hall. induction Hall as [|x l Hx Hl IH]; [done|].
  destruct l as [|y l].
  - by apply split_no_occurrence.
  - rewrite concat_cons2.
    change (String sep "" ++ String.concat (String sep "") (y :: l))%string
      with (String sep (String.concat (String sep "") (y :: l))).
    rewrite split_append by done. by rewrite IH.
Qed.

Lemma filterString_app (keep : ascii → bool) (a b : string) :
  filterString keep (a ++ b)%string
  = (filterString keep a ++ filterString keep b)%string.
Proof.
  induction a as [|c a IH]; [done|].
  rewrite append_cons. cbn [filterString].
  destruct (keep c); [|done]. by rewrite append_cons, IH.
Qed.

Lemma filterString_no_space (s : string) :
  occurs " " s = false → filterString notSpace s = s.
Proof.
  induction s as [|c s IH]; intros Hocc; [done|].
  simpl in Hocc. apply orb_false_iff in Hocc as [Hc Hs].
  cbn [filterString]. unfold notSpace at 1. by rewrite Hc, (IH Hs).
Qed.

Lemma filterString_concat (pieces : list string) :
  Forall (λ piece, occurs " " piece = false) pieces →
  filterString notSpace (String.concat ", " pieces)
  = String.concat "," pieces.
Proof.
  induction 1 as [|x l Hx Hl IH]; [done|].
  destruct l as [|y l].
  - by apply filterString_no_space.
  - rewrite !concat_cons2, !filterString_app, IH.
    by rewrite (filterString_no_space x Hx).
Qed.

Lemma written_typable (v : jsval) :
  typable v = true →
  toToken (written v) = v
  ∧ occurs "," (written v) = false ∧ occurs " " (written v) = false.
Proof.
  destruct v as [| |s]; [done|done|]. cbn [typable written].
  intros H. apply andb_prop in H as [H Hnull]. apply andb_prop in H as [Hc Hs].
  apply negb_true_iff in Hnull, Hc, Hs.
  unfold toToken. by rewrite Hnull.
Qed.

(** X15. [parseInput] reads back what was written: for any tokens, each
    [null] or a text without comma or space other than [null], the tokens
    written one after the other with a comma between them, or with a comma
    and a space, parse to these very tokens. *)
Theorem parseInput_reads_back (toks : list jsval) :
  toks ≠ [] → Forall (λ v, typable v = true) toks →
  parseInput (String.concat "," (map written toks)) = toks
  ∧ parseInput (String.concat ", " (map written toks)) = toks.
Proof.
  intros Hne Hall.
  assert (Forall (λ piece, occurs "," piece = false) (map written toks))
    as Hcomma.
  { apply Forall_map. eapply Forall_impl; [exact Hall|].
    intros v Hv. by apply written_typable. }
  assert (Forall (λ piece, occurs " " piece = false) (map written toks))
    as Hspace.
  { apply Forall_map. eapply Forall_impl; [exact Hall|].
    intros v Hv. by apply written_typable. }
  assert (map toToken (map written toks) = toks) as Hback.
  { clear Hne Hcomma Hspace. induction Hall as [|v l Hv _ IH]; [done|].
    cbn [map]. rewrite IH. f_equal. by apply written_typable. }
  assert (map written toks ≠ []) as Hne' by by destruct toks.
  assert (parseInput (String.concat "," (map written toks)) = toks) as Hplain.
  { unfold parseInput. rewrite stripSpaces_filter.
    rewrite filterString_no_space.
    - rewrite (split_concat "," _ Hne' Hcomma). exact Hback.
    - clear Hne Hne' Hcomma Hback Hall.
      induction Hspace as [|x l Hx Hl IH]; [done|].
      destruct l as [|y l]; [done|].
      rewrite concat_cons2.
      change ("," ++ String.concat "," (y :: l))%string
        with (String "," (String.concat "," (y :: l))).
      generalize dependent (String.concat "," (y :: l)). intros rest Hrest.
      clear -Hx Hrest. induction x as [|c x IHx]; [done|].
      simpl in Hx. apply orb_false_iff in Hx as [Hc Hx].
      rewrite append_cons. simpl. by rewrite Hc, (IHx Hx). }
  split; [exact Hplain|].
  unfold parseInput in *. rewrite stripSpaces_filter in *.
  rewrite (filterString_concat _ Hspace).
  rewrite (split_concat "," _ Hne' Hcomma). exact Hback.
Qed.

Lemma parseInput_reads_back_witness :
  parseInput "5,null,8" = [JSString "5"; JSNull; JSString "8"]
  ∧ parseInput "5, null, 8" = [JSString "5"; JSNull; JSString "8"].
Proof.
  apply (parseInput_reads_back [JSString "5"; JSNull; JSString "8"]).
  - discriminate.
  - repeat constructor.
Defined.

(** * Binary64 arithmetic without rounding *)

Section Digits.
Local Open Scope Z_scope.

Lemma pow2_double (d : Z) : 0 < d → 2 ^ d = 2 * 2 ^ (d - 1).
Proof. intros H. rewrite <- Z.pow_succ_r by lia. f_equal. lia. Qed.

Lemma digits_bounds (p : positive) :
  2 ^ (Zpos (digits2_pos p) - 1) <= Zpos p < 2 ^ Zpos (digits2_pos p).
Proof.
  induction p as [p IH|p IH|]; [| |simpl; lia];
    cbn [digits2_pos]; rewrite Pos2Z.inj_succ;
    replace (Z.succ (Zpos (digits2_pos p)) - 1) with (Zpos (digits2_pos p))
      by lia;
    rewrite Z.pow_succ_r by lia;
    pose proof (pow2_double (Zpos (digits2_pos p)) ltac:(lia)); lia.
Qed.

Lemma digits_unique (p : positive) (d : Z) :
  2 ^ (d - 1) <= Zpos p < 2 ^ d → Zpos (digits2_pos p) = d.
Proof.
  intros [H1 H2]. pose proof (digits_bounds p) as [H3 H4].
  assert (0 < d) as Hd.
  { destruct (Z.lt_ge_cases 0 d) as [|Hle]; [done|].
    destruct (Z.eq_dec d 0) as [->|Hne]; [simpl in H2; lia|].
    rewrite (Z.pow_neg_r 2 d) in H2 by lia. lia. }
  destruct (Z.lt_trichotomy (Zpos (digits2_pos p)) d) as [Hlt|[Heq|Hgt]];
    [|done|].
  - pose proof (Z.pow_le_mono_r 2 (Zpos (digits2_pos p)) (d - 1)
                  ltac:(lia) ltac:(lia)). lia.
  - pose proof (Z.pow_le_mono_r 2 d (Zpos (digits2_pos p) - 1)
                  ltac:(lia) ltac:(lia)). lia.
Qed.

(** The digits of [p * 2^n]. *)
Lemma digits_shift (p q : positive) (n : Z) :
  0 <= n → Zpos q = Zpos p * 2 ^ n →
  Zpos (digits2_pos q) = Zpos (digits2_pos p) + n.
Proof.
  intros Hn Hq. apply digits_unique. rewrite Hq.
  pose proof (digits_bounds p) as [H1 H2].
  replace (Zpos (digits2_pos p) + n - 1) with (Zpos (digits2_pos p) - 1 + n)
    by lia.
  rewrite !Z.pow_add_r by lia.
  pose proof (Z.pow_pos_nonneg 2 n ltac:(lia) Hn). nia.
Qed.

End Digits.

Section Shifts.
Local Open Scope Z_scope.

Lemma iter_pos_nat {A : Type} (f : A → A) (n : positive) (x : A) :
  SpecFloat.iter_pos f n x = @Nat.iter (Pos.to_nat n) A f x.
Proof.
  revert x. induction n as [n IH|n IH|]; intros x; cbn [SpecFloat.iter_pos].
  - rewrite !IH, Pos2Nat.inj_xI, <- Nat.iter_add, <- Nat.iter_succ_r.
    f_equal. lia.
  - rewrite !IH, Pos2Nat.inj_xO, <- Nat.iter_add. f_equal. lia.
  - reflexivity.
Qed.

Lemma Pos_iter_nat {A : Type} (f : A → A) (n : positive) (x : A) :
  Pos.iter f x n = @Nat.iter (Pos.to_nat n) A f x.
Proof. apply Pos2Nat.inj_iter. Qed.

(** Shifting [q * 2^n] right by [n] places loses nothing. *)
Lemma shr_1_nat (n : nat) :
  ∀ m q : positive,
    Zpos m = Zpos q * 2 ^ Z.of_nat n →
    @Nat.iter n shr_record shr_1 (Build_shr_record (Zpos m) false false)
    = Build_shr_record (Zpos q) false false.
Proof.
  induction n as [|n IH]; intros m q Hm.
  - simpl in *. f_equal. lia.
  - rewrite Nat.iter_succ_r.
    rewrite Nat2Z.inj_succ, Z.pow_succ_r in Hm by lia.
    destruct m as [m|m|]; [lia| |lia].
    cbn [shr_1 orb]. apply IH. lia.
Qed.

Lemma shr_exact (m q : positive) (e n : Z) :
  0 <= n → Zpos m = Zpos q * 2 ^ n →
  shr (Build_shr_record (Zpos m) false false) e n
  = (Build_shr_record (Zpos q) false false, e + n).
Proof.
  intros Hn Hm. destruct n as [|n|n]; [| |lia].
  - rewrite Z.add_0_r. simpl in *. do 2 f_equal. lia.
  - cbn [shr]. rewrite iter_pos_nat. f_equal.
    apply shr_1_nat. by rewrite positive_nat_Z.
Qed.

Lemma shl_exact (m : positive) (n : positive) :
  Zpos (Pos.iter xO m n) = Zpos m * 2 ^ Zpos n.
Proof.
  rewrite Pos_iter_nat. rewrite <- (positive_nat_Z n).
  induction (Pos.to_nat n) as [|k IH]; [simpl; lia|].
  rewrite Nat2Z.inj_succ, Z.pow_succ_r by lia.
  change (Nat.iter (S k) xO m) with (xO (Nat.iter k xO m)).
  rewrite Pos2Z.inj_xO, IH. lia.
Qed.

End Shifts.

Section Rounding.
Local Open Scope Z_scope.

(** A mantissa [q * 2^n], [q] of 53 digits, rounds to [q] at the exponent
    moved by [n]: nothing is lost, unless the exponent is out of range. *)
Lemma round_aux_shift (s : bool) (m q : positive) (e n : Z) :
  0 <= n → Zpos m = Zpos q * 2 ^ n → Zpos (digits2_pos q) = 53 →
  -1074 <= e + n →
  binary_round_aux 53 1024 s (Zpos m) e loc_Exact
  = if e + n <=? 971 then S754_finite s q (e + n) else S754_infinity s.
Proof.
  intros Hn Hm Hq Hrange.
  pose proof (digits_shift q m n Hn Hm) as Hd.
  assert (shr_fexp 53 1024 (Zpos m) e loc_Exact
          = (Build_shr_record (Zpos q) false false, e + n)) as Hs1.
  { unfold shr_fexp. cbn [shr_record_of_loc Zdigits2].
    replace (fexp 53 1024 (Zpos (digits2_pos m) + e) - e) with n
      by (unfold fexp, emin; lia).
    by apply shr_exact. }
  assert (shr_fexp 53 1024 (Zpos q) (e + n) loc_Exact
          = (Build_shr_record (Zpos q) false false, e + n)) as Hs2.
  { unfold shr_fexp. cbn [shr_record_of_loc Zdigits2].
    replace (fexp 53 1024 (Zpos (digits2_pos q) + (e + n)) - (e + n)) with 0
      by (unfold fexp, emin; lia).
    reflexivity. }
  unfold binary_round_aux. rewrite Hs1.
  cbn [shr_m loc_of_shr_record round_nearest_even]. rewrite Hs2.
  cbn [shr_m]. change (1024 - 53) with 971. done.
Qed.

Lemma round_aux_exact (s : bool) (m q : positive) (e n : Z) :
  0 <= n → Zpos m = Zpos q * 2 ^ n → Zpos (digits2_pos q) = 53 →
  -1074 <= e + n <= 971 →
  binary_round_aux 53 1024 s (Zpos m) e loc_Exact = S754_finite s q (e + n).
Proof.
  intros Hn Hm Hq Hrange. rewrite (round_aux_shift s m q e n) by (done || lia).
  destruct (Z.leb_spec (e + n) 971); [done|lia].
Qed.

(** The double nearest to [m * 2^e] when [m * 2^a = q * 2^b] with [q] of 53
    digits: the number itself, with mantissa [q]. *)
Lemma round_exact (s : bool) (m q : positive) (e a b : Z) :
  0 <= a → 0 <= b → Zpos m * 2 ^ a = Zpos q * 2 ^ b →
  Zpos (digits2_pos q) = 53 → -1074 <= e + b - a <= 971 →
  binary_round 53 1024 s m e = S754_finite s q (e + b - a).
Proof.
  intros Ha Hb Heq Hq Hrange.
  assert (Zpos (digits2_pos m) + a = 53 + b) as Hd.
  { pose proof (Z.pow_pos_nonneg 2 a ltac:(lia) Ha) as Hpa.
    destruct (Zpos m * 2 ^ a) as [|P|P] eqn:EP; [lia| |lia].
    rewrite <- (digits_shift m P a Ha) by lia.
    rewrite <- Hq. apply (digits_shift q P b Hb). lia. }
  unfold binary_round.
  replace (fexp 53 1024 (Zpos (digits2_pos m) + e))
    with (Zpos (digits2_pos m) + e - 53) by (unfold fexp, emin; lia).
  unfold shl_align.
  replace (Zpos (digits2_pos m) + e - 53 - e) with (Zpos (digits2_pos m) - 53)
    by lia.
  pose proof (Z.pow_pos_nonneg 2 a ltac:(lia) Ha) as Hpa.
  pose proof (Z.pow_pos_nonneg 2 b ltac:(lia) Hb) as Hpb.
  destruct (Zpos (digits2_pos m) - 53) as [|δ|δ] eqn:Eδ.
  - replace (e + b - a) with (e + 0) by lia.
    apply round_aux_exact; [lia| |done|lia].
    assert (a = b) as -> by lia. nia.
  - replace (e + b - a) with (e + Zpos δ) by lia.
    apply round_aux_exact; [lia| |done|lia].
    replace b with (a + Zpos δ) in Heq by lia.
    rewrite Z.pow_add_r in Heq by lia. nia.
  - replace (e + b - a) with (Zpos (digits2_pos m) + e - 53 + 0) by lia.
    apply round_aux_exact; [lia| |done|lia].
    rewrite shl_exact.
    replace a with (b + Zpos δ) in Heq by lia.
    rewrite Z.pow_add_r in Heq by lia. nia.
Qed.

End Rounding.

Section Holds.
Local Open Scope Z_scope.

Lemma pow2_pos (n : Z) : 0 <= n → 0 < 2 ^ n.
Proof. intros H. apply Z.pow_pos_nonneg; lia. Qed.

(** Any way of writing the value of [x] normalises to [x]. *)
Lemma normalize_holds (x : double) (c e S M T : Z) :
  holds x c e → 0 <= M → 0 <= T → S * 2 ^ M = c * 2 ^ T →
  binary_normalize 53 1024 S (e + M - T) false = x.
Proof.
  intros Hx HM HT Heq.
  pose proof (pow2_pos M HM) as HpM. pose proof (pow2_pos T HT) as HpT.
  destruct x as [s| | |s q i]; try done.
  - destruct Hx as [-> ->]. assert (S = 0) as -> by nia. done.
  - destruct Hx as (Hc & -> & Hq & Hi & a & b & Ha & Hb & Hab & ->).
    pose proof (pow2_pos a Ha) as Hpa. pose proof (pow2_pos b Hb) as Hpb.
    assert (∀ P : positive, Z.abs S = Zpos P →
              binary_round 53 1024 (c <? 0) P (e + M - T)
              = S754_finite (c <? 0) q (e + b - a)) as Hround.
    { intros P HP.
      replace (e + b - a) with (e + M - T + (b + T) - (M + a)) by lia.
      apply round_exact; [lia|lia| |done|lia].
      rewrite <- HP, !Z.pow_add_r by lia.
      transitivity (Z.abs (S * 2 ^ M) * 2 ^ a).
      { rewrite Z.abs_mul, (Z.abs_eq (2 ^ M)) by lia. ring. }
      rewrite Heq, Z.abs_mul, (Z.abs_eq (2 ^ T)) by lia.
      transitivity (Z.abs c * 2 ^ a * 2 ^ T); [ring|]. rewrite Hab. ring. }
    destruct S as [|P|P]; cbn [binary_normalize].
    + nia.
    + rewrite <- (Hround P eq_refl). f_equal.
      symmetry. apply Z.ltb_ge. nia.
    + rewrite <- (Hround P eq_refl). f_equal.
      symmetry. apply Z.ltb_lt. nia.
Qed.

(** The double that holds [z * 2^e] is the one [dyadic] gives. *)
Lemma holds_dyadic (x : double) (z e : Z) : holds x z e → dyadic z e = x.
Proof.
  intros Hx. unfold dyadic.
  replace e with (e + 0 - 0) at 1 by lia.
  by apply (normalize_holds x z e z 0 0).
Qed.

Lemma holds_unique (x y : double) (z e : Z) :
  holds x z e → holds y z e → x = y.
Proof. intros Hx Hy. by rewrite <- (holds_dyadic x z e), <- (holds_dyadic y z e). Qed.

(** The same value on a finer grid. *)
Lemma holds_scale (x : double) (z e k : Z) :
  0 <= k → holds x z (e + k) ↔ holds x (z * 2 ^ k) e.
Proof.
  intros Hk. pose proof (pow2_pos k Hk) as Hpk.
  destruct x as [s| | |s q i]; cbn [holds]; [|done..|].
  - split; intros [-> H]; (split; [done|]); nia.
  - split.
    + intros (Hz & -> & Hq & Hi & a & b & Ha & Hb & Hab & ->).
      split; [nia|]. split.
      { destruct (Z.ltb_spec z 0), (Z.ltb_spec (z * 2 ^ k) 0); (done || nia). }
      split; [done|]. split; [done|].
      exists a, (b + k). split; [lia|]. split; [lia|]. split; [|lia].
      rewrite Z.abs_mul, (Z.abs_eq (2 ^ k)), Z.pow_add_r by lia.
      transitivity (Z.abs z * 2 ^ a * 2 ^ k); [ring|]. rewrite Hab. ring.
    + intros (Hz & -> & Hq & Hi & a & b & Ha & Hb & Hab & ->).
      split; [nia|]. split.
      { destruct (Z.ltb_spec z 0), (Z.ltb_spec (z * 2 ^ k) 0); (done || nia). }
      split; [done|]. split; [done|].
      exists (a + k), b. split; [lia|]. split; [lia|]. split; [|lia].
      rewrite Z.abs_mul, (Z.abs_eq (2 ^ k)) in Hab by lia.
      rewrite Z.pow_add_r by lia. rewrite <- Hab. ring.
Qed.

End Holds.

Section Operations.
Local Open Scope Z_scope.

(** Integers of at most 53 bits, on any grid within the exponent range,
    are doubles. *)
Lemma holds_fits (z e : Z) :
  Z.abs z < 2 ^ 53 → -1022 <= e <= 971 → holds (dyadic z e) z e.
Proof.
  intros Hz He.
  assert (∀ (s : bool) (p : positive),
            Zpos p < 2 ^ 53 →
            ∃ q j, 0 <= j ∧ Zpos q = Zpos p * 2 ^ j
                   ∧ Zpos (digits2_pos q) = 53
                   ∧ -1074 <= e - j <= 971
                   ∧ binary_round 53 1024 s p e = S754_finite s q (e - j))
    as Hpos.
  { intros s p Hp.
    pose proof (digits_bounds p) as [H1 H2].
    assert (Zpos (digits2_pos p) <= 53) as Hd.
    { destruct (Z.le_gt_cases (Zpos (digits2_pos p)) 53) as [|Hgt]; [done|].
      pose proof (Z.pow_le_mono_r 2 53 (Zpos (digits2_pos p) - 1)
                    ltac:(lia) ltac:(lia)). lia. }
    set (j := 53 - Zpos (digits2_pos p)).
    pose proof (pow2_pos j ltac:(lia)) as Hpj.
    destruct (Zpos p * 2 ^ j) as [|q|q] eqn:Eq; [lia| |lia].
    exists q, j. split; [lia|]. split; [done|].
    assert (Zpos (digits2_pos q) = 53) as Hq.
    { rewrite (digits_shift p q j) by lia. lia. }
    split; [done|]. split; [lia|].
    replace (e - j) with (e + 0 - j) by lia.
    apply round_exact; [lia|lia| |done|lia]. lia. }
  unfold dyadic. destruct z as [|p|p]; cbn [binary_normalize holds].
  - done.
  - destruct (Hpos false p ltac:(lia)) as (q & j & Hj & Hq & Hd & Hr & ->).
    cbn [holds]. split; [done|]. split; [done|]. split; [done|].
    split; [done|]. exists j, 0. repeat split; try lia.
  - destruct (Hpos true p ltac:(lia)) as (q & j & Hj & Hq & Hd & Hr & ->).
    cbn [holds]. split; [done|]. split; [done|]. split; [done|].
    split; [done|]. exists j, 0. repeat split; try lia.
Qed.

(** Integers [q * 2^k] with [q] of at most 53 bits are doubles too. *)
Lemma holds_rep (z q e k : Z) :
  z = q * 2 ^ k → 0 <= k → Z.abs q < 2 ^ 53 → -1022 <= e → e + k <= 971 →
  holds (dyadic z e) z e.
Proof.
  intros -> Hk Hq He1 He2.
  pose proof (holds_fits q (e + k) Hq ltac:(lia)) as H.
  apply holds_scale in H; [|done].
  by rewrite (holds_dyadic _ _ _ H).
Qed.

(** A finite double in normal form is above its grid by less than 53
    places. *)
Lemma holds_exponent (s : bool) (q : positive) (i z e : Z) :
  holds (S754_finite s q i) z e → e - 53 < i.
Proof.
  intros (Hz & _ & Hq & _ & a & b & Ha & Hb & Hab & ->).
  pose proof (digits_bounds q) as [_ Hq2]. rewrite Hq in Hq2.
  pose proof (pow2_pos a Ha). pose proof (pow2_pos b Hb).
  assert (2 ^ a < 2 ^ (53 + b)) as Hlt.
  { rewrite Z.pow_add_r by lia. nia. }
  apply Z.pow_lt_mono_r_iff in Hlt; lia.
Qed.

Lemma shl_align_value (q : positive) (i ez : Z) :
  ez <= i → Zpos (fst (shl_align q i ez)) = Zpos q * 2 ^ (i - ez).
Proof.
  intros Hle. unfold shl_align.
  destruct (ez - i) as [|d|d] eqn:Ed; cbn [fst].
  - replace (i - ez) with 0 by lia. simpl. lia.
  - lia.
  - rewrite shl_exact. f_equal. f_equal. lia.
Qed.

Lemma signed_abs (z : Z) (P : Z) :
  z ≠ 0 → 0 < P →
  cond_Zopp (z <? 0) P = Z.sgn z * P.
Proof.
  intros Hz HP. unfold cond_Zopp.
  destruct (Z.ltb_spec z 0); [rewrite Z.sgn_neg by lia|rewrite Z.sgn_pos by lia];
    lia.
Qed.

(** The aligned, signed mantissa [SFadd] and [SFsub] work on. *)
Lemma aligned_value (s : bool) (q : positive) (i z e ez : Z) :
  holds (S754_finite s q i) z e → ez <= i → e - 53 < ez →
  ∃ a : Z, 0 <= a ∧ e - a <= ez ∧
    ∀ T : Z, a <= T →
      cond_Zopp s (Zpos (fst (shl_align q i ez))) * 2 ^ (ez - e + T)
      = z * 2 ^ T.
Proof.
  intros (Hz & -> & Hq & Hi & a & b & Ha & Hb & Hab & ->) Hle Hez.
  exists (a + 53). split; [lia|]. split; [lia|]. intros T HT.
  rewrite shl_align_value by done.
  pose proof (pow2_pos (e + b - a - ez) ltac:(lia)).
  rewrite signed_abs by lia.
  transitivity (Z.sgn z * (Zpos q * 2 ^ b) * 2 ^ (T - a)).
  { transitivity (Z.sgn z * Zpos q
                  * (2 ^ (e + b - a - ez) * 2 ^ (ez - e + T))); [ring|].
    rewrite <- Z.pow_add_r by lia.
    replace (e + b - a - ez + (ez - e + T)) with (b + (T - a)) by lia.
    rewrite Z.pow_add_r by lia. ring. }
  rewrite <- Hab.
  replace T with (a + (T - a)) at 2 by lia. rewrite (Z.pow_add_r 2 a) by lia.
  transitivity (Z.sgn z * Z.abs z * 2 ^ a * 2 ^ (T - a)); [ring|].
  rewrite (Z.mul_comm (Z.sgn z)), Z.abs_sgn. ring.
Qed.

(** Sum and difference of two doubles on one grid, when the result is a
    double, are computed without rounding. *)
Lemma add_holds (x y z : double) (a b e : Z) :
  holds x a e → holds y b e → holds z (a + b) e → SFadd 53 1024 x y = z.
Proof.
  intros Hx Hy Hz.
  destruct x as [sx| | |sx qx ix]; try done;
    destruct y as [sy| | |sy qy iy]; try done.
  - destruct Hx as [-> ->], Hy as [-> ->].
    by apply (holds_unique _ _ 0 e).
  - destruct Hx as [-> ->]. by apply (holds_unique _ _ b e).
  - destruct Hy as [-> ->]. rewrite Z.add_0_r in Hz.
    by apply (holds_unique _ _ a e).
  - cbn [SFadd]. set (ez := Z.min ix iy).
    pose proof (holds_exponent _ _ _ _ _ Hx). pose proof (holds_exponent _ _ _ _ _ Hy).
    destruct (aligned_value _ _ _ _ _ ez Hx ltac:(lia) ltac:(lia))
      as (a1 & Ha1 & Hb1 & H1).
    destruct (aligned_value _ _ _ _ _ ez Hy ltac:(lia) ltac:(lia))
      as (a2 & Ha2 & Hb2 & H2).
    replace ez with (e + (ez - e + (a1 + a2)) - (a1 + a2)) at 3 by lia.
    apply (normalize_holds z (a + b) e); [done|lia|lia|].
    rewrite !Z.mul_add_distr_r, H1, H2 by lia. done.
Qed.

Lemma holds_opp (s : bool) (q : positive) (i z e : Z) :
  holds (S754_finite s q i) z e → holds (S754_finite (negb s) q i) (- z) e.
Proof.
  intros (Hz & -> & Hq & Hi & a & b & Ha & Hb & Hab & ->).
  split; [lia|]. split.
  { destruct (Z.ltb_spec z 0), (Z.ltb_spec (- z) 0); (done || lia). }
  split; [done|]. split; [done|].
  exists a, b. by rewrite Z.abs_opp.
Qed.

Lemma sub_holds (x y z : double) (a b e : Z) :
  holds x a e → holds y b e → holds z (a - b) e → SFsub 53 1024 x y = z.
Proof.
  intros Hx Hy Hz.
  destruct x as [sx| | |sx qx ix]; try done;
    destruct y as [sy| | |sy qy iy]; try done.
  - destruct Hx as [-> ->], Hy as [-> ->].
    by apply (holds_unique _ _ 0 e).
  - destruct Hx as [-> ->]. cbn [SFsub].
    apply (holds_unique _ _ (- b) e); [by apply holds_opp|done].
  - destruct Hy as [-> ->]. rewrite Z.sub_0_r in Hz.
    by apply (holds_unique _ _ a e).
  - cbn [SFsub]. set (ez := Z.min ix iy).
    pose proof (holds_exponent _ _ _ _ _ Hx). pose proof (holds_exponent _ _ _ _ _ Hy).
    destruct (aligned_value _ _ _ _ _ ez Hx ltac:(lia) ltac:(lia))
      as (a1 & Ha1 & Hb1 & H1).
    destruct (aligned_value _ _ _ _ _ ez Hy ltac:(lia) ltac:(lia))
      as (a2 & Ha2 & Hb2 & H2).
    replace ez with (e + (ez - e + (a1 + a2)) - (a1 + a2)) at 3 by lia.
    apply (normalize_holds z (a - b) e); [done|lia|lia|].
    rewrite !Z.mul_sub_distr_r, H1, H2 by lia. done.
Qed.

(** A mantissa of at least 53 digits that has the value of a double rounds
    to it. *)
Lemma round_aux_holds (s : bool) (q P : positive) (i c e M T : Z) :
  holds (S754_finite s q i) c e → 0 <= M → 0 <= T →
  Zpos P * 2 ^ M = Z.abs c * 2 ^ T → 53 <= Zpos (digits2_pos P) →
  binary_round_aux 53 1024 s (Zpos P) (e + M - T) loc_Exact
  = S754_finite s q i.
Proof.
  intros (Hc & -> & Hq & Hi & a & b & Ha & Hb & Hab & ->) HM HT Heq Hd.
  pose proof (pow2_pos a Ha). pose proof (pow2_pos b Hb).
  pose proof (pow2_pos M HM). pose proof (pow2_pos T HT).
  assert (Zpos P * 2 ^ (M + a) = Zpos q * 2 ^ (b + T)) as Heq'.
  { rewrite !Z.pow_add_r by lia.
    transitivity (Zpos P * 2 ^ M * 2 ^ a); [ring|]. rewrite Heq.
    transitivity (Z.abs c * 2 ^ a * 2 ^ T); [ring|]. rewrite Hab. ring. }
  assert (Zpos (digits2_pos P) + (M + a) = 53 + (b + T)) as Hdig.
  { pose proof (pow2_pos (M + a) ltac:(lia)).
    destruct (Zpos P * 2 ^ (M + a)) as [|R|R] eqn:ER; [lia| |lia].
    rewrite <- (digits_shift P R (M + a)) by lia.
    rewrite <- Hq. apply (digits_shift q R (b + T)); lia. }
  set (n := b + T - (M + a)).
  replace (e + b - a) with (e + M - T + n) by lia.
  apply round_aux_exact; [lia| |done|lia].
  replace (b + T) with (n + (M + a)) in Heq' by lia.
  rewrite (Z.pow_add_r 2 n) in Heq' by lia.
  pose proof (pow2_pos (M + a) ltac:(lia)). nia.
Qed.

Lemma mul_holds (x y z : double) (a b ea eb : Z) :
  a ≠ 0 → b ≠ 0 →
  holds x a ea → holds y b eb → holds z (a * b) (ea + eb) →
  SFmul 53 1024 x y = z.
Proof.
  intros Ha0 Hb0 Hx Hy Hz.
  destruct x as [sx| | |sx qx ix]; try done; [by destruct Hx|].
  destruct y as [sy| | |sy qy iy]; try done; [by destruct Hy|].
  destruct z as [sz| | |sz qz iz]; try done; [destruct Hz; nia|].
  cbn [SFmul].
  destruct Hx as (_ & -> & Hqx & Hix & a1 & b1 & Ha1 & Hb1 & Hab1 & ->).
  destruct Hy as (_ & -> & Hqy & Hiy & a2 & b2 & Ha2 & Hb2 & Hab2 & ->).
  assert (sz = xorb (a <? 0) (b <? 0)) as Hs.
  { destruct Hz as (_ & -> & _).
    destruct (Z.ltb_spec a 0), (Z.ltb_spec b 0), (Z.ltb_spec (a * b) 0);
      (done || nia). }
  rewrite <- Hs.
  replace (ea + b1 - a1 + (eb + b2 - a2))
    with (ea + eb + (b1 + b2) - (a1 + a2)) by lia.
  apply (round_aux_holds sz qz _ iz (a * b)); [done|lia|lia| |].
  - rewrite Pos2Z.inj_mul, Z.abs_mul, !Z.pow_add_r by lia.
    transitivity ((Zpos qx * 2 ^ b1) * (Zpos qy * 2 ^ b2)); [ring|].
    rewrite <- Hab1, <- Hab2. ring.
  - pose proof (digits_bounds qx) as [Hx1 _]. rewrite Hqx in Hx1.
    pose proof (digits_bounds qy) as [Hy1 _]. rewrite Hqy in Hy1.
    pose proof (digits_bounds (qx * qy)) as [_ Hp].
    destruct (Z.le_gt_cases 53 (Zpos (digits2_pos (qx * qy)))) as [|Hlt];
      [done|].
    pose proof (Z.pow_le_mono_r 2 (Zpos (digits2_pos (qx * qy))) 52
                  ltac:(lia) ltac:(lia)).
    change (2 ^ (53 - 1)) with 4503599627370496 in *.
    change (2 ^ 52) with 4503599627370496 in *.
    rewrite Pos2Z.inj_mul in Hp. nia.
Qed.

(** Halving moves the exponent and loses nothing. *)
Lemma half_holds (x : double) (z e : Z) :
  holds x z e → -1020 <= e → holds (x / 2)%D z (e - 1).
Proof.
  intros Hx He.
  destruct x as [sx| | |s q i]; try done.
  - destruct Hx as [-> ->]. done.
  - pose proof (holds_exponent _ _ _ _ _ Hx) as Hi'.
    assert (SFdiv 53 1024 (S754_finite s q i)
              (S754_finite false 4503599627370496 (-51))
            = S754_finite s q (i - 1)) as ->.
    { destruct Hx as (_ & _ & Hq & Hi & _).
      cbn [SFdiv]. unfold SFdiv_core_binary. cbn [Zdigits2].
      rewrite Hq. change (Zpos (digits2_pos 4503599627370496)) with 53.
      replace (Z.min (fexp 53 1024 (53 + i - (53 + -51))) (i - -51))
        with (i - 2) by (unfold fexp, emin; lia).
      replace (i - -51 - (i - 2)) with 53 by lia.
      rewrite Z.shiftl_mul_pow2 by lia.
      assert (Z.div_eucl (Zpos q * 2 ^ 53) 4503599627370496
              = (Zpos q~0, 0)) as ->.
      { pose proof (Z.div_eucl_eq (Zpos q * 2 ^ 53) 4503599627370496
                      ltac:(lia)) as Heq.
        pose proof (Z.mod_pos_bound (Zpos q * 2 ^ 53) 4503599627370496
                      ltac:(lia)) as Hb.
        unfold Z.modulo in Hb.
        destruct (Z.div_eucl (Zpos q * 2 ^ 53) 4503599627370496) as [d r].
        change (2 ^ 53) with (2 * 4503599627370496) in Heq.
        assert (d = Zpos q~0 ∧ r = 0) as [-> ->] by nia. done. }
      change (new_location 4503599627370496 0) with loc_Exact.
      replace (i - 1) with (i - 2 + 1) by lia.
      replace (xorb s false) with s by (by destruct s).
      apply round_aux_exact; [lia|lia|done|lia]. }
    destruct Hx as (Hz & -> & Hq & Hi & a & b & Ha & Hb & Hab & ->).
    split; [done|]. split; [done|]. split; [done|]. split; [lia|].
    exists a, b. repeat split; try done. lia.
Qed.

End Operations.

Section Numbers.
Local Open Scope Z_scope.

Lemma Qpow2_nonzero (n : Z) : ¬ (2 ^ n == 0)%Q.
Proof.
  intros H. pose proof (Qpower_0_lt 2 n ltac:(reflexivity)) as Hp.
  rewrite H in Hp. by apply Qlt_irrefl in Hp.
Qed.

Lemma number_holds (x : double) (z e : Z) :
  holds x z e →
  ∃ v : Q, number x = Some v ∧ (v == inject_Z z * 2 ^ e)%Q.
Proof.
  destruct x as [s| | |s q i]; try done.
  - intros [-> ->]. exists 0%Q. split; [done|]. ring.
  - intros (Hz & -> & Hq & Hi & a & b & Ha & Hb & Hab & ->).
    eexists. split; [reflexivity|].
    set (W := if z <? 0 then Zneg q else Zpos q).
    assert (z * 2 ^ a = W * 2 ^ b) as HW.
    { subst W. destruct (Z.ltb_spec z 0).
      - rewrite Z.abs_neq in Hab by lia.
        change (Zneg q) with (- Zpos q). lia.
      - rewrite Z.abs_eq in Hab by lia. lia. }
    assert (inject_Z z * 2 ^ a == inject_Z W * 2 ^ b)%Q as HQ.
    { change 2%Q with (inject_Z 2).
      rewrite <- !Zpower_Qpower, <- !inject_Z_mult by lia. by rewrite HW. }
    pose proof (Qpow2_nonzero a) as HA.
    replace (e + b - a) with (e + b + - a) by lia.
    rewrite !Qpower_plus, Qpower_opp by (intros H; by apply (Qpow2_nonzero 1)).
    apply (Qmult_inj_r _ _ (2 ^ a) HA).
    transitivity (inject_Z z * 2 ^ a * 2 ^ e)%Q; [|ring].
    rewrite HQ. field. exact HA.
Qed.

(** [Math.pow(2, h)] for a whole [h] in the exponent range is [2^h]. *)
Lemma Math_pow2_holds (h : Z) :
  -1022 <= h <= 1023 → holds (Math_pow2 h) 1 h.
Proof.
  intros Hh. unfold Math_pow2.
  cbn [SFldexp].
  rewrite (round_exact false 4503599627370496 4503599627370496 (-52 + h) 0 0)
    by (done || lia).
  split; [done|]. split; [done|]. split; [done|]. split; [lia|].
  exists 52, 0. repeat split; try done. lia.
Qed.

Lemma Math_pow2_overflow (h : Z) : 1024 <= h → Math_pow2 h = S754_infinity false.
Proof.
  intros Hh. unfold Math_pow2.
  cbn [SFldexp]. unfold binary_round.
  change (Zpos (digits2_pos 4503599627370496)) with 53.
  replace (fexp 53 1024 (53 + (-52 + h))) with (-52 + h)
    by (unfold fexp, emin; lia).
  unfold shl_align. rewrite Z.sub_diag.
  unfold binary_round_aux, shr_fexp. cbn [shr_record_of_loc Zdigits2].
  change (Zpos (digits2_pos 4503599627370496)) with 53.
  replace (fexp 53 1024 (53 + (-52 + h)) - (-52 + h)) with 0
    by (unfold fexp, emin; lia).
  cbn [shr shr_m loc_of_shr_record round_nearest_even Zdigits2].
  change (Zpos (digits2_pos 4503599627370496)) with 53.
  replace (fexp 53 1024 (53 + (-52 + h)) - (-52 + h)) with 0
    by (unfold fexp, emin; lia).
  cbn [shr shr_m].
  destruct (Z.leb_spec (-52 + h) (1024 - 53)); [lia|done].
Qed.

End Numbers.

(** * The layout on a grid of doubles *)

Section Grid.
Local Open Scope Z_scope.

Lemma holds_exactly (x : double) (z e : Z) :
  holds x z e → exactly x (inject_Z z * 2 ^ e).
Proof.
  intros H. destruct (number_holds x z e H) as (v & Hv & Heq).
  unfold exactly. by rewrite Hv.
Qed.

Lemma Qpow2_pos (e : Z) : (0 < 2 ^ e)%Q.
Proof. by apply Qpower_0_lt. Qed.

Lemma holds_lessThan (x y : double) (a b e : Z) :
  holds x a e → holds y b e → a < b → lessThan x y.
Proof.
  intros Hx Hy Hlt.
  destruct (number_holds x a e Hx) as (v & Hv & Ev).
  destruct (number_holds y b e Hy) as (w & Hw & Ew).
  unfold lessThan. rewrite Hv, Hw, Ev, Ew.
  apply Qmult_lt_compat_r; [apply Qpow2_pos|]. by rewrite <- Zlt_Qlt.
Qed.

Lemma holds_atLeast (x y : double) (a b e : Z) (d : Q) :
  holds x a e → holds y b e →
  (inject_Z a * 2 ^ e + d <= inject_Z b * 2 ^ e)%Q → atLeast d x y.
Proof.
  intros Hx Hy Hle.
  destruct (number_holds x a e Hx) as (v & Hv & Ev).
  destruct (number_holds y b e Hy) as (w & Hw & Ew).
  unfold atLeast. by rewrite Hv, Hw, Ev, Ew.
Qed.

Lemma holds_ofZ (z : Z) : Z.abs z < 2 ^ 53 → holds (ofZ z) z 0.
Proof. intros H. by apply holds_fits. Qed.

(** The middle of an interval on the grid is on the grid, and so are the
    two halves. *)
Lemma midpoint_holds (e : Z) (D : nat) (A W : Z) (xs xe : double) :
  onGrid e (S D) A W xs xe →
  holds ((xs + xe) / 2)%D (A + W * 2 ^ Z.of_nat D) e
  ∧ onGrid e D A W xs ((xs + xe) / 2)%D
  ∧ onGrid e D (A + W * 2 ^ Z.of_nat D) W ((xs + xe) / 2)%D xe.
Proof.
  intros (HW & HA & HB & He & Hxs & Hxe).
  rewrite Nat2Z.inj_succ, Z.pow_succ_r in HB, Hxe by lia.
  pose proof (pow2_pos (Z.of_nat D) ltac:(lia)) as Hp.
  set (m := A + W * 2 ^ Z.of_nat D) in *.
  assert (Z.abs m < 2 ^ 53) as Hm by (subst m; nia).
  assert (holds ((xs + xe) / 2)%D m e) as Hmid.
  { assert (holds (dyadic (m * 2 ^ 1) e) (m * 2 ^ 1) e) as Hsum.
    { apply (holds_rep _ m e 1); [done|lia|done|lia|lia]. }
    assert ((xs + xe)%D = dyadic (m * 2 ^ 1) e) as ->.
    { apply (add_holds xs xe _ _ _ e Hxs Hxe).
      by replace (A + (A + W * (2 * 2 ^ Z.of_nat D))) with (m * 2 ^ 1)
        by (subst m; ring). }
    apply half_holds in Hsum; [|lia].
    apply (proj2 (holds_scale _ m (e - 1) 1 ltac:(lia))) in Hsum.
    by replace (e - 1 + 1) with e in Hsum by lia. }
  split; [done|]. split.
  - repeat split; try done; lia.
  - unfold onGrid.
    replace (m + W * 2 ^ Z.of_nat D) with (A + W * (2 * 2 ^ Z.of_nat D))
      by (subst m; ring).
    repeat split; try done; lia.
Qed.

Lemma onGrid_deeper (e : Z) (D D' : nat) (A W : Z) (xs xe : double) :
  (D' ≤ D)%nat → onGrid e D A W xs xe →
  onGrid e D' A (W * 2 ^ Z.of_nat (D - D')) xs xe.
Proof.
  intros Hle (HW & HA & HB & He & Hxs & Hxe).
  pose proof (pow2_pos (Z.of_nat (D - D')) ltac:(lia)) as Hp.
  assert (W * 2 ^ Z.of_nat (D - D') * 2 ^ Z.of_nat D' = W * 2 ^ Z.of_nat D)
    as Heq.
  { rewrite <- Z.mul_assoc, <- Z.pow_add_r by lia. do 2 f_equal. lia. }
  unfold onGrid. rewrite Heq. repeat split; try done; nia.
Qed.

Lemma placedX_wider (e A A' W : Z) (D D' : nat) (p : placement) :
  (D' ≤ D)%nat → A <= A' →
  A' + W * 2 ^ Z.of_nat D' <= A + W * 2 ^ Z.of_nat D →
  placedX e A' W D' p → placedX e A W D p.
Proof.
  intros HD HA HB (a & d & Hd & Ha & Hb & H1 & H2 & H3).
  exists a, d. repeat split; try done; lia.
Qed.

(** Every node of a tree laid out on the grid has its interval and its x on
    the grid. *)
Lemma layout_placedX (t : tree) :
  ∀ (L xs xe : double) (e A W : Z) (D : nat),
    (depth t ≤ D)%nat → onGrid e D A W xs xe →
    Forall (placedX e A W D) (layout t L xs xe).
Proof.
  induction t as [|l IHl a v r IHr]; intros L xs xe e A W D Hd Hg;
    [constructor|].
  cbn [depth] in Hd. destruct D as [|D]; [lia|].
  destruct (midpoint_holds e D A W xs xe Hg) as (Hmid & Hgl & Hgr).
  pose proof Hg as (HW & HA & HB & He & Hxs & Hxe).
  pose proof (pow2_pos (Z.of_nat D) ltac:(lia)) as Hp.
  assert (2 ^ Z.of_nat (S D) = 2 * 2 ^ Z.of_nat D) as HS
    by (rewrite Nat2Z.inj_succ, Z.pow_succ_r; lia).
  cbn [layout]. constructor.
  - exists A, (Z.of_nat (S D)). cbn [p_xStart p_xEnd p_x].
    split; [lia|]. split; [lia|]. split; [lia|]. split; [done|].
    split; [done|].
    replace (Z.of_nat (S D) - 1) with (Z.of_nat D) by lia. done.
  - apply Forall_app. split.
    + eapply Forall_impl; [apply (IHl _ _ _ e A W D); [lia|done]|].
      intros p. apply placedX_wider; [lia|lia|nia].
    + eapply Forall_impl;
        [apply (IHr _ _ _ e (A + W * 2 ^ Z.of_nat D) W D); [lia|done]|].
      intros p. apply placedX_wider; [lia|nia|nia].
Qed.

(** Levels: from [n + 1/2] on, one more at every generation. *)
Lemma layout_placedY (t : tree) :
  ∀ (L xs xe : double) (n : Z),
    0 <= n → n + Z.of_nat (depth t) < 2 ^ 40 → holds L (2 * n + 1) (-1) →
    Forall (placedY n (depth t)) (layout t L xs xe).
Proof.
  induction t as [|l IHl a v r IHr]; intros L xs xe n Hn Hb HL;
    [constructor|].
  cbn [depth] in Hb |- *.
  set (m := Nat.max (depth l) (depth r)) in *.
  change (2 ^ 40) with 1099511627776 in *.
  assert (holds (L + 1)%D (2 * (n + 1) + 1) (-1)) as HL1.
  { assert (holds 1%D 2 (-1)) as H1.
    { pose proof (holds_ofZ 1 ltac:(done)) as H.
      exact (proj1 (holds_scale _ 1 (-1) 1 ltac:(lia)) H). }
    assert (holds (dyadic (2 * n + 1 + 2) (-1)) (2 * n + 1 + 2) (-1)) as Hs.
    { apply holds_fits; [|lia]. change (2 ^ 53) with 9007199254740992. lia. }
    rewrite (add_holds _ _ _ _ _ _ HL H1 Hs).
    by replace (2 * (n + 1) + 1) with (2 * n + 1 + 2) by lia. }
  assert (∀ (s : tree) (xs' xe' : double),
            (depth s ≤ m)%nat →
            Forall (placedY (n + 1) (depth s)) (layout s (L + 1)%D xs' xe') →
            Forall (placedY n (S m)) (layout s (L + 1)%D xs' xe')) as Hsub.
  { intros s xs' xe' Hs HF. eapply Forall_impl; [exact HF|].
    intros p (k & Hk & H1 & H2). exists k. split; [lia|done]. }
  cbn [layout]. constructor.
  - exists n. cbn [p_level p_y]. split; [lia|]. split; [done|].
    assert (holds (dyadic ((2 * n + 1) * 90) (-1)) ((2 * n + 1) * 90) (-1))
      as Hy.
    { apply holds_fits; [|lia]. change (2 ^ 53) with 9007199254740992. lia. }
    change (nodeHeightSpacing DEFAULT_NODE_CONFIG) with 90%D.
    rewrite (mul_holds L 90%D (dyadic ((2 * n + 1) * 90) (-1))
               (2 * n + 1) 90 (-1) 0); [done|lia|lia|done| |].
    + exact (holds_ofZ 90 ltac:(done)).
    + done.
  - apply Forall_app. split.
    + apply Hsub; [lia|]. apply IHl; [lia|lia|done].
    + apply Hsub; [lia|]. apply IHr; [lia|lia|done].
Qed.

(** The intervals the recursion reaches are on the grid. *)
Lemma reaches_grid (t t' : tree) (L xs xe L' xs' xe' : double) :
  reaches t L xs xe t' L' xs' xe' →
  ∀ (e A W : Z) (D : nat),
    (depth t ≤ D)%nat → onGrid e D A W xs xe →
    ∃ (A' : Z) (D' : nat),
      (depth t' ≤ D')%nat ∧ (D' ≤ D)%nat ∧ onGrid e D' A' W xs' xe'
      ∧ A <= A' ∧ A' + W * 2 ^ Z.of_nat D' <= A + W * 2 ^ Z.of_nat D.
Proof.
  induction 1 as [t L xs xe
                 |l r a v L xs xe t' L' xs' xe' _ IH
                 |l r a v L xs xe t' L' xs' xe' _ IH];
    intros e A W D Hd Hg.
  - exists A, D. split; [done|]. split; [lia|]. split; [done|]. lia.
  - cbn [depth] in Hd. destruct D as [|D]; [lia|].
    destruct (midpoint_holds e D A W xs xe Hg) as (_ & Hgl & _).
    pose proof Hg as (HW & _).
    pose proof (pow2_pos (Z.of_nat D) ltac:(lia)) as Hp.
    assert (2 ^ Z.of_nat (S D) = 2 * 2 ^ Z.of_nat D) as HS
      by (rewrite Nat2Z.inj_succ, Z.pow_succ_r; lia).
    destruct (IH e A W D ltac:(lia) Hgl) as (A' & D' & H1 & H2 & H3 & H4 & H5).
    exists A', D'. split; [done|]. split; [lia|]. split; [done|]. nia.
  - cbn [depth] in Hd. destruct D as [|D]; [lia|].
    destruct (midpoint_holds e D A W xs xe Hg) as (_ & _ & Hgr).
    pose proof Hg as (HW & _).
    pose proof (pow2_pos (Z.of_nat D) ltac:(lia)) as Hp.
    assert (2 ^ Z.of_nat (S D) = 2 * 2 ^ Z.of_nat D) as HS
      by (rewrite Nat2Z.inj_succ, Z.pow_succ_r; lia).
    destruct (IH e (A + W * 2 ^ Z.of_nat D) W D ltac:(lia) Hgr)
      as (A' & D' & H1 & H2 & H3 & H4 & H5).
    exists A', D'. split; [done|]. split; [lia|]. split; [done|]. nia.
Qed.

End Grid.

Section Window.
Local Open Scope Z_scope.

Lemma exactly_equal (x : double) (v w : Q) :
  exactly x v → (v == w)%Q → exactly x w.
Proof.
  unfold exactly. destruct (number x) as [a|]; [|done].
  intros H1 H2. by rewrite H1.
Qed.

Lemma roomFor_height (w : double) (g N h : Z) :
  roomFor w g N h → h <= 54.
Proof.
  intros (Hg & HN & Hh & Hw & Hb).
  pose proof (pow2_pos (h - g + 1) ltac:(lia)) as Hp.
  assert (2 ^ (h - g + 1) < 2 ^ 53) as Hlt by lia.
  apply Z.pow_lt_mono_r_iff in Hlt; lia.
Qed.

(** The interval [drawBTree] starts from is on the grid of step
    [2^(g-1)]: it is centred at half the width of the window and its half
    width is [2^h * 25]. *)
Lemma initial_grid (w : double) (g N : Z) (t : tree) :
  roomFor w g N (treeHeight t) →
  onGrid (g - 1) (depth t)
    (N - 25 * 2 ^ (treeHeight t - g + 1)) (25 * 2 ^ (2 - g))
    (initialStart w (treeHeight t)) (initialEnd w (treeHeight t)).
Proof.
  intros Hroom. pose proof (roomFor_height _ _ _ _ Hroom) as Hh54.
  destruct Hroom as (Hg & HN & Hh & Hw & Hb).
  set (h := treeHeight t) in *.
  pose proof (pow2_pos (h - g + 1) ltac:(lia)) as Hp.
  pose proof (pow2_pos (2 - g) ltac:(lia)) as Hp2.
  assert (25 * 2 ^ (2 - g) * 2 ^ Z.of_nat (depth t) = 2 * (25 * 2 ^ (h - g + 1)))
    as Hwidth.
  { rewrite <- treeHeight_depth. fold h.
    rewrite <- Z.mul_assoc, <- Z.pow_add_r by lia.
    replace (2 - g + h) with (Z.succ (h - g + 1)) by lia.
    rewrite Z.pow_succ_r by lia. ring. }
  (* the centre of the window *)
  assert (holds (w / 2)%D N (g - 1)) as Hwc.
  { apply half_holds in Hw; [|lia].
    apply (proj2 (holds_scale _ N (0 - 1) g ltac:(lia))) in Hw.
    by replace (0 - 1 + g) with (g - 1) in Hw by lia. }
  (* half the width of the tree *)
  assert (holds ((Math_pow2 h * 50) / 2)%D (25 * 2 ^ (h - g + 1)) (g - 1))
    as Hhw.
  { assert (holds (dyadic 50 h) 50 h) as H50 by (apply holds_fits; [done|lia]).
    assert ((Math_pow2 h * 50)%D = dyadic 50 h) as ->.
    { apply (mul_holds _ _ _ 1 50 h 0); [done|done| | |].
      - apply Math_pow2_holds. lia.
      - exact (holds_ofZ 50 ltac:(done)).
      - by rewrite Z.add_0_r. }
    apply half_holds in H50; [|lia].
    apply (proj2 (holds_scale _ 25 (h - 1) 1 ltac:(lia))) in H50.
    apply (proj1 (holds_scale _ 25 (g - 1) (h - g + 1) ltac:(lia))).
    by replace (g - 1 + (h - g + 1)) with (h - 1 + 1) by lia. }
  unfold onGrid. rewrite Hwidth.
  split; [lia|]. split; [lia|]. split; [lia|]. split; [lia|].
  unfold initialStart, initialEnd.
  change (nodeWidthSpacing DEFAULT_NODE_CONFIG) with 50%D.
  split.
  - assert (holds (dyadic (N - 25 * 2 ^ (h - g + 1)) (g - 1))
              (N - 25 * 2 ^ (h - g + 1)) (g - 1)) as Hs
      by (apply holds_fits; lia).
    by rewrite (sub_holds _ _ _ _ _ _ Hwc Hhw Hs).
  - assert (holds (dyadic (N + 25 * 2 ^ (h - g + 1)) (g - 1))
              (N + 25 * 2 ^ (h - g + 1)) (g - 1)) as Hs
      by (apply holds_fits; lia).
    rewrite (add_holds _ _ _ _ _ _ Hwc Hhw Hs).
    by replace (N - 25 * 2 ^ (h - g + 1) + 2 * (25 * 2 ^ (h - g + 1)))
      with (N + 25 * 2 ^ (h - g + 1)) by lia.
Qed.

Lemma onGrid_depth (e : Z) (D : nat) (A W : Z) (xs xe : double) :
  onGrid e D A W xs xe → Z.of_nat D <= 54.
Proof.
  intros (HW & HA & HB & _).
  pose proof (pow2_pos (Z.of_nat D) ltac:(lia)) as Hp.
  assert (2 ^ Z.of_nat D < 2 ^ 54) as Hlt.
  { change (2 ^ 54) with (2 * 2 ^ 53). nia. }
  apply Z.pow_lt_mono_r_iff in Hlt; lia.
Qed.

Lemma onGrid_lessThan (e : Z) (D : nat) (A W : Z) (xs xe : double) :
  onGrid e D A W xs xe → lessThan xs xe.
Proof.
  intros (HW & HA & HB & He & Hxs & Hxe).
  pose proof (pow2_pos (Z.of_nat D) ltac:(lia)) as Hp.
  apply (holds_lessThan _ _ _ _ _ Hxs Hxe). nia.
Qed.

End Window.


Section Exact.
Local Open Scope Z_scope.

Lemma pow2_step (d : Z) : 1 <= d → 2 ^ d = 2 * 2 ^ (d - 1) ∧ 1 <= 2 ^ (d - 1).
Proof.
  intros Hd. pose proof (pow2_pos (d - 1) ltac:(lia)).
  split; [|lia]. rewrite <- Z.pow_succ_r by lia. f_equal. lia.
Qed.



End Exact.

(** * Sibling subtrees *)

Lemma descend_reaches (n : nat) :
  ∀ (t t' : tree) (L xs xe L' xs' xe' : double),
    descend n t L xs xe = (t', L', xs', xe') →
    reaches t L xs xe t' L' xs' xe'.
Proof.
  induction n as [|n IH]; intros t t' L xs xe L' xs' xe' Hd.
  - destruct t; injection Hd as <- <- <- <-; apply reaches_here.
  - destruct t as [|l a v r]; cbn [descend] in Hd.
    + injection Hd as <- <- <- <-. apply reaches_here.
    + apply reaches_left. by apply IH.
Qed.

(** C2, as amended.  In the layout of a tree on an interval whose
    bisections are all doubles (the ends are whole multiples of a power of
    two, below [2^53] in size, and as many times even apart as the tree is
    deep), for every node reached by the recursion, every node of its left
    child's subtree is placed at an x strictly smaller than every node of its
    right child's subtree.  The pass returns, and the circles it draws are
    those of the placements.  The interval [drawBTree] starts from is such an
    interval when the window has room for the tree. *)
Theorem sibling_subtrees_do_not_overlap (st : store) (root : ref) (t : tree)
    (fuel : nat) (L xs xe : double) (e A W : Z) :
  repr (nodes st) (Some root) t → depth t ≤ fuel →
  onGrid e (depth t) A W xs xe →
  recursivelyDrawNodes fuel root L (mkX xs xe) st
  = Some (tt, emit st (render t L xs xe))
  ∧ circles (render t L xs xe)
    = flat_map (λ p, [circleOf p; circleOf p]) (layout t L xs xe)
  ∧ lessThan xs xe
  ∧ (∀ (l r : tree) (a : ref) (v : jsval) (L' xs' xe' : double),
       reaches t L xs xe (Obj l a v r) L' xs' xe' →
       ∀ p q : placement,
         p ∈ layout l (L' + 1)%D xs' ((xs' + xe') / 2)%D →
         q ∈ layout r (L' + 1)%D ((xs' + xe') / 2)%D xe' →
         p ∈ layout t L xs xe ∧ q ∈ layout t L xs xe
         ∧ lessThan (p_x p) (p_x q))
  ∧ (∀ g N : Z,
       roomFor (innerWidth st) g N (treeHeight t) →
       onGrid (g - 1) (depth t)
         (N - 25 * 2 ^ (treeHeight t - g + 1)) (25 * 2 ^ (2 - g))
         (initialStart (innerWidth st) (treeHeight t))
         (initialEnd (innerWidth st) (treeHeight t))).
Proof.
  intros Hrep Hfuel Hgrid.
  split; [by apply recursivelyDrawNodes_run|].
  split; [apply circles_render|].
  split; [by apply (onGrid_lessThan e (depth t) A W)|].
  split; [|intros g N; apply initial_grid].
  intros l r a v L' xs' xe' Hreach p q Hp Hq.
  split.
  { eapply reaches_layout; [|exact Hp].
    eapply reaches_trans; [exact Hreach|]. apply reaches_left, reaches_here. }
  split.
  { eapply reaches_layout; [|exact Hq].
    eapply reaches_trans; [exact Hreach|]. apply reaches_right, reaches_here. }
  destruct (reaches_grid _ _ _ _ _ _ _ _ Hreach e A W (depth t) ltac:(lia) Hgrid)
    as (A' & D' & Hd' & _ & Hg' & _).
  cbn [depth] in Hd'. destruct D' as [|D']; [lia|].
  destruct (midpoint_holds e D' A' W xs' xe' Hg') as (_ & Hgl & Hgr).
  pose proof Hg' as (HW & _).
  pose proof (layout_placedX l (L' + 1)%D _ _ e A' W D' ltac:(lia) Hgl) as Hl.
  pose proof (layout_placedX r (L' + 1)%D _ _ e _ W D' ltac:(lia) Hgr) as Hr.
  rewrite Forall_forall in Hl, Hr.
  destruct (Hl p Hp) as (ap & dp & Hdp & _ & Hbp & _ & _ & Hxp).
  destruct (Hr q Hq) as (aq & dq & Hdq & Haq & _ & _ & _ & Hxq).
  apply (holds_lessThan _ _ _ _ _ Hxp Hxq).
  destruct (pow2_step dp ltac:(lia)) as [Ep Pp].
  destruct (pow2_step dq ltac:(lia)) as [Eq Pq].
  nia.
Qed.

(** C2 as first stated fails.  In a window 1280 wide, for the tree of
    height 55 that goes 53 times to the left and ends in a node with two
    leaves, the interval [drawBTree] starts from is not degenerate, and the
    two leaves are placed at the same x: at that depth the halves of the
    interval are narrower than the gap between neighbouring doubles. *)
Lemma deep_siblings_coincide :
  ∃ (t l r : tree) (a : ref) (v : jsval) (L' xs' xe' : double)
    (p q : placement),
    builtTree (leftSpine 53 ",1,1") = Some t
    ∧ treeHeight t = 55%Z
    ∧ lessThan (initialStart 1280 55) (initialEnd 1280 55)
    ∧ reaches t half (initialStart 1280 55) (initialEnd 1280 55)
        (Obj l a v r) L' xs' xe'
    ∧ p ∈ layout l (L' + 1)%D xs' ((xs' + xe') / 2)%D
    ∧ q ∈ layout r (L' + 1)%D ((xs' + xe') / 2)%D xe'
    ∧ p_x p = p_x q
    ∧ ¬ lessThan (p_x p) (p_x q).
Proof.
  eexists _, _, _, _, _, _, _, _, _, _.
  split; [vm_compute; reflexivity|].
  split; [vm_compute; reflexivity|].
  split; [vm_compute; reflexivity|].
  split; [apply (descend_reaches 53); vm_compute; reflexivity|].
  split; [cbn [layout]; apply elem_of_cons; left; reflexivity|].
  split; [cbn [layout]; apply elem_of_cons; left; reflexivity|].
  split; [vm_compute; reflexivity|].
  intros H. vm_compute in H. discriminate.
Qed.

Lemma sample_grid : onGrid 0 (depth sample_tree) 0 100 0 800.
Proof.
  split; [done|]. split; [done|]. split; [done|]. split; [done|].
  split; [done|]. exact (holds_ofZ 800 ltac:(done)).
Qed.

(** In the sample tree laid out on [[0, 800]], the subtree of 3 lies to the
    left of the subtree of 8. *)
Lemma sibling_subtrees_do_not_overlap_witness :
  repr (nodes sample_store) (Some 0) sample_tree
  ∧ depth sample_tree ≤ 3
  ∧ onGrid 0 (depth sample_tree) 0 100 0 800
  ∧ ∀ p q : placement,
      p ∈ layout sample_left (half + 1)%D 0 ((0 + 800) / 2)%D →
      q ∈ layout sample_right (half + 1)%D ((0 + 800) / 2)%D 800 →
      p ∈ layout sample_tree half 0 800
      ∧ q ∈ layout sample_tree half 0 800
      ∧ lessThan (p_x p) (p_x q).
Proof.
  split; [exact sample_repr|]. split; [exact sample_depth|].
  split; [exact sample_grid|].
  exact (proj1 (proj2 (proj2 (proj2
           (sibling_subtrees_do_not_overlap sample_store 0
              sample_tree 3 half 0 800 0 0 100
              sample_repr sample_depth sample_grid))))
           sample_left sample_right 0 (JSString "5") half 0%D 800%D
           (reaches_here sample_tree half 0 800)).
Defined.

(** * Positions *)




(** * The size of the canvas *)

Section Size.
Local Open Scope Z_scope.

Lemma Math_pow2_finite (h : Z) :
  -1022 <= h <= 1023 →
  Math_pow2 h = S754_finite false 4503599627370496 (h - 52).
Proof.
  intros Hh. unfold Math_pow2. cbn [SFldexp].
  rewrite (round_exact false 4503599627370496 4503599627370496 (-52 + h) 0 0)
    by (done || lia).
  f_equal. lia.
Qed.

(** The width is the number [2^h * 50] up to height 1018. *)
Lemma width_holds (h : Z) :
  0 <= h <= 1018 →
  holds (Math_pow2 h * nodeWidthSpacing DEFAULT_NODE_CONFIG)%D 50 h.
Proof.
  intros Hh.
  set (z := S754_finite false 7036874417766400 (h - 47)).
  assert (holds z 50 h) as Hz.
  { split; [done|]. split; [done|]. split; [done|]. split; [lia|].
    exists 47, 0. split; [done|]. split; [done|]. split; [done|]. lia. }
  assert (holds z (1 * 50) (h + 0)) as Hz' by (by rewrite Z.add_0_r).
  rewrite (mul_holds (Math_pow2 h) (nodeWidthSpacing DEFAULT_NODE_CONFIG) z
             1 50 h 0); [exact Hz | done | done | | | exact Hz'].
  - apply Math_pow2_holds. lia.
  - exact (holds_ofZ 50 ltac:(done)).
Qed.

(** From height 1019 on it is infinite. *)
Lemma width_overflow (h : Z) :
  1019 <= h →
  (Math_pow2 h * nodeWidthSpacing DEFAULT_NODE_CONFIG)%D = S754_infinity false.
Proof.
  intros Hh. destruct (Z.le_gt_cases 1024 h) as [Hbig|Hsmall].
  - by rewrite Math_pow2_overflow.
  - rewrite Math_pow2_finite by lia.
    change (nodeWidthSpacing DEFAULT_NODE_CONFIG)
      with (S754_finite false 7036874417766400 (-47)).
    cbn [SFmul xorb].
    rewrite (round_aux_shift false _ 7036874417766400 (h - 52 + -47) 52);
      [| done | done | done | lia].
    destruct (Z.leb_spec (h - 52 + -47 + 52) 971); [lia|done].
Qed.

(** The height is the number [h * 90]. *)
Lemma height_holds (h : Z) :
  1 <= h < 2 ^ 46 →
  holds (ofZ h * nodeHeightSpacing DEFAULT_NODE_CONFIG)%D (h * 90) 0.
Proof.
  intros Hh. change (2 ^ 46) with 70368744177664 in Hh.
  assert (holds (ofZ (h * 90)) (h * 90) (0 + 0)) as Hz.
  { apply (holds_ofZ (h * 90)).
    change (2 ^ 53) with 9007199254740992. lia. }
  rewrite (mul_holds (ofZ h) (nodeHeightSpacing DEFAULT_NODE_CONFIG)
             (ofZ (h * 90)) h 90 0 0); [exact Hz | lia | done | | | exact Hz].
  - apply holds_ofZ. change (2 ^ 53) with 9007199254740992. lia.
  - exact (holds_ofZ 90 ltac:(done)).
Qed.

End Size.

(** C5, as amended.  For every root of height [h], [getRequiredHeightWidth]
    returns the doubles [Math.pow(2, h) * nodeWidthSpacing] and
    [h * nodeHeightSpacing], with spacings 50 and 90.  Up to height 1018 the
    width is the number [2^h * 50], from height 1019 on it is [Infinity];
    the height is the number [h * 90].  For the tree built from [7] the
    width is [2 * nodeWidthSpacing]. *)
Theorem getRequiredHeightWidth_correct (st : store) (root : ref) (t : tree)
    (fuel : nat) :
  repr (nodes st) (Some root) t → depth t ≤ fuel →
  ∃ d : dimensions,
    getRequiredHeightWidth fuel root st = Some (d, st)
    ∧ canvasWidth d
      = (Math_pow2 (treeHeight t) * nodeWidthSpacing DEFAULT_NODE_CONFIG)%D
    ∧ canvasHeight d
      = (ofZ (treeHeight t) * nodeHeightSpacing DEFAULT_NODE_CONFIG)%D
    ∧ nodeWidthSpacing DEFAULT_NODE_CONFIG = 50%D
    ∧ nodeHeightSpacing DEFAULT_NODE_CONFIG = 90%D
    ∧ ((treeHeight t <= 1018)%Z →
       exactly (canvasWidth d) (2 ^ treeHeight t * 50))
    ∧ ((1019 <= treeHeight t)%Z → canvasWidth d = S754_infinity false)
    ∧ ((treeHeight t < 2 ^ 46)%Z →
       exactly (canvasHeight d) (inject_Z (treeHeight t) * 90))
    ∧ ∃ (st7 : store) (d7 : dimensions),
        treeConstructor "7" (empty_store 0 0) = Some (0, st7)
        ∧ repr (nodes st7) (Some 0) (Obj Null 0 (JSString "7") Null)
        ∧ treeHeight (Obj Null 0 (JSString "7") Null) = 1%Z
        ∧ getRequiredHeightWidth 1 0 st7 = Some (d7, st7)
        ∧ canvasWidth d7 = (2 * nodeWidthSpacing DEFAULT_NODE_CONFIG)%D
        ∧ exactly (canvasWidth d7) 100.
Proof.
  intros Hrep Hfuel.
  assert (1 <= treeHeight t)%Z as Hpos.
  { destruct (repr_some_inv _ _ _ Hrep) as (n & l & r & -> & _).
    apply treeHeight_obj_pos. }
  eexists. split; [by apply getRequiredHeightWidth_run|]. cbn [canvasWidth canvasHeight].
  split; [done|]. split; [done|]. split; [done|]. split; [done|].
  split.
  { intros Hh. eapply exactly_equal.
    - apply (holds_exactly _ 50 (treeHeight t)). apply width_holds. lia.
    - change (inject_Z 50) with 50%Q. ring. }
  split; [apply width_overflow|].
  split.
  { intros Hh. eapply exactly_equal.
    - apply (holds_exactly _ (treeHeight t * 90) 0).
      apply height_holds. lia.
    - rewrite inject_Z_mult. change (inject_Z 90) with 90%Q.
      change (2 ^ 0)%Q with 1%Q. ring. }
  eexists _, _. split; [vm_compute; reflexivity|].
  split; [apply (reify_repr 1); vm_compute; reflexivity|].
  split; [done|]. split; [vm_compute; reflexivity|].
  split; [vm_compute; reflexivity|].
  vm_compute. reflexivity.
Qed.

(** The sample tree, of height 3: the canvas is 400 wide and 270 high. *)
Lemma getRequiredHeightWidth_correct_witness :
  repr (nodes sample_store) (Some 0) sample_tree
  ∧ depth sample_tree ≤ 3
  ∧ ∃ d : dimensions,
      getRequiredHeightWidth 3 0 sample_store = Some (d, sample_store)
      ∧ canvasWidth d = 400%D ∧ canvasHeight d = 270%D.
Proof.
  split; [exact sample_repr|]. split; [exact sample_depth|].
  destruct (getRequiredHeightWidth_correct sample_store 0 sample_tree 3
              sample_repr sample_depth) as (d & Hrun & Hw & Hh & _).
  exists d. split; [exact Hrun|]. split.
  - rewrite Hw. vm_compute. reflexivity.
  - rewrite Hh. vm_compute. reflexivity.
Defined.

(** C5 as first stated fails for tall trees: the tree that goes 1018 times
    to the left has height 1019, and the width computed for it is
    [Infinity], which is no number at all, let alone [2^1019 * 50]. *)
Lemma tall_tree_width_is_infinite :
  ∃ (t : tree) (root : ref) (st : store) (d : dimensions),
    treeConstructor (leftSpine 1018 "") (empty_store 1280 720)
    = Some (root, st)
    ∧ reify (length (nodes st)) (nodes st) (Some root) = Some t
    ∧ treeHeight t = 1019%Z
    ∧ getRequiredHeightWidth 1019 root st = Some (d, st)
    ∧ canvasWidth d = S754_infinity false
    ∧ number (canvasWidth d) = None
    ∧ ¬ exactly (canvasWidth d) (2 ^ 1019 * 50).
Proof.
  eexists _, _, _, _.
  split; [vm_compute; reflexivity|].
  split; [vm_compute; reflexivity|].
  split; [vm_compute; reflexivity|].
  split; [vm_compute; reflexivity|].
  split; [reflexivity|]. split; [reflexivity|].
  intros H. exact H.
Qed.

(** * How far apart the circles are *)

Section Spread.
Local Open Scope Z_scope.

Lemma holds_atLeast_units (x y : double) (a b k e : Z) (d : Q) :
  holds x a e → holds y b e → a + k <= b →
  (d <= inject_Z k * 2 ^ e)%Q → atLeast d x y.
Proof.
  intros Hx Hy Hle Hd. apply (holds_atLeast x y a b e); [done|done|].
  pose proof (Qpow2_pos e) as Hp.
  assert (inject_Z a + inject_Z k <= inject_Z b)%Q as Hq
    by (rewrite <- inject_Z_plus, <- Zle_Qle; lia).
  set (p := (2 ^ e)%Q) in *. nra.
Qed.

Lemma atLeast_holds (x y : double) (a b e : Z) :
  holds x a e → holds y b e → atLeast 0 x y → a <= b.
Proof.
  intros Hx Hy Hle.
  destruct (number_holds x a e Hx) as (v & Hv & Ev).
  destruct (number_holds y b e Hy) as (w & Hw & Ew).
  unfold atLeast in Hle. rewrite Hv, Hw, Ev, Ew in Hle.
  pose proof (Qpow2_pos e) as Hp. set (p := (2 ^ e)%Q) in *.
  destruct (Z.le_gt_cases a b) as [|Hgt]; [done|exfalso].
  assert (inject_Z b + 1 <= inject_Z a)%Q as Hq.
  { change 1%Q with (inject_Z 1). rewrite <- inject_Z_plus, <- Zle_Qle. lia. }
  nra.
Qed.

Lemma atLeast_trans (d d' : Q) (x y z : double) :
  atLeast d x y → atLeast d' y z → atLeast (d + d') x z.
Proof.
  unfold atLeast.
  destruct (number x), (number y), (number z); try tauto. lra.
Qed.

Lemma holds_zero (e : Z) : holds 0%D 0 e.
Proof. done. Qed.

Lemma holds_half : holds half 1 (-1).
Proof.
  split; [done|]. split; [done|]. split; [done|]. split; [done|].
  by exists 52, 0.
Qed.

(** One level down, and the height of a level. *)
Lemma level_step (L : double) (n : Z) :
  0 <= n < 2 ^ 40 → holds L (2 * n + 1) (-1) →
  holds (L + 1)%D (2 * (n + 1) + 1) (-1).
Proof.
  intros Hn HL. change (2 ^ 40) with 1099511627776 in Hn.
  assert (holds 1%D 2 (-1)) as H1.
  { pose proof (holds_ofZ 1 ltac:(done)) as H.
    exact (proj1 (holds_scale _ 1 (-1) 1 ltac:(lia)) H). }
  assert (holds (dyadic (2 * n + 1 + 2) (-1)) (2 * n + 1 + 2) (-1)) as Hs.
  { apply holds_fits; [|lia]. change (2 ^ 53) with 9007199254740992. lia. }
  rewrite (add_holds _ _ _ _ _ _ HL H1 Hs).
  by replace (2 * (n + 1) + 1) with (2 * n + 1 + 2) by lia.
Qed.

Lemma level_height (L : double) (n : Z) :
  0 <= n < 2 ^ 40 → holds L (2 * n + 1) (-1) →
  holds (L * nodeHeightSpacing DEFAULT_NODE_CONFIG)%D ((2 * n + 1) * 90) (-1).
Proof.
  intros Hn HL. change (2 ^ 40) with 1099511627776 in Hn.
  assert (holds (dyadic ((2 * n + 1) * 90) (-1)) ((2 * n + 1) * 90) (-1))
    as Hy.
  { apply holds_fits; [|lia]. change (2 ^ 53) with 9007199254740992. lia. }
  change (nodeHeightSpacing DEFAULT_NODE_CONFIG) with 90%D.
  rewrite (mul_holds L 90%D (dyadic ((2 * n + 1) * 90) (-1))
             (2 * n + 1) 90 (-1) 0); [done|lia|lia|done| |done].
  exact (holds_ofZ 90 ltac:(done)).
Qed.

(** On a grid every node keeps one step from the ends of the interval. *)
Lemma layout_within (t : tree) (L xs xe : double) (e A W : Z) (D : nat) :
  (depth t ≤ D)%nat → onGrid e D A W xs xe →
  Forall (λ p, ∃ X : Z, holds (p_x p) X e
                        ∧ A + W <= X ∧ X + W <= A + W * 2 ^ Z.of_nat D)
         (layout t L xs xe).
Proof.
  intros Hd Hg. pose proof Hg as (HW & _).
  eapply Forall_impl; [exact (layout_placedX t L xs xe e A W D Hd Hg)|].
  intros p (a & d & Hd1 & Ha & Hb & _ & _ & Hx).
  destruct (pow2_step d ltac:(lia)) as [Hs Hp].
  exists (a + W * 2 ^ (d - 1)). split; [done|]. nia.
Qed.

(** Any two nodes are a grid step apart or a level apart. *)
Lemma layout_apart (t : tree) :
  ∀ (L xs xe : double) (e A W : Z) (D : nat) (n : Z),
    (depth t ≤ D)%nat → onGrid e D A W xs xe →
    (50 <= inject_Z W * 2 ^ e)%Q →
    0 <= n → n + Z.of_nat (depth t) < 2 ^ 40 → holds L (2 * n + 1) (-1) →
    ForallOrdPairs apart (layout t L xs xe).
Proof.
  induction t as [|l IHl a v r IHr]; intros L xs xe e A W D n Hd Hg HW Hn Hb HL;
    [constructor|].
  cbn [depth] in Hd, Hb. destruct D as [|D]; [lia|].
  destruct (midpoint_holds e D A W xs xe Hg) as (Hmid & Hgl & Hgr).
  pose proof (level_step L n ltac:(lia) HL) as HL1.
  pose proof (level_height L n ltac:(lia) HL) as Hy.
  assert (∀ (s : tree) (xs' xe' : double),
            (depth s ≤ Nat.max (depth l) (depth r))%nat →
            Forall (apart (mkPlacement a v L xs xe ((xs + xe) / 2)%D
                             (L * nodeHeightSpacing DEFAULT_NODE_CONFIG)%D))
                   (layout s (L + 1)%D xs' xe')) as Hbelow.
  { intros s xs' xe' Hs.
    eapply Forall_impl;
      [apply (layout_placedY s (L + 1)%D xs' xe' (n + 1)); [lia|lia|done]|].
    intros q (k & Hk & _ & Hq). unfold apart. cbn [p_x p_y].
    right. right. left.
    apply (holds_atLeast_units _ _ ((2 * n + 1) * 90) ((2 * k + 1) * 90)
             180 (-1)); [done|done|lia|done]. }
  cbn [layout]. constructor.
  - apply Forall_app. split; apply Hbelow; lia.
  - apply ForallOrdPairs_app.
    + apply (IHl _ _ _ e A W D (n + 1)); [lia|done|done|lia|lia|done].
    + apply (IHr _ _ _ e (A + W * 2 ^ Z.of_nat D) W D (n + 1));
        [lia|done|done|lia|lia|done].
    + intros p q Hp Hq.
      pose proof (layout_within l (L + 1)%D _ _ e A W D ltac:(lia) Hgl) as Fl.
      pose proof (layout_within r (L + 1)%D _ _ e _ W D ltac:(lia) Hgr) as Fr.
      rewrite Forall_forall in Fl, Fr.
      destruct (Fl p Hp) as (X & HX & _ & HX2).
      destruct (Fr q Hq) as (Y & HY & HY1 & _).
      pose proof Hg as (HW0 & _).
      unfold apart. left.
      apply (holds_atLeast_units _ _ X Y W e); [done|done|lia|done].
Qed.

(** A grid step of the interval [drawBTree] starts from is 50. *)
Lemma initial_step (g : Z) :
  0 <= g <= 2 → (inject_Z (25 * 2 ^ (2 - g)) * 2 ^ (g - 1) == 50)%Q.
Proof.
  intros Hg. assert (g = 0 ∨ g = 1 ∨ g = 2) as [->|[->| ->]] by lia; done.
Qed.

End Spread.

(** X8. In a window with room for the tree, no two circles drawn by
    [drawBTree] touch: the centres of any two nodes are at least
    [nodeWidthSpacing = 50] apart horizontally or at least
    [nodeHeightSpacing = 90] apart vertically, and the diameter of a circle
    is 40. *)
Theorem drawn_circles_do_not_touch (st : store) (rootEl : ref) (t : tree)
    (fuel : nat) (g N : Z) :
  repr (nodes st) (Some rootEl) t → depth t ≤ fuel →
  roomFor (innerWidth st) g N (treeHeight t) →
  ∃ cs : list ctx_call,
    drawBTree fuel rootEl st = Some (tt, emit (resized st) cs)
    ∧ circles cs
      = flat_map (λ p, [circleOf p; circleOf p])
          (layout t half (initialStart (innerWidth st) (treeHeight t))
                  (initialEnd (innerWidth st) (treeHeight t)))
    ∧ ForallOrdPairs apart
        (layout t half (initialStart (innerWidth st) (treeHeight t))
                (initialEnd (innerWidth st) (treeHeight t)))
    ∧ exactly (2 * radius DEFAULT_NODE_CONFIG)%D 40
    ∧ exactly (nodeWidthSpacing DEFAULT_NODE_CONFIG) 50
    ∧ exactly (nodeHeightSpacing DEFAULT_NODE_CONFIG) 90.
Proof.
  intros Hrep Hfuel Hroom. eexists.
  split; [by apply drawBTree_run|]. split; [apply circles_render|].
  split; [|split; [|split]; reflexivity].
  pose proof (initial_grid _ _ _ t Hroom) as Hgrid.
  pose proof (onGrid_depth _ _ _ _ _ _ Hgrid) as Hdepth.
  destruct Hroom as (Hg & _).
  apply (layout_apart t half _ _ _ _ _ (depth t) 0%Z (le_n _) Hgrid).
  - rewrite (initial_step g Hg). lra.
  - done.
  - change (2 ^ 40)%Z with 1099511627776%Z. lia.
  - exact holds_half.
Qed.

(** The sample tree in a window 1280 wide. *)
Lemma drawn_circles_do_not_touch_witness :
  repr (nodes sample_store) (Some 0) sample_tree
  ∧ depth sample_tree ≤ 3
  ∧ roomFor (innerWidth sample_store) 2 320 (treeHeight sample_tree)
  ∧ ForallOrdPairs apart
      (layout sample_tree half (initialStart 1280 3) (initialEnd 1280 3)).
Proof.
  assert (roomFor (innerWidth sample_store) 2 320 (treeHeight sample_tree))
    as Hroom.
  { split; [done|]. split; [done|]. split; [done|].
    split; [exact (holds_ofZ 1280 ltac:(done))|done]. }
  split; [exact sample_repr|]. split; [exact sample_depth|].
  split; [exact Hroom|].
  destruct (drawn_circles_do_not_touch sample_store 0 sample_tree 3 2 320
              sample_repr sample_depth Hroom) as (cs & _ & _ & Hapart & _).
  exact Hapart.
Defined.

(** X9. In a window with room for the tree, every circle drawn by
    [drawBTree] lies inside the rectangle the layout computes for the tree:
    between the ends of the initial interval and between 0 and
    [canvasHeight = height * nodeHeightSpacing].  The canvas itself is given
    the size of the window, so the circles are on the canvas when the window
    is at least as wide as [canvasWidth] and at least as high as
    [canvasHeight]. *)
Theorem drawn_circles_inside (st : store) (rootEl : ref) (t : tree)
    (fuel : nat) (g N : Z) :
  repr (nodes st) (Some rootEl) t → depth t ≤ fuel →
  roomFor (innerWidth st) g N (treeHeight t) →
  ∃ (cs : list ctx_call) (dims : dimensions),
    drawBTree fuel rootEl st = Some (tt, emit (resized st) cs)
    ∧ getRequiredHeightWidth fuel rootEl st = Some (dims, st)
    ∧ width (canvasEl (emit (resized st) cs)) = innerWidth st
    ∧ height (canvasEl (emit (resized st) cs)) = innerHeight st
    ∧ circles cs
      = flat_map (λ p, [circleOf p; circleOf p])
          (layout t half (initialStart (innerWidth st) (treeHeight t))
                  (initialEnd (innerWidth st) (treeHeight t)))
    ∧ exactly (radius DEFAULT_NODE_CONFIG) 20
    ∧ Forall (λ p,
        atLeast 20 (initialStart (innerWidth st) (treeHeight t)) (p_x p)
        ∧ atLeast 20 (p_x p) (initialEnd (innerWidth st) (treeHeight t))
        ∧ atLeast 20 0 (p_y p)
        ∧ atLeast 20 (p_y p) (canvasHeight dims)
        ∧ (atLeast 0 (canvasWidth dims) (innerWidth st) →
           atLeast 20 0 (p_x p) ∧ atLeast 20 (p_x p) (innerWidth st))
        ∧ (atLeast 0 (canvasHeight dims) (innerHeight st) →
           atLeast 20 (p_y p) (innerHeight st)))
        (layout t half (initialStart (innerWidth st) (treeHeight t))
                (initialEnd (innerWidth st) (treeHeight t))).
Proof.
  intros Hrep Hfuel Hroom. eexists _, _.
  split; [by apply drawBTree_run|].
  split; [by apply getRequiredHeightWidth_run|].
  split; [done|]. split; [done|]. split; [apply circles_render|].
  split; [reflexivity|]. cbn [canvasWidth canvasHeight].
  pose proof (initial_grid _ _ _ t Hroom) as Hgrid.
  pose proof (onGrid_depth _ _ _ _ _ _ Hgrid) as Hdepth.
  pose proof (roomFor_height _ _ _ _ Hroom) as Hh54.
  pose proof Hgrid as (HW & _ & _ & _ & Hxs & Hxe).
  destruct Hroom as (Hg & HN & Hh & Hw & Hb).
  set (h := treeHeight t) in *. set (w := innerWidth st) in *.
  pose proof (pow2_pos (h - g + 1) ltac:(lia)) as Hp.
  assert (25 * 2 ^ (2 - g) * 2 ^ Z.of_nat (depth t)
          = 2 * (25 * 2 ^ (h - g + 1)))%Z as Hwidth.
  { rewrite <- treeHeight_depth. fold h.
    rewrite <- Z.mul_assoc, <- Z.pow_add_r by lia.
    replace (2 - g + h)%Z with (Z.succ (h - g + 1)) by lia.
    rewrite Z.pow_succ_r by lia. ring. }
  pose proof (initial_step g Hg) as Hstep.
  assert (20 <= inject_Z (25 * 2 ^ (2 - g)) * 2 ^ (g - 1))%Q as Hstep20
    by (rewrite Hstep; lra).
  (* the window and the canvas on the grid of the interval *)
  assert (holds w (2 * N) (g - 1)) as Hw2.
  { assert (g = 0 ∨ g = 1 ∨ g = 2)%Z as [->|[->| ->]] by lia.
    - change (2 ^ 0)%Z with 1%Z in Hw. rewrite Z.mul_1_r in Hw.
      change (2 * N)%Z with (2 ^ 1 * N)%Z. rewrite Z.mul_comm.
      exact (proj1 (holds_scale _ N (0 - 1) 1 ltac:(lia)) Hw).
    - by rewrite Z.mul_comm.
    - apply (proj2 (holds_scale _ (2 * N) 0 1 ltac:(lia))).
      by replace (2 * N * 2 ^ 1)%Z with (N * 2 ^ 2)%Z by lia. }
  assert (holds (Math_pow2 h * nodeWidthSpacing DEFAULT_NODE_CONFIG)%D
            (50 * 2 ^ (h - g + 1)) (g - 1)) as Hcw.
  { apply (proj1 (holds_scale _ 50 (g - 1) (h - g + 1) ltac:(lia))).
    replace (g - 1 + (h - g + 1))%Z with h by lia.
    apply width_holds. lia. }
  assert (holds (ofZ h * nodeHeightSpacing DEFAULT_NODE_CONFIG)%D
            (h * 90 * 2 ^ 1) (-1)) as Hch.
  { apply (proj1 (holds_scale _ (h * 90) (-1) 1 ltac:(lia))).
    apply height_holds. change (2 ^ 46)%Z with 70368744177664%Z. lia. }
  pose proof (layout_within t half _ _ (g - 1)%Z
                (N - 25 * 2 ^ (h - g + 1))%Z (25 * 2 ^ (2 - g))%Z (depth t)
                (le_n (depth t)) Hgrid) as Fx.
  assert (Forall (placedY 0 (depth t))
            (layout t half (initialStart w h) (initialEnd w h))) as Fy.
  { apply layout_placedY; [done| |exact holds_half].
    change (2 ^ 40)%Z with 1099511627776%Z. lia. }
  rewrite Forall_forall in Fx, Fy. apply Forall_forall. intros p Hp'.
  destruct (Fx p Hp') as (X & HX & HX1 & HX2).
  destruct (Fy p Hp') as (l & Hl & _ & HY).
  rewrite Hwidth in HX2.
  assert (atLeast 20 (p_y p) (ofZ h * nodeHeightSpacing DEFAULT_NODE_CONFIG)%D)
    as Hbelow.
  { apply (holds_atLeast_units _ _ ((2 * l + 1) * 90) (h * 90 * 2 ^ 1) 90 (-1));
      [done|done| |done].
    rewrite <- treeHeight_depth in Hl. fold h in Hl. lia. }
  split.
  { apply (holds_atLeast_units _ _ (N - 25 * 2 ^ (h - g + 1)) X
             (25 * 2 ^ (2 - g)) (g - 1)); [exact Hxs|exact HX|lia|done]. }
  split.
  { apply (holds_atLeast_units _ _ X
             (N - 25 * 2 ^ (h - g + 1)
              + 25 * 2 ^ (2 - g) * 2 ^ Z.of_nat (depth t))
             (25 * 2 ^ (2 - g)) (g - 1)); [exact HX|exact Hxe| |done].
    rewrite Hwidth. lia. }
  split.
  { apply (holds_atLeast_units _ _ 0 ((2 * l + 1) * 90) 90 (-1));
      [apply holds_zero|done|lia|done]. }
  split; [exact Hbelow|].
  split.
  { intros Hfit.
    pose proof (atLeast_holds _ _ _ _ _ Hcw Hw2 Hfit) as Hle.
    split.
    - apply (holds_atLeast_units _ _ 0 X (25 * 2 ^ (2 - g)) (g - 1));
        [apply holds_zero|done|lia|done].
    - apply (holds_atLeast_units _ _ X (2 * N) (25 * 2 ^ (2 - g)) (g - 1));
        [done|done|lia|done]. }
  intros Hfit. exact (atLeast_trans 20 0 _ _ _ Hbelow Hfit).
Qed.

(** The sample tree in a window 1280 wide. *)
Lemma drawn_circles_inside_witness :
  repr (nodes sample_store) (Some 0) sample_tree
  ∧ depth sample_tree ≤ 3
  ∧ roomFor (innerWidth sample_store) 2 320 (treeHeight sample_tree)
  ∧ ∃ (cs : list ctx_call) (dims : dimensions),
      drawBTree 3 0 sample_store = Some (tt, emit (resized sample_store) cs)
      ∧ getRequiredHeightWidth 3 0 sample_store = Some (dims, sample_store).
Proof.
  assert (roomFor (innerWidth sample_store) 2 320 (treeHeight sample_tree))
    as Hroom.
  { split; [done|]. split; [done|]. split; [done|].
    split; [exact (holds_ofZ 1280 ltac:(done))|done]. }
  split; [exact sample_repr|]. split; [exact sample_depth|].
  split; [exact Hroom|].
  destruct (drawn_circles_inside sample_store 0 sample_tree 3 2 320
              sample_repr sample_depth Hroom) as (cs & dims & Hrun & Hdims & _).
  exists cs, dims. split; [exact Hrun|exact Hdims].
Defined.
